(** * XML-Bridge: the interactive conversion session of [interactive.js]

    A shallow embedding of the [InteractiveConverter] class (the client-side
    session controller) together with the parts of the JavaScript platform it
    relies on: strings as sequences of UTF-16 code units, JSON values,
    [JSON.stringify], [JSON.parse], [ToString].

    Each event handler of the class is an [async] method.  It is modelled run
    to completion: the points where the method awaits a remote answer are the
    points where the environment ([Env]) supplies that answer.  Two handlers
    in flight at once are outside the model. *)

From Stdlib Require Import String Ascii ZArith NArith List Bool Lia.
Import ListNotations.

Set Warnings "-register-all".

Local Open Scope N_scope.

(** ** JavaScript strings *)

(** A string is its sequence of UTF-16 code units. *)
Definition jsstring := list N.

(** An ASCII literal as a JavaScript string. *)
Definition js (s : string) : jsstring :=
  map N_of_ascii (list_ascii_of_string s).
Arguments js : simpl never.

Fixpoint jsstring_eqb (a b : jsstring) : bool :=
  match a, b with
  | [], [] => true
  | x :: a', y :: b' => (x =? y) && jsstring_eqb a' b'
  | _, _ => false
  end.

(** [s.startsWith(c)] for a one-unit string [c]. *)
Definition startsWith (s : jsstring) (c : N) : bool :=
  match s with
  | x :: _ => x =? c
  | [] => false
  end.

(** [parts.join(sep)] on already converted parts. *)
Fixpoint join (sep : jsstring) (parts : list jsstring) : jsstring :=
  match parts with
  | [] => []
  | [p] => p
  | p :: rest => p ++ sep ++ join sep rest
  end.

(** [s.startsWith(pat)] for any pattern. *)
Fixpoint has_prefix (pat s : jsstring) : bool :=
  match pat, s with
  | [], _ => true
  | p :: pat', x :: s' => (p =? x) && has_prefix pat' s'
  | _ :: _, [] => false
  end.

(** [s.replace(pat, '')] with a string pattern: the first occurrence goes. *)
Fixpoint remove_first (pat s : jsstring) : jsstring :=
  if has_prefix pat s then skipn (length pat) s
  else match s with
       | [] => []
       | x :: s' => x :: remove_first pat s'
       end.

(** ** Decimal digits *)

Definition is_digit (c : N) : bool := (48 <=? c) && (c <=? 57).

Definition digit_char (d : N) : N := 48 + d.

Fixpoint digits_fuel (fuel : nat) (n : N) : jsstring :=
  match fuel with
  | O => []
  | S fuel' =>
      if n <? 10 then [digit_char n]
      else digits_fuel fuel' (n / 10) ++ [digit_char (n mod 10)]
  end.

(** The decimal digits of [n], most significant first, no leading zero. *)
Definition digits (n : N) : jsstring :=
  digits_fuel (S (N.to_nat (N.log2 n))) n.

(** The number a run of decimal digits denotes. *)
Definition N_of_digits (ds : jsstring) : N :=
  fold_left (fun acc c => 10 * acc + (c - 48)) ds 0.

(** The longest run of digits at the head of a string, and what follows. *)
Fixpoint span_digits (s : jsstring) : jsstring * jsstring :=
  match s with
  | c :: r =>
      if is_digit c
      then let (ds, rest) := span_digits r in (c :: ds, rest)
      else ([], s)
  | [] => ([], [])
  end.

Fixpoint drop_zeros (ds : jsstring) : jsstring :=
  match ds with
  | c :: r => if c =? 48 then drop_zeros r else ds
  | [] => []
  end.

(** A digit run without its trailing zeros. *)
Definition strip_trailing_zeros (ds : jsstring) : jsstring :=
  rev (drop_zeros (rev ds)).

(** ** Numbers

    A JavaScript number is a double.  [JSON.parse] rounds a numeral to the
    nearest double, and [Number::toString] prints the shortest digits that
    round to the double (the digits [s], their count [k] and the position
    [n] of the decimal point).  The model holds a finite number as the
    decimal [mant * 10 ^ expo] of those digits ([mant] is [s] with the sign
    and [expo] is [n - k]) and keeps a numeral as it is written.  The two
    agree where the numeral is the shortest text of the double it rounds
    to, as every numeral of at most 15 significant digits within the range
    of the normal doubles is ([exact_number]).  Negative zero is identified
    with zero; the infinities are the values [JInf]. *)
Record Number := mkNumber { mant : Z; expo : Z }.


Definition Number_eqb (x y : Number) : bool :=
  (mant x =? mant y)%Z && (expo x =? expo y)%Z.

(** The number with decimal digits [ds] (leading and trailing zeros allowed)
    scaled by [10 ^ e], negated when [neg]. *)
Definition number_of_decimal (neg : bool) (ds : jsstring) (e : Z) : Number :=
  let s := strip_trailing_zeros ds in
  let m := Z.of_N (N_of_digits s) in
  if (m =? 0)%Z then mkNumber 0 0
  else mkNumber (if neg then (- m)%Z else m)
                (e + Z.of_nat (length ds) - Z.of_nat (length s))%Z.

(** The number an integer is. *)
Definition Number_of_Z (z : Z) : Number :=
  number_of_decimal (z <? 0)%Z (digits (Z.abs_N z)) 0.

Definition zeros (n : nat) : jsstring := repeat 48 n.

(** [Number::toString] of ECMA-262 (radix 10) on a finite number. *)
Definition Number_toString (x : Number) : jsstring :=
  if (mant x =? 0)%Z then [48]
  else
    let s := digits (Z.abs_N (mant x)) in
    let k := Z.of_nat (length s) in
    let n := (k + expo x)%Z in
    let sign := if (mant x <? 0)%Z then [45] else [] in
    let exponent :=
      101 :: (if (0 <=? n - 1)%Z then 43 else 45)
          :: digits (Z.abs_N (n - 1)) in
    sign ++
    (if (k <=? n)%Z && (n <=? 21)%Z then
       s ++ zeros (Z.to_nat (n - k))
     else if (0 <? n)%Z && (n <=? 21)%Z then
       firstn (Z.to_nat n) s ++ 46 :: skipn (Z.to_nat n) s
     else if (-6 <? n)%Z && (n <=? 0)%Z then
       48 :: 46 :: zeros (Z.to_nat (- n)) ++ s
     else if (k =? 1)%Z then
       s ++ exponent
     else
       firstn 1 s ++ 46 :: skipn 1 s ++ exponent).

(** *** Number literals

    A JSON number literal is an optional minus sign; a single zero or a run
    of digits that starts with a non-zero digit; an optional fraction (a
    point and at least one digit); an optional exponent (e or E, an optional
    sign, at least one digit). *)

Definition scan_int (s : jsstring) : option (jsstring * jsstring) :=
  match s with
  | c :: r =>
      if c =? 48 then Some ([48], r)
      else if is_digit c then Some (span_digits s)
      else None
  | [] => None
  end.

Definition scan_frac (s : jsstring) : option (jsstring * jsstring) :=
  match s with
  | c :: r =>
      if c =? 46 then
        match span_digits r with
        | ([], _) => None
        | (fp, s') => Some (fp, s')
        end
      else Some ([], s)
  | [] => Some ([], s)
  end.

Definition scan_exp (s : jsstring) : option (Z * jsstring) :=
  match s with
  | c :: r =>
      if (c =? 101) || (c =? 69) then
        let (eneg, r1) :=
          match r with
          | c' :: r' =>
              if c' =? 43 then (false, r')
              else if c' =? 45 then (true, r')
              else (false, r)
          | [] => (false, r)
          end in
        match span_digits r1 with
        | ([], _) => None
        | (ep, s') =>
            let e := Z.of_N (N_of_digits ep) in
            Some (if eneg then (- e)%Z else e, s')
        end
      else Some (0%Z, s)
  | [] => Some (0%Z, s)
  end.

Definition scan_unsigned (neg : bool) (s : jsstring)
  : option (Number * jsstring) :=
  match scan_int s with
  | None => None
  | Some (ip, s2) =>
      match scan_frac s2 with
      | None => None
      | Some (fp, s3) =>
          match scan_exp s3 with
          | None => None
          | Some (e, s4) =>
              Some (number_of_decimal neg (ip ++ fp)
                      (e - Z.of_nat (length fp))%Z, s4)
          end
      end
  end.

(** The number literal at the head of a string, and what follows it. *)
Definition scan_number (s : jsstring) : option (Number * jsstring) :=
  match s with
  | c :: r => if c =? 45 then scan_unsigned true r else scan_unsigned false s
  | [] => None
  end.

(** ** JSON values

    The values a parsed response is made of.  [JInf] is [Infinity] or
    [-Infinity]: what a numeral beyond the range of the doubles, such as
    [1e400], is once [response.json()] has parsed it. *)

Inductive JSON : Type :=
| JNull
| JBool (b : bool)
| JNum (x : Number)
| JInf (negative : bool)
| JStr (s : jsstring)
| JArr (items : list JSON)
| JObj (members : list (jsstring * JSON)).

(** [typeof v === 'object']: true of [null] too. *)
Definition typeof_object (v : JSON) : bool :=
  match v with
  | JNull | JArr _ | JObj _ => true
  | _ => false
  end.

(** [ToBoolean]. *)
Definition truthy (v : JSON) : bool :=
  match v with
  | JNull => false
  | JBool b => b
  | JNum x => negb (mant x =? 0)%Z
  | JStr s => match s with [] => false | _ => true end
  | JInf _ | JArr _ | JObj _ => true
  end.

(** Whether [ToString] returns.  An object with an own member [toString]
    has no text: the member is no function, [Object.prototype.valueOf]
    returns the object itself, and the conversion ends in a [TypeError].
    An array has the text of its elements, and none when one of them has
    none. *)
Fixpoint converts (v : JSON) : bool :=
  match v with
  | JArr items => forallb converts items
  | JObj members =>
      negb (existsb (fun kv => jsstring_eqb (fst kv) (js "toString")) members)
  | _ => true
  end.

(** The message of that [TypeError]. *)
Definition no_primitive : jsstring :=
  js "Cannot convert object to primitive value".

(** [ToString], where it returns ([converts]): an array joins its elements
    with a comma, [null] elements giving the empty string; an object gives
    [[object Object]]. *)
Fixpoint ToString (v : JSON) : jsstring :=
  match v with
  | JNull => js "null"
  | JBool true => js "true"
  | JBool false => js "false"
  | JNum x => Number_toString x
  | JInf true => js "-Infinity"
  | JInf false => js "Infinity"
  | JStr s => s
  | JArr items =>
      join [44] (map (fun x => match x with
                               | JNull => []
                               | _ => ToString x
                               end) items)
  | JObj _ => js "[object Object]"
  end.

(** *** Property order of objects

    An object lists its array-index keys first, in ascending order, then its
    other keys in the order they were created.  [members] is kept in that
    order. *)

(** The array index a key spells, if any: a canonical decimal numeral up to
    [2^32 - 2]. *)
Definition array_index (k : jsstring) : option N :=
  let i := N_of_digits k in
  if jsstring_eqb (digits i) k && (i <=? 4294967294) then Some i else None.

(** Whether a new key [k] is listed before the existing key [k']. *)
Definition key_before (k k' : jsstring) : bool :=
  match array_index k, array_index k' with
  | Some i, Some j => i <? j
  | Some _, None => true
  | None, _ => false
  end.

(** [CreateDataProperty]: an existing key keeps its place and takes the new
    value, a new key goes to its place in the order. *)
Fixpoint obj_set (k : jsstring) (v : JSON) (o : list (jsstring * JSON))
  : list (jsstring * JSON) :=
  match o with
  | [] => [(k, v)]
  | (k', v') :: o' =>
      if jsstring_eqb k k' then (k, v) :: o'
      else if key_before k k' then (k, v) :: o
      else (k', v') :: obj_set k v o'
  end.

(** The object built by defining the members one after the other. *)
Definition obj_normalise (m : list (jsstring * JSON))
  : list (jsstring * JSON) :=
  fold_left (fun o kv => obj_set (fst kv) (snd kv) o) m [].

(** Keys in property order, none repeated. *)
Fixpoint keys_ordered (ks : list jsstring) : bool :=
  match ks with
  | [] => true
  | k :: r =>
      forallb (fun k' => negb (jsstring_eqb k' k) && negb (key_before k' k)) r
      && keys_ordered r
  end.

(** The canonical form of a number: no trailing zero in the digits, zero is
    [0e0]. *)
Definition canonicalb (x : Number) : bool :=
  ((mant x =? 0)%Z && (expo x =? 0)%Z) || negb (mant x mod 10 =? 0)%Z.

(** The values a JSON text denotes: finite numbers in canonical form,
    objects with their keys in property order. *)
Fixpoint wf_json (v : JSON) : bool :=
  match v with
  | JNum x => canonicalb x
  | JInf _ => false
  | JArr items => forallb wf_json items
  | JObj members =>
      keys_ordered (map fst members)
      && forallb (fun kv => wf_json (snd kv)) members
  | _ => true
  end.

(** A number that the model holds exactly as the program does: in
    canonical form, of at most 15 significant digits, and zero or of a
    magnitude from [1e-307] up to [1e308]. *)
Definition exact_number (x : Number) : bool :=
  canonicalb x
  && (Z.abs (mant x) <? 10 ^ 15)%Z && (-307 <=? expo x)%Z && (expo x <=? 293)%Z.

(** The values whose finite numbers are all exact ([exact_number]): the
    values that the model holds as the program does. *)
Fixpoint exact_numbers (v : JSON) : bool :=
  match v with
  | JNum x => exact_number x
  | JArr items => forallb exact_numbers items
  | JObj members => forallb (fun kv => exact_numbers (snd kv)) members
  | _ => true
  end.

(** ** [JSON.stringify] *)

Definition hex_char (d : N) : N := if d <? 10 then 48 + d else 87 + d.

(** The escape [\uXXXX], lower-case digits. *)
Definition unicode_escape (c : N) : jsstring :=
  [92; 117; hex_char (c / 4096 mod 16); hex_char (c / 256 mod 16);
   hex_char (c / 16 mod 16); hex_char (c mod 16)].

Definition is_high_surrogate (c : N) : bool := (55296 <=? c) && (c <=? 56319).
Definition is_low_surrogate (c : N) : bool := (56320 <=? c) && (c <=? 57343).

Definition quote_unit (c : N) : jsstring :=
  if c =? 8 then [92; 98]
  else if c =? 9 then [92; 116]
  else if c =? 10 then [92; 110]
  else if c =? 12 then [92; 102]
  else if c =? 13 then [92; 114]
  else if c =? 34 then [92; 34]
  else if c =? 92 then [92; 92]
  else if c <? 32 then unicode_escape c
  else [c].

(** The body of [QuoteJSONString]: a surrogate pair is kept, a lone
    surrogate is escaped. *)
Fixpoint quote_units (s : jsstring) : jsstring :=
  match s with
  | [] => []
  | c :: r =>
      if is_high_surrogate c then
        match r with
        | d :: r' =>
            if is_low_surrogate d then c :: d :: quote_units r'
            else unicode_escape c ++ quote_units r
        | [] => unicode_escape c
        end
      else if is_low_surrogate c then unicode_escape c ++ quote_units r
      else quote_unit c ++ quote_units r
  end.

Definition QuoteJSONString (s : jsstring) : jsstring :=
  34 :: quote_units s ++ [34].

(** [JSON.stringify(v)] with no replacer and no indentation.  A number that
    is not finite is written [null]. *)
Fixpoint JSON_stringify (v : JSON) : jsstring :=
  match v with
  | JNull => js "null"
  | JBool true => js "true"
  | JBool false => js "false"
  | JNum x => Number_toString x
  | JInf _ => js "null"
  | JStr s => QuoteJSONString s
  | JArr items => 91 :: join [44] (map JSON_stringify items) ++ [93]
  | JObj members =>
      123 :: join [44] (map (fun kv => QuoteJSONString (fst kv)
                                         ++ 58 :: JSON_stringify (snd kv))
                            members) ++ [125]
  end.

(** ** [JSON.parse] *)

Definition is_ws (c : N) : bool :=
  (c =? 32) || (c =? 9) || (c =? 10) || (c =? 13).

Fixpoint skip_ws (s : jsstring) : jsstring :=
  match s with
  | c :: r => if is_ws c then skip_ws r else s
  | [] => []
  end.

Definition hex_value (c : N) : option N :=
  if is_digit c then Some (c - 48)
  else if (97 <=? c) && (c <=? 102) then Some (c - 87)
  else if (65 <=? c) && (c <=? 70) then Some (c - 55)
  else None.

(** The unit a one-letter escape stands for. *)
Definition simple_escape (e : N) : option N :=
  if e =? 34 then Some 34
  else if e =? 92 then Some 92
  else if e =? 47 then Some 47
  else if e =? 98 then Some 8
  else if e =? 102 then Some 12
  else if e =? 110 then Some 10
  else if e =? 114 then Some 13
  else if e =? 116 then Some 9
  else None.

(** A string literal after its opening quote: its value and what follows
    the closing quote. *)
Fixpoint scan_string (s : jsstring) : option (jsstring * jsstring) :=
  match s with
  | [] => None
  | c :: r =>
      if c =? 34 then Some ([], r)
      else if c =? 92 then
        match r with
        | e :: r1 =>
            if e =? 117 then
              match r1 with
              | h3 :: h2 :: h1 :: h0 :: r2 =>
                  match hex_value h3, hex_value h2,
                        hex_value h1, hex_value h0 with
                  | Some a, Some b, Some c', Some d =>
                      match scan_string r2 with
                      | Some (t, rest) =>
                          Some (((a * 16 + b) * 16 + c') * 16 + d :: t, rest)
                      | None => None
                      end
                  | _, _, _, _ => None
                  end
              | _ => None
              end
            else
              match simple_escape e with
              | Some u =>
                  match scan_string r1 with
                  | Some (t, rest) => Some (u :: t, rest)
                  | None => None
                  end
              | None => None
              end
        | [] => None
        end
      else if c <? 32 then None
      else
        match scan_string r with
        | Some (t, rest) => Some (c :: t, rest)
        | None => None
        end
  end.

(** The recursive-descent parser.  Every call on a value, on the elements of
    an array or on the members of an object takes one unit of [fuel]. *)
Fixpoint parse_value (fuel : nat) (s : jsstring) : option (JSON * jsstring) :=
  match fuel with
  | O => None
  | S fuel' =>
      match skip_ws s with
      | [] => None
      | c :: r =>
          if c =? 123 then
            if startsWith (skip_ws r) 125
            then Some (JObj [], tl (skip_ws r))
            else
              match parse_members fuel' r with
              | Some (m, rest) => Some (JObj (obj_normalise m), rest)
              | None => None
              end
          else if c =? 91 then
            if startsWith (skip_ws r) 93
            then Some (JArr [], tl (skip_ws r))
            else
              match parse_elements fuel' r with
              | Some (vs, rest) => Some (JArr vs, rest)
              | None => None
              end
          else if c =? 34 then
            match scan_string r with
            | Some (t, rest) => Some (JStr t, rest)
            | None => None
            end
          else if has_prefix (js "true") (c :: r) then
            Some (JBool true, skipn 4 (c :: r))
          else if has_prefix (js "false") (c :: r) then
            Some (JBool false, skipn 5 (c :: r))
          else if has_prefix (js "null") (c :: r) then
            Some (JNull, skipn 4 (c :: r))
          else
            match scan_number (c :: r) with
            | Some (x, rest) => Some (JNum x, rest)
            | None => None
            end
      end
  end

with parse_elements (fuel : nat) (s : jsstring)
  : option (list JSON * jsstring) :=
  match fuel with
  | O => None
  | S fuel' =>
      match parse_value fuel' s with
      | Some (v, rest) =>
          if startsWith (skip_ws rest) 44 then
            match parse_elements fuel' (tl (skip_ws rest)) with
            | Some (vs, rest') => Some (v :: vs, rest')
            | None => None
            end
          else if startsWith (skip_ws rest) 93
          then Some ([v], tl (skip_ws rest))
          else None
      | None => None
      end
  end

with parse_members (fuel : nat) (s : jsstring)
  : option (list (jsstring * JSON) * jsstring) :=
  match fuel with
  | O => None
  | S fuel' =>
      if startsWith (skip_ws s) 34 then
        match scan_string (tl (skip_ws s)) with
        | Some (k, rest) =>
            if startsWith (skip_ws rest) 58 then
              match parse_value fuel' (tl (skip_ws rest)) with
              | Some (v, rest1) =>
                  if startsWith (skip_ws rest1) 44 then
                    match parse_members fuel' (tl (skip_ws rest1)) with
                    | Some (m, rest2) => Some ((k, v) :: m, rest2)
                    | None => None
                    end
                  else if startsWith (skip_ws rest1) 125
                  then Some ([(k, v)], tl (skip_ws rest1))
                  else None
              | None => None
              end
            else None
        | None => None
        end
      else None
  end.

(** [JSON.parse(s)]: [None] stands for the [SyntaxError] it throws.  A
    numeral is kept as it is written: the value is the one the program holds
    where the numerals are exact ([exact_numbers]). *)
Definition JSON_parse (s : jsstring) : option JSON :=
  match parse_value (S (length s)) s with
  | Some (v, rest) =>
      match skip_ws rest with
      | [] => Some v
      | _ :: _ => None
      end
  | None => None
  end.

(** ** The pieces of a printed value *)

(** What may follow a number literal: the end of the text, or a unit that
    does not continue the literal. *)
Definition ends_number (rest : jsstring) : bool :=
  match rest with
  | [] => true
  | c :: _ => negb (is_digit c || (c =? 46) || (c =? 101) || (c =? 69))
  end.

(** What follows a printed value: the end of the text, a comma, or the
    bracket or brace that closes the enclosing value. *)
Definition ends_value (rest : jsstring) : bool :=
  match rest with
  | [] => true
  | c :: _ => (c =? 44) || (c =? 93) || (c =? 125)
  end.

(** The fraction of a literal with fraction digits [fp], none if empty. *)
Definition frac_text (fp : jsstring) : jsstring :=
  match fp with
  | [] => []
  | _ :: _ => 46 :: fp
  end.

(** The exponent part of a literal, as [Number::toString] writes it. *)
Definition exp_text (e : option Z) : jsstring :=
  match e with
  | None => []
  | Some e =>
      101 :: (if (0 <=? e)%Z then 43 else 45) :: digits (Z.abs_N e)
  end.

(** The exponent a literal carries, zero if it has none. *)
Definition exp_value (e : option Z) : Z :=
  match e with
  | None => 0%Z
  | Some e => e
  end.

(** An integer part: a single zero, or digits that start with a non-zero
    digit. *)
Definition int_part (ip : jsstring) : bool :=
  jsstring_eqb ip [48]
  || (forallb is_digit ip && negb (startsWith ip 48)
      && match ip with [] => false | _ :: _ => true end).

(** The fuel that parsing a printed value takes. *)
Fixpoint jsize (v : JSON) : nat :=
  match v with
  | JArr items => S (fold_right (fun x n => S (jsize x + n)) 0%nat items)
  | JObj members =>
      S (fold_right (fun kv n => S (jsize (snd kv) + n)) 0%nat members)
  | _ => 1%nat
  end.

(** What [scan_string] does with the rest once it has read one unit. *)
Definition scanned (c : N) (r : option (jsstring * jsstring))
  : option (jsstring * jsstring) :=
  match r with
  | Some (t, rest) => Some (c :: t, rest)
  | None => None
  end.

(** The key [k] is new to [o] and is listed after every key of [o]. *)
Definition listed_last (k : jsstring) (o : list (jsstring * JSON)) : bool :=
  forallb (fun kv => negb (jsstring_eqb k (fst kv))
                     && negb (key_before k (fst kv))) o.

(** The units a printed value can start with: the first letter of a
    keyword, a minus sign, a digit, a quote, a bracket, a brace. *)
Definition starts_value (c : N) : bool :=
  (c =? 110) || (c =? 116) || (c =? 102) || (c =? 45) || is_digit c
  || (c =? 34) || (c =? 91) || (c =? 123).

(** A value parses back from its text, whatever closes it. *)
Definition parses_back (v : JSON) : Prop :=
  wf_json v = true ->
  forall fuel rest,
    (jsize v <= fuel)%nat -> ends_value rest = true ->
    parse_value fuel (JSON_stringify v ++ rest) = Some (v, rest).

(** Induction on a value, with the property at hand for the items of an
    array and for the values of the members of an object. *)
Fixpoint JSON_nested_ind (P : JSON -> Prop)
    (HNull : P JNull) (HBool : forall b, P (JBool b))
    (HNum : forall x, P (JNum x)) (HInf : forall n, P (JInf n))
    (HStr : forall s, P (JStr s))
    (HArr : forall items, Forall P items -> P (JArr items))
    (HObj : forall members,
        Forall (fun kv => P (snd kv)) members -> P (JObj members))
    (v : JSON) {struct v} : P v :=
  match v with
  | JNull => HNull
  | JBool b => HBool b
  | JNum x => HNum x
  | JInf n => HInf n
  | JStr s => HStr s
  | JArr items =>
      HArr items
        ((fix all (l : list JSON) : Forall P l :=
            match l with
            | [] => Forall_nil P
            | x :: r =>
                Forall_cons x
                  (JSON_nested_ind P HNull HBool HNum HInf HStr HArr HObj x)
                  (all r)
            end) items)
  | JObj members =>
      HObj members
        ((fix all (l : list (jsstring * JSON))
            : Forall (fun kv => P (snd kv)) l :=
            match l with
            | [] => Forall_nil _
            | kv :: r =>
                Forall_cons kv
                  (JSON_nested_ind P HNull HBool HNum HInf HStr HArr HObj
                     (snd kv))
                  (all r)
            end) members)
  end.

(** A structured value: an object or an array. *)
Definition structured (v : JSON) : bool :=
  match v with
  | JArr _ | JObj _ => true
  | _ => false
  end.

(** ** The remote resolver

    The bodies the endpoints answer with, at the shape the client reads; a
    body of another shape is outside the model.  A request that is rejected,
    or whose body is not JSON, is [Failed] with the message of the error
    thrown at the [await]. *)

Inductive Fetch (A : Type) : Type :=
| Fetched (data : A)
| Failed (message : jsstring).
Arguments Fetched {A} data.
Arguments Failed {A} message.

(** A decision of the queue. *)
Module Decision.
Record t := make {
  id : jsstring;
  type : jsstring;
  description : jsstring;
  context : jsstring;
  impact : option jsstring;
  options : list JSON;
  default_option : option JSON
}.
End Decision.

(** [POST /interactive/start]. *)
Module StartData.
Record t := make {
  status : jsstring;
  session_id : jsstring;
  pending_decisions : Z;
  message : option jsstring
}.
End StartData.

(** [GET /interactive/decisions/<id>]; [pending] is [data.decisions.pending]. *)
Module DecisionsData.
Record t := make {
  status : jsstring;
  pending : list Decision.t
}.
End DecisionsData.

(** [POST /interactive/resolve]. *)
Module ResolveData.
Record t := make {
  status : jsstring;
  pending_decisions : Z;
  session_status : jsstring;
  result : option JSON;
  message : option jsstring
}.
End ResolveData.

(** [GET /interactive/status/<id>]; [completion_info] is
    [data.session_status.completion_info], [Some r] when the object is there
    and [r] is its [result]. *)
Module StatusData.
Record t := make {
  status : jsstring;
  completion_info : option (option JSON);
  message : option jsstring
}.
End StatusData.

(** [POST /interactive/complete/<id>]. *)
Module CompleteData.
Record t := make {
  status : jsstring;
  result : option JSON;
  message : option jsstring
}.
End CompleteData.

(** What the environment supplies while one handler runs: the answer of each
    endpoint (a handler calls an endpoint at most once) and the user's answer
    to the confirmation dialog.  The body of the cancel response is never
    read. *)
Record Env := mkEnv {
  start_response : Fetch StartData.t;
  decisions_response : Fetch DecisionsData.t;
  resolve_response : Fetch ResolveData.t;
  status_response : Fetch StatusData.t;
  complete_response : Fetch CompleteData.t;
  cancel_response : Fetch unit;
  confirm_answer : bool
}.

(** The requests the client issues.  The session part of a URL is the text
    the template literal gives [this.sessionId]. *)
Inductive Request : Type :=
| POST_start (source_format target_format : jsstring)
| GET_decisions (session : jsstring)
| POST_resolve (body : jsstring)
| GET_status (session : jsstring)
| POST_complete (session : jsstring)
| POST_cancel (session : jsstring) (body : jsstring).

(** ** The state of the page *)

Record HistoryEntry := mkHistoryEntry {
  decision_id : jsstring;
  choice : JSON
}.

(** The fields of [InteractiveConverter]. *)
Record Converter := mkConverter {
  sessionId : option jsstring;
  pendingDecisions : list Decision.t;
  conversionHistory : list HistoryEntry
}.

Inductive ToastType := success | error | info.

(** A toast shown by [Utils.showToast].  The timer that removes it after
    three seconds is not modelled: [toasts] lists the toasts shown so far. *)
Record Toast := mkToast {
  toast_message : jsstring;
  toast_type : ToastType
}.

(** A [.decision-option] button. *)
Record OptionButton := mkOptionButton {
  data_value : jsstring;
  textContent : jsstring;
  default_class : bool
}.

(** The element [renderDecision] builds; the heading and the descriptive
    text of the decision are not tracked. *)
Record DecisionEl := mkDecisionEl {
  store_preference : bool;
  option_buttons : list OptionButton
}.

(** [#decision-container] and [#decision-panel]. *)
Record DecisionView := mkDecisionView {
  container_shown : bool;
  dataset_decisionId : option jsstring;
  decision_el : option DecisionEl
}.

(** [#interactive-panel], [#session-id], [#pending-count] and the number of
    decisions [#interactive-progress] reports once filled.  The text of
    [#interactive-header] is not tracked. *)
Record SessionView := mkSessionView {
  panel_shown : bool;
  session_id_text : jsstring;
  pending_count_text : jsstring;
  progress : option nat
}.

(** [window.converter.currentResult], [#spinner], [#output-display] and the
    buttons that act on the result. *)
Record ResultView := mkResultView {
  currentResult : option JSON;
  spinner_shown : bool;
  output_text : jsstring;
  download_copy_disabled : bool;
  evaluate_disabled : bool
}.

(** The converter, the part of the page it reads and writes, and the
    requests it has sent. *)
Record World := mkWorld {
  this : Converter;
  currentFile : bool;
  source_format : jsstring;
  target_format : jsstring;
  result_view : ResultView;
  session_view : SessionView;
  decision_view : DecisionView;
  toasts : list Toast;
  sent : list Request
}.

Definition on_this (f : Converter -> Converter) (w : World) : World :=
  mkWorld (f (this w)) (currentFile w) (source_format w) (target_format w)
          (result_view w) (session_view w) (decision_view w) (toasts w)
          (sent w).

Definition on_result (f : ResultView -> ResultView) (w : World) : World :=
  mkWorld (this w) (currentFile w) (source_format w) (target_format w)
          (f (result_view w)) (session_view w) (decision_view w) (toasts w)
          (sent w).

Definition on_session (f : SessionView -> SessionView) (w : World) : World :=
  mkWorld (this w) (currentFile w) (source_format w) (target_format w)
          (result_view w) (f (session_view w)) (decision_view w) (toasts w)
          (sent w).

Definition on_decision (f : DecisionView -> DecisionView) (w : World)
  : World :=
  mkWorld (this w) (currentFile w) (source_format w) (target_format w)
          (result_view w) (session_view w) (f (decision_view w)) (toasts w)
          (sent w).

Definition add_toast (t : Toast) (w : World) : World :=
  mkWorld (this w) (currentFile w) (source_format w) (target_format w)
          (result_view w) (session_view w) (decision_view w)
          (toasts w ++ [t]) (sent w).

Definition add_request (r : Request) (w : World) : World :=
  mkWorld (this w) (currentFile w) (source_format w) (target_format w)
          (result_view w) (session_view w) (decision_view w) (toasts w)
          (sent w ++ [r]).

(** The page as loaded, after [new InteractiveConverter()]. *)
Definition constructor (file : bool) (source target : jsstring) : World :=
  mkWorld (mkConverter None [] []) file source target
          (mkResultView None false [] true true)
          (mkSessionView false [45] [45] None)
          (mkDecisionView false None None)
          [] [].

(** ** Computations that may throw *)

Inductive Completion (A : Type) : Type :=
| Normal (value : A)
| Throw (message : jsstring).
Arguments Normal {A} value.
Arguments Throw {A} message.

Definition Js (A : Type) : Type := World -> Completion A * World.

Definition ret {A} (a : A) : Js A := fun w => (Normal a, w).

Definition bind {A B} (m : Js A) (k : A -> Js B) : Js B :=
  fun w =>
    match m w with
    | (Normal a, w') => k a w'
    | (Throw e, w') => (Throw e, w')
    end.

Definition throw {A} (message : jsstring) : Js A :=
  fun w => (Throw message, w).

Definition try_catch {A} (body : Js A) (handler : jsstring -> Js A) : Js A :=
  fun w =>
    match body w with
    | (Normal a, w') => (Normal a, w')
    | (Throw e, w') => handler e w'
    end.

Definition try_finally {A} (body : Js A) (final : Js unit) : Js A :=
  fun w =>
    let (r, w') := body w in
    match final w' with
    | (Normal _, w'') => (r, w'')
    | (Throw e, w'') => (Throw e, w'')
    end.

Definition gets {A} (f : World -> A) : Js A := fun w => (Normal (f w), w).

Definition modify (f : World -> World) : Js unit :=
  fun w => (Normal tt, f w).

Notation "x <- m ;; k" := (bind m (fun x => k))
  (at level 61, m at next level, right associativity).
Notation "m ;; k" := (bind m (fun _ => k))
  (at level 61, right associativity).

Fixpoint forEach {A} (f : A -> Js unit) (l : list A) : Js unit :=
  match l with
  | [] => ret tt
  | x :: r => f x ;; forEach f r
  end.

(** [await fetch(...)] and [await response.json()]: the request goes out,
    the answer is the one the environment holds. *)
Definition fetch {A} (r : Request) (answer : Fetch A) : Js A :=
  modify (add_request r) ;;
  match answer with
  | Fetched data => ret data
  | Failed message => throw message
  end.

(** ** Helpers of the page *)

Definition showToast (message : jsstring) (type : ToastType) : Js unit :=
  modify (add_toast (mkToast message type)).

Definition showSpinner : Js unit :=
  modify (on_result (fun r =>
    mkResultView (currentResult r) true (output_text r)
                 (download_copy_disabled r) (evaluate_disabled r))).

Definition hideSpinner : Js unit :=
  modify (on_result (fun r =>
    mkResultView (currentResult r) false (output_text r)
                 (download_copy_disabled r) (evaluate_disabled r))).

(** Assigning to [textContent]: [undefined] gives the empty text. *)
Definition text_of (content : option JSON) : jsstring :=
  match content with
  | Some JNull | None => []
  | Some v => ToString v
  end.

(** Whether the assignment returns: a value that has no text makes it
    throw. *)
Definition shows (content : option JSON) : bool :=
  match content with
  | Some v => converts v
  | None => true
  end.

(** [!content]. *)
Definition falsy (content : option JSON) : bool :=
  match content with
  | Some v => negb (truthy v)
  | None => true
  end.

(** [UI.updateResult]: the text of the output, then the three buttons.
    When the content has no text the assignment to [textContent] throws and
    the buttons are left as they were. *)
Definition updateResult (content : option JSON) : Js unit :=
  if shows content then
    modify (on_result (fun r =>
      mkResultView (currentResult r) (spinner_shown r) (text_of content)
                   (falsy content) (falsy content)))
  else throw no_primitive.

Definition set_currentResult (content : option JSON) : Js unit :=
  modify (on_result (fun r =>
    mkResultView content (spinner_shown r) (output_text r)
                 (download_copy_disabled r) (evaluate_disabled r))).

Definition enable_evaluate : Js unit :=
  modify (on_result (fun r =>
    mkResultView (currentResult r) (spinner_shown r) (output_text r)
                 (download_copy_disabled r) false)).

Definition show_container (shown : bool) : Js unit :=
  modify (on_decision (fun d =>
    mkDecisionView shown (dataset_decisionId d) (decision_el d))).

Definition show_panel (shown : bool) : Js unit :=
  modify (on_session (fun v =>
    mkSessionView shown (session_id_text v) (pending_count_text v)
                  (progress v))).

Definition set_pending_count (text : jsstring) : Js unit :=
  modify (on_session (fun v =>
    mkSessionView (panel_shown v) (session_id_text v) text (progress v))).

Definition set_session_id_text (text : jsstring) : Js unit :=
  modify (on_session (fun v =>
    mkSessionView (panel_shown v) text (pending_count_text v) (progress v))).

(** [!this.sessionId]. *)
Definition no_session (sid : option jsstring) : bool :=
  match sid with
  | None | Some [] => true
  | Some _ => false
  end.

(** The text of [this.sessionId] in a template literal. *)
Definition session_text (sid : option jsstring) : jsstring :=
  match sid with
  | Some s => s
  | None => js "null"
  end.

(** [new Error(message).message]. *)
Definition Error (message : option jsstring) : jsstring :=
  match message with
  | Some m => m
  | None => []
  end.

(** ** The methods of [InteractiveConverter] *)

(** The progress section reports [this.conversionHistory.length]. *)
Definition updateCompletionInfo : Js unit :=
  modify (fun w => on_session (fun v =>
    mkSessionView (panel_shown v) (session_id_text v) (pending_count_text v)
                  (Some (length (conversionHistory (this w))))) w).

(** The label of an option: [Object.entries] of an object or an array
    (it throws on [null]), each value in a template literal (which throws
    on a value that has no text); [String(option)] of anything else. *)
Definition formatOption (option : JSON) : Js jsstring :=
  match option with
  | JNull => throw (js "Cannot convert undefined or null to object")
  | JArr items =>
      if forallb converts items then
        ret (join (js ", ")
               (map (fun iv => digits (N.of_nat (fst iv)) ++ js ": "
                                 ++ ToString (snd iv))
                    (combine (seq 0 (length items)) items)))
      else throw no_primitive
  | JObj members =>
      if forallb (fun kv => converts (snd kv)) members then
        ret (join (js ", ")
               (map (fun kv => fst kv ++ js ": " ++ ToString (snd kv))
                    members))
      else throw no_primitive
  | _ => ret (ToString option)
  end.

(** The options [formatOption] returns a label for. *)
Definition has_label (option : JSON) : bool :=
  match option with
  | JNull => false
  | JArr items => forallb converts items
  | JObj members => forallb (fun kv => converts (snd kv)) members
  | _ => true
  end.

(** The value stored in [optionBtn.dataset.value]. *)
Definition dataset_value (option : JSON) : jsstring :=
  if typeof_object option then JSON_stringify option else ToString option.

(** [a === b] on two values of one parsed response: two objects are never
    the same object. *)
Definition strict_equal (a b : JSON) : bool :=
  match a, b with
  | JNull, JNull => true
  | JBool x, JBool y => Bool.eqb x y
  | JNum x, JNum y => Number_eqb x y
  | JInf x, JInf y => Bool.eqb x y
  | JStr x, JStr y => jsstring_eqb x y
  | _, _ => false
  end.

(** The test for the recommended option. *)
Definition is_default (d : Decision.t) (option : JSON) : bool :=
  match Decision.default_option d with
  | Some dflt =>
      truthy dflt
      && (strict_equal option dflt
          || jsstring_eqb (JSON_stringify option) (JSON_stringify dflt))
  | None => false
  end.

Definition append_button (b : OptionButton) : Js unit :=
  modify (on_decision (fun d =>
    mkDecisionView (container_shown d) (dataset_decisionId d)
      (match decision_el d with
       | Some el =>
           Some (mkDecisionEl (store_preference el) (option_buttons el ++ [b]))
       | None => None
       end))).

(** The body of the loop over [decision.options]: the button of one
    option. *)
Definition option_button (decision : Decision.t) (option : JSON) : Js unit :=
  text <- formatOption option ;;
  append_button
    (if is_default decision option
     then mkOptionButton (dataset_value option)
                         (text ++ js " (Recommended)") true
     else mkOptionButton (dataset_value option) text false).

Definition renderDecision (decision : Decision.t) : Js unit :=
  modify (on_decision (fun d =>
    mkDecisionView (container_shown d) (Some (Decision.id decision))
                   (Some (mkDecisionEl false [])))) ;;
  forEach (option_button decision) (Decision.options decision) ;;
  show_container true.

(** A decision whose texts hold no markup.  [renderDecision] writes the
    description, the context and the impact into [innerHTML] as they are:
    with no [<] in them they are text, and the element holds the option
    buttons and the preference box that [DecisionEl] lists, and no other. *)
Definition plain_texts (decision : Decision.t) : bool :=
  let plain := forallb (fun c => negb (c =? 60)) in
  plain (Decision.description decision)
  && plain (Decision.context decision)
  && match Decision.impact decision with
     | Some text => plain text
     | None => true
     end.

(** What [completeConversion] does with the artifact, in both branches. *)
Definition completed_with (r : option JSON) : Js unit :=
  updateResult r ;;
  set_currentResult r ;;
  enable_evaluate ;;
  showToast (js "Conversion completed successfully") success ;;
  updateCompletionInfo.

Definition completeConversion (env : Env) : Js unit :=
  try_finally
    (try_catch
       (showSpinner ;;
        sid <- gets (fun w => sessionId (this w)) ;;
        data <- fetch (GET_status (session_text sid)) (status_response env) ;;
        if jsstring_eqb (StatusData.status data) (js "success") then
          match StatusData.completion_info data with
          | Some r => completed_with r
          | None =>
              data' <- fetch (POST_complete (session_text sid))
                             (complete_response env) ;;
              if jsstring_eqb (CompleteData.status data') (js "success")
              then completed_with (CompleteData.result data')
              else throw (Error (CompleteData.message data'))
          end ;;
          show_container false
        else
          throw (match StatusData.message data with
                 | None | Some [] => js "Error completing conversion"
                 | Some m => m
                 end))
       (fun e =>
          showToast (js "Error completing conversion: " ++ e) error))
    hideSpinner.

Definition getNextDecision (env : Env) : Js unit :=
  sid <- gets (fun w => sessionId (this w)) ;;
  if no_session sid then ret tt
  else
    try_catch
      (data <- fetch (GET_decisions (session_text sid))
                     (decisions_response env) ;;
       if jsstring_eqb (DecisionsData.status data) (js "success")
       then match DecisionsData.pending data with
            | decision :: _ => renderDecision decision
            | [] => completeConversion env
            end
       else completeConversion env)
      (fun e =>
         showToast (js "Error getting next decision: " ++ e) error).

Definition startInteractiveConversion (env : Env) : Js unit :=
  file <- gets currentFile ;;
  if negb file then showToast (js "Please select a file first") error
  else
    showSpinner ;;
    show_panel true ;;
    try_finally
      (try_catch
         (source <- gets source_format ;;
          target <- gets target_format ;;
          data <- fetch (POST_start source target) (start_response env) ;;
          if jsstring_eqb (StartData.status data) (js "success") then
            modify (on_this (fun c =>
              mkConverter (Some (StartData.session_id data))
                          (pendingDecisions c) (conversionHistory c))) ;;
            set_session_id_text (StartData.session_id data) ;;
            set_pending_count
              (Number_toString
                 (Number_of_Z (StartData.pending_decisions data))) ;;
            (if (0 <? StartData.pending_decisions data)%Z
             then getNextDecision env
             else completeConversion env) ;;
            showToast (js "Interactive session started") success
          else throw (Error (StartData.message data)))
         (fun e => showToast e error ;; show_panel false))
      hideSpinner.

(** [JSON.parse] as the program sees it: it throws on a syntax error. *)
Definition JSON_parse_js (s : jsstring) : Js JSON :=
  match JSON_parse s with
  | Some v => ret v
  | None => throw (js "Unexpected token in JSON")
  end.

(** [document.getElementById('store-preference').checked]. *)
Definition store_preference_checked : Js bool :=
  el <- gets (fun w => decision_el (decision_view w)) ;;
  match el with
  | Some e => ret (store_preference e)
  | None => throw (js "Cannot read properties of null (reading 'checked')")
  end.

(** The body of the resolve request. *)
Definition resolve_body (sid : option jsstring) (decisionId : jsstring)
    (parsedChoice : JSON) (savePreference : bool) : jsstring :=
  JSON_stringify
    (JObj [(js "session_id", match sid with
                             | Some s => JStr s
                             | None => JNull
                             end);
           (js "decision_id", JStr decisionId);
           (js "choice", parsedChoice);
           (js "save_preference", JBool savePreference)]).

(** The first statement of [resolveDecision]: the choice read from the
    button, parsed when it looks like JSON text. *)
Definition parse_choice (choice : jsstring) : Js JSON :=
  try_catch
    (if startsWith choice 123 || startsWith choice 91
     then JSON_parse_js choice
     else ret (JStr choice))
    (fun _ => ret (JStr choice)).

Definition resolveDecision (env : Env) (decisionId choice : jsstring)
  : Js unit :=
  try_finally
    (try_catch
       (showSpinner ;;
        parsedChoice <- parse_choice choice ;;
        savePreference <- store_preference_checked ;;
        sid <- gets (fun w => sessionId (this w)) ;;
        data <- fetch (POST_resolve
                         (resolve_body sid decisionId parsedChoice
                                       savePreference))
                      (resolve_response env) ;;
        if jsstring_eqb (ResolveData.status data) (js "success") then
          modify (on_this (fun c =>
            mkConverter (sessionId c) (pendingDecisions c)
              (conversionHistory c
                 ++ [mkHistoryEntry decisionId parsedChoice]))) ;;
          set_pending_count
            (Number_toString
               (Number_of_Z (ResolveData.pending_decisions data))) ;;
          if jsstring_eqb (ResolveData.session_status data) (js "completed")
          then
            updateResult (ResolveData.result data) ;;
            show_container false ;;
            showToast (js "Conversion completed successfully") success ;;
            enable_evaluate ;;
            set_currentResult (ResolveData.result data) ;;
            updateCompletionInfo
          else getNextDecision env
        else throw (Error (ResolveData.message data)))
       (fun e => showToast (js "Error resolving decision: " ++ e) error))
    hideSpinner.

Definition cancelSession (env : Env) : Js unit :=
  sid <- gets (fun w => sessionId (this w)) ;;
  if no_session sid then ret tt
  else if confirm_answer env then
    try_catch
      (fetch (POST_cancel (session_text sid)
                (JSON_stringify
                   (JObj [(js "reason", JStr (js "User cancelled"))])))
             (cancel_response env) ;;
       modify (on_this (fun _ => mkConverter None [] [])) ;;
       show_panel false ;;
       show_container false ;;
       showToast (js "Interactive session cancelled") info)
      (fun e => showToast (js "Error cancelling session: " ++ e) error)
  else ret tt.

(** The [change] listener of [#store-preference]: the box takes the new
    state and every option button gains or loses its suffix. *)
Definition toggle_preference (checked : bool) : Js unit :=
  modify (on_decision (fun d =>
    mkDecisionView (container_shown d) (dataset_decisionId d)
      (match decision_el d with
       | Some el =>
           Some (mkDecisionEl checked
                   (map (fun b =>
                      mkOptionButton (data_value b)
                        (if checked
                         then textContent b ++ js " (Save preference)"
                         else remove_first (js " (Save preference)")
                                           (textContent b))
                        (default_class b))
                      (option_buttons el)))
       | None => None
       end))).

(** The [click] listener on a [.decision-option] button, the [n]-th of the
    panel: the decision id is read from the panel, the choice from the
    button.  The click also submits the form that encloses the panel:
    [Converter.handleConversion] runs, which is no part of this class.  It
    sends a request of its own, none of [Request], and writes to the result
    display; the session id and the history it leaves alone. *)
Definition click_option (env : Env) (n : nat) : Js unit :=
  d <- gets decision_view ;;
  match dataset_decisionId d, decision_el d with
  | Some decisionId, Some el =>
      match nth_error (option_buttons el) n with
      | Some b => resolveDecision env decisionId (data_value b)
      | None => ret tt
      end
  | _, _ => ret tt
  end.

(** ** Runs *)

(** What can happen to the converter: the user's gestures and the calls of
    its methods. *)
Inductive Action : Type :=
| Start
| NextDecision
| Resolve (decisionId choice : jsstring)
| ClickOption (n : nat)
| TogglePreference (checked : bool)
| Complete
| Cancel.

Definition handler (env : Env) (a : Action) : Js unit :=
  match a with
  | Start => startInteractiveConversion env
  | NextDecision => getNextDecision env
  | Resolve decisionId choice => resolveDecision env decisionId choice
  | ClickOption n => click_option env n
  | TogglePreference checked => toggle_preference checked
  | Complete => completeConversion env
  | Cancel => cancelSession env
  end.

Definition step (w : World) (ea : Env * Action) : World :=
  snd (handler (fst ea) (snd ea) w).

Definition run (w : World) (trace : list (Env * Action)) : World :=
  fold_left step trace w.

(** ** Reading a run *)

(** The value [parse_choice] hands on. *)
Definition parsed_choice (choice : jsstring) : JSON :=
  if startsWith choice 123 || startsWith choice 91 then
    match JSON_parse choice with
    | Some v => v
    | None => JStr choice
    end
  else JStr choice.

(** The resolution an action submits, if it submits one: the decision id
    and the raw choice. *)
Definition resolution_of (w : World) (a : Action)
  : option (jsstring * jsstring) :=
  match a with
  | Resolve decisionId choice => Some (decisionId, choice)
  | ClickOption n =>
      match dataset_decisionId (decision_view w),
            decision_el (decision_view w) with
      | Some decisionId, Some el =>
          match nth_error (option_buttons el) n with
          | Some b => Some (decisionId, data_value b)
          | None => None
          end
      | _, _ => None
      end
  | _ => None
  end.

(** The answer to a resolve request that reported success, if the request
    went out (the preference box must be on the page) and was so answered. *)
Definition resolve_reply (env : Env) (w : World) : option ResolveData.t :=
  match decision_el (decision_view w), resolve_response env with
  | Some _, Fetched data =>
      if jsstring_eqb (ResolveData.status data) (js "success")
      then Some data else None
  | _, _ => None
  end.

(** The history entry a step records: one for a resolve whose response
    reported success. *)
Definition recorded (w : World) (ea : Env * Action) : option HistoryEntry :=
  match resolution_of w (snd ea), resolve_reply (fst ea) w with
  | Some (decisionId, choice), Some _ =>
      Some (mkHistoryEntry decisionId (parsed_choice choice))
  | _, _ => None
  end.

(** A cancel that went through: a session id is held, the user confirmed,
    the request was delivered. *)
Definition cancelled (w : World) (ea : Env * Action) : bool :=
  match snd ea, cancel_response (fst ea) with
  | Cancel, Fetched _ =>
      negb (no_session (sessionId (this w))) && confirm_answer (fst ea)
  | _, _ => false
  end.



(** A response to a resolve request that did not report success. *)
Definition resolve_failed (r : Fetch ResolveData.t) : bool :=
  match r with
  | Fetched data => negb (jsstring_eqb (ResolveData.status data) (js "success"))
  | Failed _ => true
  end.

(** The message of the error a failed resolve raises. *)
Definition failure_message (r : Fetch ResolveData.t) : jsstring :=
  match r with
  | Fetched data => Error (ResolveData.message data)
  | Failed m => m
  end.

(** ** Relations between the world before and after *)

(** Every run of [m] takes a world to an [R]-related world. *)
Definition steps (R : World -> World -> Prop) {A} (m : Js A) : Prop :=
  forall w, R w (snd (m w)).

(** A relation that holds across every change of the page that leaves the
    fields of the converter alone. *)
Class Frame (R : World -> World -> Prop) : Prop := {
  frame_refl : forall w, R w w;
  frame_trans : forall w1 w2 w3, R w1 w2 -> R w2 w3 -> R w1 w3;
  frame_result : forall f w, R w (on_result f w);
  frame_session : forall f w, R w (on_session f w);
  frame_decision : forall f w, R w (on_decision f w);
  frame_toast : forall t w, R w (add_toast t w);
  frame_request : forall r w, R w (add_request r w)
}.

(** The fields of the converter are as before. *)
Definition same_this (w w' : World) : Prop := this w' = this w.

(** The history is as before. *)
Definition same_history (w w' : World) : Prop :=
  conversionHistory (this w') = conversionHistory (this w).

(** The requests sent before are the first of the requests sent after. *)
Definition more_sent (w w' : World) : Prop :=
  exists l, sent w' = sent w ++ l.

(** A computation that returns, whatever the world. *)
Definition never_throws {A} (m : Js A) : Prop :=
  forall w, exists a, fst (m w) = Normal a.

(** The world with the spinner shown or hidden. *)
Definition spinner (shown : bool) (w : World) : World :=
  on_result (fun r =>
    mkResultView (currentResult r) shown (output_text r)
                 (download_copy_disabled r) (evaluate_disabled r)) w.

(** The world once a resolve request was answered with success: the request
    is out, the entry is in the history, the pending count is shown. *)
Definition resolved (w : World) (el : DecisionEl) (d c : jsstring)
    (data : ResolveData.t) : World :=
  on_session (fun v =>
      mkSessionView (panel_shown v) (session_id_text v)
        (Number_toString (Number_of_Z (ResolveData.pending_decisions data)))
        (progress v))
    (on_this (fun t =>
        mkConverter (sessionId t) (pendingDecisions t)
          (conversionHistory t ++ [mkHistoryEntry d (parsed_choice c)]))
      (add_request
         (POST_resolve (resolve_body (sessionId (this w)) d
                          (parsed_choice c) (store_preference el)))
         (spinner true w))).

(** ** Scenarios *)

Module Scenario.
Definition down {A} : Fetch A := Failed (js "Failed to fetch").

(** The page with a file selected, CMME to MEI. *)
Definition page : World := constructor true (js "cmme") (js "mei").

Definition staccato : JSON :=
  JObj [(js "articulation", JStr (js "staccato"));
        (js "voice", JNum (mkNumber 2 0))].

Definition decisionA : Decision.t :=
  Decision.make (js "A") (js "ambiguous_notation")
    (js "How should the ligature be written?") (js "measure 1") None
    [staccato; JStr (js "keep")] None.

Definition decisionB : Decision.t :=
  Decision.make (js "B") (js "structure_choice")
    (js "Which staff holds the tenor?") (js "staff 2") None
    [JStr (js "upper"); JStr (js "lower")] (Some (JStr (js "upper"))).



(** The session [s1] opens with two decisions pending. *)
Definition opens (sid : jsstring) : Env :=
  mkEnv (Fetched (StartData.make (js "success") sid 2 None))
        (Fetched (DecisionsData.make (js "success") [decisionA; decisionB]))
        down down down down false.

(** A resolve is accepted, one decision is left, and the fetch of the
    next decision does not get through. *)
Definition accepts_then_drops : Env :=
  mkEnv down down
        (Fetched (ResolveData.make (js "success") 1 (js "active") None None))
        down down down false.

(** A resolve is accepted and completes the session. *)
Definition completes : Env :=
  mkEnv down down
        (Fetched (ResolveData.make (js "success") 0 (js "completed")
                    (Some (JStr (js "<converted/>"))) None))
        down down down false.

(** A resolve is refused by the server. *)
Definition refuses : Env :=
  mkEnv down down
        (Fetched (ResolveData.make (js "error") 0 [] None
                    (Some (js "Unknown decision"))))
        down down down false.

(** The queue endpoint reports a failure; the status endpoint knows of no
    completion; the finalize endpoint converts. *)
Definition queue_fails : Env :=
  mkEnv down
        (Fetched (DecisionsData.make (js "error") []))
        down
        (Fetched (StatusData.make (js "success") None None))
        (Fetched (CompleteData.make (js "success")
                    (Some (JStr (js "<converted/>"))) None))
        down false.

(** The status endpoint reports the session completed. *)
Definition reports_completed : Env :=
  mkEnv down down down
        (Fetched (StatusData.make (js "success")
                    (Some (Some (JStr (js "<converted/>")))) None))
        down down false.



(** The user confirms the cancel and the request is delivered. *)
Definition confirms : Env :=
  mkEnv down down down down down (Fetched tt) true.

(** Nothing gets through. *)
Definition offline : Env :=
  mkEnv down down down down down down false.

Definition started : World := step page (opens (js "s1"), Start).

(** The session of [started], completed by the resolution of A. *)
Definition done : World := step started (completes, ClickOption 0%nat).

(** The decision element on the page of [started]: the two options of
    decision A, the preference box unchecked. *)
Definition panelA : DecisionEl :=
  mkDecisionEl false
    [mkOptionButton (dataset_value staccato)
                    (js "articulation: staccato, voice: 2") false;
     mkOptionButton (js "keep") (js "keep") false].
End Scenario.

(** * The page around the session *)

(** ** Reading the page *)

(** A choice as [resolveDecision] records it: a string, or an array or an
    object as [JSON.parse] returns them. *)
Definition recordable (v : JSON) : bool :=
  match v with
  | JStr _ => true
  | JArr _ | JObj _ => wf_json v
  | _ => false
  end.

(** A response to the start request that did not report success. *)
Definition start_failed (r : Fetch StartData.t) : bool :=
  match r with
  | Fetched data => negb (jsstring_eqb (StartData.status data) (js "success"))
  | Failed _ => true
  end.

(** The message of the error a failed start raises. *)
Definition start_failure_message (r : Fetch StartData.t) : jsstring :=
  match r with
  | Fetched data => Error (StartData.message data)
  | Failed m => m
  end.

(** [s.includes(pat)]. *)
Fixpoint includes (pat s : jsstring) : bool :=
  has_prefix pat s
  || match s with
     | [] => false
     | _ :: s' => includes pat s'
     end.

(** The converter with one more entry in its history. *)
Definition push_history (e : HistoryEntry) (c : Converter) : Converter :=
  mkConverter (sessionId c) (pendingDecisions c) (conversionHistory c ++ [e]).

(** The converter with a new session id. *)
Definition set_sessionId (sid : jsstring) (c : Converter) : Converter :=
  mkConverter (Some sid) (pendingDecisions c) (conversionHistory c).

(** The session id and the pending decisions are as before. *)
Definition same_session (w w' : World) : Prop :=
  sessionId (this w') = sessionId (this w)
  /\ pendingDecisions (this w') = pendingDecisions (this w).

(** No pending decision is held after if none was held before. *)
Definition none_pending (w w' : World) : Prop :=
  pendingDecisions (this w) = [] -> pendingDecisions (this w') = [].

(** ** More scenarios *)

Module Cases.
(** A decision whose options are numbers. *)
Definition voices : Decision.t :=
  Decision.make (js "C") (js "missing_information")
    (js "How many voices?") (js "score") None
    [JNum (mkNumber 2 0); JNum (mkNumber 3 0)] None.

(** An option whose member [shape] has an own member [toString]. *)
Definition misread : JSON :=
  JObj [(js "shape", JObj [(js "toString", JStr (js "C"))])].

(** A decision with that option among its options. *)
Definition clef : Decision.t :=
  Decision.make (js "N") (js "structure_choice") (js "Which clef?")
    (js "staff 1") None [JStr (js "C4"); misread; JStr (js "F3")] None.

(** The queue lists the decision [clef]. *)
Definition lists_clef : Env :=
  mkEnv Scenario.down
        (Fetched (DecisionsData.make (js "success") [clef]))
        Scenario.down Scenario.down Scenario.down Scenario.down false.
(** The session [s3] opens with nothing pending; its status reports no
    completion; the finalize request converts. *)
Definition opens_done : Env :=
  mkEnv (Fetched (StartData.make (js "success") (js "s3") 0 None))
        Scenario.down Scenario.down
        (Fetched (StatusData.make (js "success") None None))
        (Fetched (CompleteData.make (js "success")
                    (Some (JStr (js "<converted/>"))) None))
        Scenario.down false.
(** A resolve is accepted and completes the session, and the response
    carries no result. *)
Definition completes_empty : Env :=
  mkEnv Scenario.down Scenario.down
        (Fetched (ResolveData.make (js "success") 0 (js "completed") None None))
        Scenario.down Scenario.down Scenario.down false.
End Cases.

(** ** The evaluator ([evaluator.js]) *)

(** [s.replace(/c/g, r)] for a pattern of one unit [c]. *)
Definition replace_unit (c : N) (r s : jsstring) : jsstring :=
  flat_map (fun x => if x =? c then r else [x]) s.

(** [String(v)], where it returns ([converts]). *)
Definition String_ (v : option JSON) : jsstring :=
  match v with
  | Some v => ToString v
  | None => js "undefined"
  end.

(** [Evaluator.escapeHtml]. *)
Definition escapeHtml (str : option JSON) : jsstring :=
  if falsy str then []
  else
    replace_unit 39 (js "&#039;")
      (replace_unit 34 (js "&quot;")
         (replace_unit 62 (js "&gt;")
            (replace_unit 60 (js "&lt;")
               (replace_unit 38 (js "&amp;") (String_ str))))).

(** The entity that stands for a unit of markup, the unit itself
    otherwise. *)
Definition entity (c : N) : jsstring :=
  if c =? 38 then js "&amp;"
  else if c =? 60 then js "&lt;"
  else if c =? 62 then js "&gt;"
  else if c =? 34 then js "&quot;"
  else if c =? 39 then js "&#039;"
  else [c].

(** A unit that opens or closes a tag or an attribute value. *)
Definition is_markup (c : N) : bool :=
  (c =? 60) || (c =? 62) || (c =? 34) || (c =? 39).

(** The pattern [(\d+(\.\d+)?)%] matched at the head of [s]: the digits of
    its first group, before the point and after it.  The digits are taken
    greedily; giving some back never helps, since what follows a shorter
    run is a digit, which is neither the point nor the percent sign. *)
Definition percent_at (s : jsstring) : option (jsstring * jsstring) :=
  match span_digits s with
  | ([], _) => None
  | (ip, r) =>
      if startsWith r 37 then Some (ip, [])
      else if startsWith r 46 then
        match span_digits (tl r) with
        | ([], _) => None
        | (fp, r2) => if startsWith r2 37 then Some (ip, fp) else None
        end
      else None
  end.

(** [/(\d+(\.\d+)?)%/.exec(s)]: the leftmost match. *)
Fixpoint percent_exec (s : jsstring) : option (jsstring * jsstring) :=
  match percent_at s with
  | Some g => Some g
  | None =>
      match s with
      | [] => None
      | _ :: s' => percent_exec s'
      end
  end.

(** [Evaluator.parsePercentage], as the class ends up with it: of the two
    methods of that name in the class body the second replaces the first.
    [parseFloat] of the matched digits is their decimal value. *)
Definition parsePercentage (percentStr : option JSON) : Number :=
  match percent_exec (String_ percentStr) with
  | Some (ip, fp) =>
      number_of_decimal false (ip ++ fp) (- Z.of_nat (length fp))
  | None => mkNumber 0 0
  end.

(** [x >= n] for an integer [n]. *)
Definition Number_geb (x : Number) (n : Z) : bool :=
  if (0 <=? expo x)%Z then (n <=? mant x * 10 ^ expo x)%Z
  else (n * 10 ^ (- expo x) <=? mant x)%Z.

(** The quality level [addConversionSummary] derives from the accuracy. *)
Definition qualityLevel (accuracy : Number) : jsstring :=
  if Number_geb accuracy 90 then js "Excellent"
  else if Number_geb accuracy 75 then js "Good"
  else if Number_geb accuracy 60 then js "Fair"
  else js "Needs Improvement".

(** The units of the text of a number. *)
Definition number_unit (c : N) : bool :=
  is_digit c || (c =? 45) || (c =? 46) || (c =? 101) || (c =? 43).

(** ** The conversion form ([converter.js], [ui.js])

    The selects of the source and the target format, the file input and the
    file [Converter] holds, which is the [window.converter.currentFile]
    that [startInteractiveConversion] asks for. *)

(** [s.split(sep)] for a separator of one unit: the pieces between the
    separators, at least one piece. *)
Fixpoint split (sep : N) (s : jsstring) : list jsstring :=
  match s with
  | [] => [[]]
  | c :: r =>
      if c =? sep then [] :: split sep r
      else match split sep r with
           | p :: ps => (c :: p) :: ps
           | [] => [[c]]
           end
  end.

Module Form.
(** A [File] of the file input. *)
Record File := mkFile {
  name : jsstring;
  size : N
}.

(** The form: the value of [#source-format]; the options of
    [#target-format] and its value; [Converter.currentFile]; the file that
    [#file-info] describes, if it is shown; the buttons that act on the
    file; the toasts shown. *)
Record t := make {
  sourceFormat : jsstring;
  targetOptions : list jsstring;
  targetFormat : jsstring;
  currentFile : option File;
  fileInfo : option File;
  validateDisabled : bool;
  metadataDisabled : bool;
  toasts : list Toast
}.

(** What the user does to the form. *)
Inductive Event : Type :=
| SourceChanged (value : jsstring)
| TargetChanged (value : jsstring)
| FileChosen (file : option File).

(** The options of [#source-format]. *)
Definition sourceOptions : list jsstring := [js "cmme"; js "mei"; js "json"].

(** The form as [index.html] has it. *)
Definition initial : t :=
  make (js "cmme") [js "mei"; js "cmme"; js "json"] (js "mei")
       None None true true [].
End Form.

Section ConversionForm.
(** [String.prototype.toLowerCase] and [toUpperCase] are the platform's. *)
Variables toLowerCase toUpperCase : jsstring -> jsstring.

(** [name.split(".").pop().toLowerCase()]. *)
Definition extension (name : jsstring) : jsstring :=
  toLowerCase (last (split 46 name) []).

Definition validExtensions (sourceFormat : jsstring) : list jsstring :=
  if jsstring_eqb sourceFormat (js "json") then [js "json"]
  else if jsstring_eqb sourceFormat (js "mei") then [js "xml"; js "mei"]
  else if jsstring_eqb sourceFormat (js "cmme") then [js "xml"; js "cmme"]
  else [].

(** [validExtensions.includes(extension)]. *)
Definition valid_extension (sourceFormat name : jsstring) : bool :=
  existsb (jsstring_eqb (extension name)) (validExtensions sourceFormat).

(** The text of the toast that rejects a file. *)
Definition invalid_format_message (sourceFormat : jsstring) : jsstring :=
  js "Invalid file format. Expected "
    ++ join (js " or ") (map (fun ext => 46 :: ext)
                             (validExtensions sourceFormat))
    ++ js " file for " ++ toUpperCase sourceFormat ++ js " format".

(** [Converter.handleFileSelection]. *)
Definition handleFileSelection (file : option Form.File) (p : Form.t)
  : Form.t :=
  match file with
  | None => p
  | Some f =>
      if valid_extension (Form.sourceFormat p) (Form.name f) then
        Form.make (Form.sourceFormat p) (Form.targetOptions p)
                  (Form.targetFormat p) (Some f) (Some f) false false
                  (Form.toasts p)
      else
        Form.make (Form.sourceFormat p) (Form.targetOptions p)
                  (Form.targetFormat p) (Form.currentFile p)
                  (Form.fileInfo p) (Form.validateDisabled p)
                  (Form.metadataDisabled p)
                  (Form.toasts p
                     ++ [mkToast (invalid_format_message (Form.sourceFormat p))
                                 error])
  end.

(** [updateFileInfo] of [UI.setupDropZone]. *)
Definition updateFileInfo (file : option Form.File) (p : Form.t) : Form.t :=
  match file with
  | Some f =>
      Form.make (Form.sourceFormat p) (Form.targetOptions p)
                (Form.targetFormat p) (Form.currentFile p) (Some f)
                false false (Form.toasts p)
  | None =>
      Form.make (Form.sourceFormat p) (Form.targetOptions p)
                (Form.targetFormat p) (Form.currentFile p) None
                true true (Form.toasts p)
  end.

(** [Converter.updateTargetFormatOptions]: the select is emptied and filled
    again, and takes the value of its first option. *)
Definition updateTargetFormatOptions (sourceFormat : jsstring) (p : Form.t)
  : Form.t :=
  let formats :=
    filter (fun f => negb (jsstring_eqb f sourceFormat))
           [js "cmme"; js "mei"; js "json"] in
  Form.make (Form.sourceFormat p) formats (hd [] formats)
            (Form.currentFile p) (Form.fileInfo p) (Form.validateDisabled p)
            (Form.metadataDisabled p) (Form.toasts p).

(** The listeners of the form, in the order in which the scripts register
    them: [UI.init] runs when [ui.js] is loaded and again when [App] is
    built, [Converter] is built in between.  The user picks a format among
    the options of the select. *)
Definition dispatch (p : Form.t) (e : Form.Event) : Form.t :=
  match e with
  | Form.SourceChanged value =>
      if existsb (jsstring_eqb value) Form.sourceOptions then
        updateTargetFormatOptions value
          (Form.make value (Form.targetOptions p) (Form.targetFormat p)
                     (Form.currentFile p) (Form.fileInfo p)
                     (Form.validateDisabled p) (Form.metadataDisabled p)
                     (Form.toasts p))
      else p
  | Form.TargetChanged value =>
      if existsb (jsstring_eqb value) (Form.targetOptions p) then
        Form.make (Form.sourceFormat p) (Form.targetOptions p) value
                  (Form.currentFile p) (Form.fileInfo p)
                  (Form.validateDisabled p) (Form.metadataDisabled p)
                  (Form.toasts p)
      else p
  | Form.FileChosen file =>
      updateFileInfo file (handleFileSelection file (updateFileInfo file p))
  end.

Definition events (p : Form.t) (l : list Form.Event) : Form.t :=
  fold_left dispatch l p.

(** A selection that [Converter] does not take: no file is chosen, or the
    extension of the file does not fit the source format. *)
Definition not_taken (file : option Form.File) (p : Form.t) : bool :=
  match file with
  | Some f => negb (valid_extension (Form.sourceFormat p) (Form.name f))
  | None => true
  end.

(** The source format is no option of the target select, and the target
    format is one. *)
Definition formats_differ (p : Form.t) : bool :=
  negb (existsb (jsstring_eqb (Form.sourceFormat p)) (Form.targetOptions p))
  && existsb (jsstring_eqb (Form.targetFormat p)) (Form.targetOptions p).
End ConversionForm.

(** Lower case of an ASCII letter. *)
Definition lower_ascii (c : N) : N :=
  if (65 <=? c) && (c <=? 90) then c + 32 else c.

Definition upper_ascii (c : N) : N :=
  if (97 <=? c) && (c <=? 122) then c - 32 else c.

Definition is_ascii (c : N) : bool := c <? 128.

(** [s.endsWith(suffix)]. *)
Definition endsWith (s suffix : jsstring) : bool :=
  has_prefix (rev suffix) (rev s).

(** ** Pretty printing of XML ([Converter.formatXML]) *)

(** White space as the pattern [\s] has it: the white space and the line
    terminators of ECMAScript. *)
Definition is_space (c : N) : bool :=
  ((9 <=? c) && (c <=? 13)) || (c =? 32) || (c =? 160) || (c =? 5760)
  || ((8192 <=? c) && (c <=? 8202)) || (c =? 8232) || (c =? 8233)
  || (c =? 8239) || (c =? 8287) || (c =? 12288) || (c =? 65279).

(** A word character, the pattern [\w]. *)
Definition is_word (c : N) : bool :=
  is_digit c || ((65 <=? c) && (c <=? 90)) || ((97 <=? c) && (c <=? 122))
  || (c =? 95).

Fixpoint skip_space (s : jsstring) : jsstring :=
  match s with
  | c :: r => if is_space c then skip_space r else s
  | [] => []
  end.

(** The pattern [>\s*<] matched at the head of [s]: what follows the
    match. *)
Definition tag_gap (s : jsstring) : option jsstring :=
  match s with
  | c :: r =>
      if c =? 62 then
        match skip_space r with
        | d :: r' => if d =? 60 then Some r' else None
        | [] => None
        end
      else None
  | [] => None
  end.

(** [s.split(/>\s*</)], with one unit of [fuel] for each unit of [s]. *)
Fixpoint split_tags_fuel (fuel : nat) (s : jsstring) : list jsstring :=
  match s with
  | [] => [[]]
  | c :: r =>
      match fuel with
      | O => [s]
      | S fuel' =>
          match tag_gap s with
          | Some r' => [] :: split_tags_fuel fuel' r'
          | None =>
              match split_tags_fuel fuel' r with
              | p :: ps => (c :: p) :: ps
              | [] => [[c]]
              end
          end
      end
  end.

Definition split_tags (s : jsstring) : list jsstring :=
  split_tags_fuel (length s) s.

(** [s.substring(start, end)]: the bounds are clamped to the length and
    swapped if out of order. *)
Definition substring (start end_ : nat) (s : jsstring) : jsstring :=
  let a := Nat.min start (length s) in
  let b := Nat.min end_ (length s) in
  firstn (Nat.max a b - Nat.min a b) (skipn (Nat.min a b) s).

(** [node.match(/^\/\w/)]: a closing tag. *)
Definition closing_tag (node : jsstring) : bool :=
  match node with
  | c :: w :: _ => (c =? 47) && is_word w
  | _ => false
  end.

(** [node.match(/^<?\w[^>]*[^\/]$/)]: an opening tag.  After the optional
    [<] and the word character come units other than [>] and then, last,
    one unit other than [/]. *)
Definition opening_tag (node : jsstring) : bool :=
  let body := if startsWith node 60 then tl node else node in
  match body with
  | w :: rest =>
      is_word w
      && match rev rest with
         | l :: init =>
             negb (l =? 47) && forallb (fun c => negb (c =? 62)) init
         | [] => false
         end
  | [] => false
  end.

(** The indentation step, four spaces. *)
Definition tab : jsstring := [32; 32; 32; 32].

(** The body of the loop of [formatXML] on one node: the text so far and
    the indentation. *)
Definition format_node (st : jsstring * jsstring) (node : jsstring)
  : jsstring * jsstring :=
  let indent :=
    if closing_tag node then skipn (length tab) (snd st) else snd st in
  (fst st ++ indent ++ [60] ++ node ++ [62; 13; 10],
   if opening_tag node then indent ++ tab else indent).

(** [Converter.formatXML]. *)
Definition formatXML (xml : jsstring) : jsstring :=
  let formatted := fst (fold_left format_node (split_tags xml) ([], [])) in
  substring 1 (length formatted - 3) formatted.

(** The nodes [ns] with a gap between each two: [>], the white space of
    [ws], [<]. *)
Fixpoint weave (ns ws : list jsstring) : jsstring :=
  match ns with
  | [] => []
  | n :: ns' =>
      match ns' with
      | [] => n
      | _ :: _ =>
          n ++ 62 :: hd [] ws ++ 60 :: weave ns' (tl ws)
      end
  end.

(** The indentation of a node, given the indentation before it. *)
Definition indent_of (node indent : jsstring) : jsstring :=
  if closing_tag node then skipn (length tab) indent else indent.

(** The indentation after a node. *)
Definition indent_after (node indent : jsstring) : jsstring :=
  if opening_tag node then indent_of node indent ++ tab
  else indent_of node indent.

(** The white space [formatXML] writes between the nodes: a line break and
    the indentation of the node that follows. *)
Fixpoint gaps_of (ns : list jsstring) (indent : jsstring) : list jsstring :=
  match ns with
  | [] => []
  | n :: ns' =>
      match ns' with
      | [] => []
      | n' :: _ =>
          ([13; 10] ++ indent_of n' (indent_after n indent))
            :: gaps_of ns' (indent_after n indent)
      end
  end.

(** Whether a text, after its leading white space, starts with [<]. *)
Definition opens_after_space (s : jsstring) : bool :=
  startsWith (skip_space s) 60.

(** [Converter.formatXML] on the nodes of a text. *)
Definition layout (ns : list jsstring) : jsstring :=
  let formatted := fst (fold_left format_node ns ([], [])) in
  substring 1 (length formatted - 3) formatted.

(** ** The attribute editor ([DatasetManager.generateUpdatedContent])

    The document that [DOMParser] returns and [XMLSerializer] writes out
    again, and what the method does to it in between. *)

Module Xml.
(** A node of the document: an element with its qualified name, its
    attributes in document order and its children, or a node of another
    kind (text, comment, processing instruction). *)
Inductive Node : Type :=
| Element (name : jsstring) (attributes : list (jsstring * jsstring))
          (children : list Node)
| Other (data : jsstring).

(** [element.getAttribute(name)]. *)
Fixpoint getAttribute (name : jsstring) (attrs : list (jsstring * jsstring))
  : option jsstring :=
  match attrs with
  | [] => None
  | (k, v) :: rest =>
      if jsstring_eqb k name then Some v else getAttribute name rest
  end.

(** The attributes once [name] is set to [value]: the first attribute of
    that name takes the value, or a new attribute comes last. *)
Fixpoint set (name value : jsstring) (attrs : list (jsstring * jsstring))
  : list (jsstring * jsstring) :=
  match attrs with
  | [] => [(name, value)]
  | (k, v) :: rest =>
      if jsstring_eqb k name then (k, value) :: rest
      else (k, v) :: set name value rest
  end.

(** [element.removeAttribute(name)]: the first attribute of that name
    goes. *)
Fixpoint removeAttribute (name : jsstring)
    (attrs : list (jsstring * jsstring)) : list (jsstring * jsstring) :=
  match attrs with
  | [] => []
  | (k, v) :: rest =>
      if jsstring_eqb k name then rest
      else (k, v) :: removeAttribute name rest
  end.

Definition is_element (name : jsstring) (n : Node) : bool :=
  match n with
  | Element k _ _ => jsstring_eqb k name
  | Other _ => false
  end.

(** [getElementsByTagName(name)] on a node, the node itself included: the
    elements of that qualified name, in document order. *)
Fixpoint elements (name : jsstring) (n : Node) : list Node :=
  match n with
  | Element k attrs kids =>
      (if jsstring_eqb k name then [n] else [])
        ++ flat_map (elements name) kids
  | Other _ => []
  end.

(** No element has two attributes of one name, as in every document that
    was parsed. *)
Fixpoint well_formed (n : Node) : Prop :=
  match n with
  | Element _ attrs kids =>
      NoDup (map fst attrs)
      /\ (fix all (l : list Node) : Prop :=
            match l with
            | [] => True
            | x :: r => well_formed x /\ all r
            end) kids
  | Other _ => True
  end.
End Xml.

Section AttributeEditor.
(** Whether the platform takes a text as the name of an attribute;
    [setAttribute] throws an [InvalidCharacterError] on any other. *)
Variable valid_name : jsstring -> bool.

(** [element.setAttribute(name, value)]; [None] stands for the error. *)
Definition setAttribute (name value : jsstring)
    (attrs : list (jsstring * jsstring))
  : option (list (jsstring * jsstring)) :=
  if valid_name name then Some (Xml.set name value attrs) else None.

(** The first loop over the entries of the form: an entry [attr_<name>]
    sets the attribute [<name>], or removes it when its value is empty. *)
Fixpoint basic_attributes (entries : list (jsstring * jsstring))
    (attrs : list (jsstring * jsstring))
  : option (list (jsstring * jsstring)) :=
  match entries with
  | [] => Some attrs
  | (key, value) :: rest =>
      if has_prefix (js "attr_") key then
        match value with
        | _ :: _ =>
            match setAttribute (remove_first (js "attr_") key) value attrs with
            | Some attrs' => basic_attributes rest attrs'
            | None => None
            end
        | [] =>
            basic_attributes rest
              (Xml.removeAttribute (remove_first (js "attr_") key) attrs)
        end
      else basic_attributes rest attrs
  end.

(** The second loop: an [artic] element for every entry [artic_...] with a
    value. *)
Fixpoint new_articulations (entries : list (jsstring * jsstring))
  : option (list Xml.Node) :=
  match entries with
  | [] => Some []
  | (key, value) :: rest =>
      if has_prefix (js "artic_") key
         && match value with [] => false | _ :: _ => true end
      then
        match setAttribute (js "type") value [], new_articulations rest with
        | Some attrs, Some artics =>
            Some (Xml.Element (js "artic") attrs [] :: artics)
        | _, _ => None
        end
      else new_articulations rest
  end.

(** The third loop: an entry [custom_<name>] with a value sets the
    attribute [<name>]. *)
Fixpoint custom_attributes (entries : list (jsstring * jsstring))
    (attrs : list (jsstring * jsstring))
  : option (list (jsstring * jsstring)) :=
  match entries with
  | [] => Some attrs
  | (key, value) :: rest =>
      if has_prefix (js "custom_") key
         && match value with [] => false | _ :: _ => true end
      then
        match setAttribute (remove_first (js "custom_") key) value attrs with
        | Some attrs' => custom_attributes rest attrs'
        | None => None
        end
      else custom_attributes rest attrs
  end.

(** The document after the loop over its [note] elements.  Inside a note
    ([strip]) the [artic] elements go, with all they hold; the note gets
    its attributes from the form and, after its other children, the new
    [artic] elements.  [None] stands for the error of [setAttribute], which
    ends the method. *)
Fixpoint update (entries : list (jsstring * jsstring)) (strip : bool)
    (n : Xml.Node) : option Xml.Node :=
  match n with
  | Xml.Other _ => Some n
  | Xml.Element name attrs kids =>
      let note := jsstring_eqb name (js "note") in
      let kids' :=
        (fix update_list (l : list Xml.Node) : option (list Xml.Node) :=
           match l with
           | [] => Some []
           | x :: r =>
               if (strip || note) && Xml.is_element (js "artic") x
               then update_list r
               else
                 match update entries (strip || note) x, update_list r with
                 | Some x', Some r' => Some (x' :: r')
                 | _, _ => None
                 end
           end) kids in
      if note then
        match basic_attributes entries attrs with
        | None => None
        | Some attrs1 =>
            match new_articulations entries with
            | None => None
            | Some artics =>
                match custom_attributes entries attrs1 with
                | None => None
                | Some attrs3 =>
                    match kids' with
                    | None => None
                    | Some kids'' =>
                        Some (Xml.Element name attrs3 (kids'' ++ artics))
                    end
                end
            end
        end
      else
        match kids' with
        | None => None
        | Some kids'' => Some (Xml.Element name attrs kids'')
        end
  end.

(** [DatasetManager.generateUpdatedContent] on the parsed document: for a
    format other than [mei] the content is returned as it is. *)
Definition generateUpdatedContent (format : jsstring)
    (document : Xml.Node) (formData : list (jsstring * jsstring))
  : option Xml.Node :=
  if jsstring_eqb format (js "mei") then update formData false document
  else Some document.
End AttributeEditor.

(** The [artic] children of an element. *)
Definition articulations (n : Xml.Node) : list Xml.Node :=
  match n with
  | Xml.Element _ _ kids => filter (Xml.is_element (js "artic")) kids
  | Xml.Other _ => []
  end.

Definition attributes_of (n : Xml.Node) : list (jsstring * jsstring) :=
  match n with
  | Xml.Element _ attrs _ => attrs
  | Xml.Other _ => []
  end.

(** Induction on a node, with the property at hand for the children of an
    element. *)
Fixpoint Node_nested_ind (P : Xml.Node -> Prop)
    (HElement : forall name attrs kids,
        Forall P kids -> P (Xml.Element name attrs kids))
    (HOther : forall data, P (Xml.Other data))
    (n : Xml.Node) {struct n} : P n :=
  match n with
  | Xml.Element name attrs kids =>
      HElement name attrs kids
        ((fix all (l : list Xml.Node) : Forall P l :=
            match l with
            | [] => Forall_nil P
            | x :: r =>
                Forall_cons x (Node_nested_ind P HElement HOther x) (all r)
            end) kids)
  | Xml.Other data => HOther data
  end.

(** The children of an element, all well formed. *)
Fixpoint all_well_formed (l : list Xml.Node) : Prop :=
  match l with
  | [] => True
  | x :: r => Xml.well_formed x /\ all_well_formed r
  end.

(** The children of an element after [update]. *)
Fixpoint update_list (update : Xml.Node -> option Xml.Node) (strip : bool)
    (l : list Xml.Node) : option (list Xml.Node) :=
  match l with
  | [] => Some []
  | x :: r =>
      if strip && Xml.is_element (js "artic") x
      then update_list update strip r
      else
        match update x, update_list update strip r with
        | Some x', Some r' => Some (x' :: r')
        | _, _ => None
        end
  end.

(** A note as [generateUpdatedContent] leaves it: its attributes went
    through the first and the third loop, its children hold no [artic]
    but the new ones, which come last. *)
Definition updated_note (valid_name : jsstring -> bool)
    (entries : list (jsstring * jsstring)) (n : Xml.Node) : Prop :=
  exists name attrs0 attrs1 attrs3 kids artics,
    n = Xml.Element name attrs3 (kids ++ artics)
    /\ NoDup (map fst attrs0)
    /\ basic_attributes valid_name entries attrs0 = Some attrs1
    /\ custom_attributes valid_name entries attrs1 = Some attrs3
    /\ new_articulations valid_name entries = Some artics
    /\ filter (Xml.is_element (js "artic")) kids = [].

(** Two lists of attributes agree on a name. *)
Definition agree (name : jsstring) (a b : list (jsstring * jsstring)) : Prop :=
  Xml.getAttribute name a = Xml.getAttribute name b.

(** A measure with two notes, the second with an articulation, and a form
    that names a pitch and a staccato. *)
Module Measure.
Definition any_name (name : jsstring) : bool :=
  match name with [] => false | _ :: _ => true end.

Definition first_note : Xml.Node :=
  Xml.Element (js "note") [(js "pname", js "c"); (js "oct", js "4")] [].

Definition second_note : Xml.Node :=
  Xml.Element (js "note") [(js "dur", js "4")]
    [Xml.Element (js "artic") [(js "type", js "ten")] []].

Definition document : Xml.Node :=
  Xml.Element (js "measure") [(js "n", js "1")]
    [first_note; Xml.Other (js " "); second_note].

Definition form : list (jsstring * jsstring) :=
  [(js "attr_pname", js "d"); (js "attr_oct", []);
   (js "artic_0", js "stacc"); (js "custom_color", js "red")].

Definition staccato : Xml.Node :=
  Xml.Element (js "artic") [(js "type", js "stacc")] [].

Definition first_note' : Xml.Node :=
  Xml.Element (js "note") [(js "pname", js "d"); (js "color", js "red")]
    [staccato].

Definition second_note' : Xml.Node :=
  Xml.Element (js "note")
    [(js "dur", js "4"); (js "pname", js "d"); (js "color", js "red")]
    [staccato].

Definition document' : Xml.Node :=
  Xml.Element (js "measure") [(js "n", js "1")]
    [first_note'; Xml.Other (js " "); second_note'].
End Measure.

(** ** Saving the result ([Converter.downloadResult], [Utils.downloadFile]) *)




Module Results.
End Results.

(** * Properties *)

(** ** [JSON.parse] after [JSON.stringify] *)

(** *** Digits *)

Lemma is_digit_digit_char d : d < 10 -> is_digit (digit_char d) = true.
Proof.
  intros H. unfold is_digit, digit_char.
  apply andb_true_iff. split; apply N.leb_le; lia.
Qed.

Lemma log2_div10 n : 10 <= n -> N.log2 (n / 10) < N.log2 n.
Proof.
  intros H.
  assert (P : 0 < n / 10).
  { apply N.div_str_pos. lia. }
  apply N.log2_lt_pow2; [exact P|].
  assert (L : n < 2 ^ N.succ (N.log2 n)).
  { apply N.log2_spec. lia. }
  rewrite N.pow_succ_r' in L.
  apply N.Div0.div_lt_upper_bound.
  generalize dependent (2 ^ N.log2 n). intros t L. lia.
Qed.

Lemma N_of_digits_snoc ds c :
  N_of_digits (ds ++ [c]) = 10 * N_of_digits ds + (c - 48).
Proof. unfold N_of_digits. now rewrite fold_left_app. Qed.

Lemma digits_fuel_spec fuel :
  forall n, (N.to_nat (N.log2 n) < fuel)%nat ->
    let ds := digits_fuel fuel n in
    N_of_digits ds = n
    /\ forallb is_digit ds = true
    /\ last ds 0 = digit_char (n mod 10)
    /\ (exists c r, ds = c :: r /\ (n <> 0 -> c <> 48)).
Proof.
  induction fuel as [|fuel IH]; intros n Hf; [lia|].
  simpl. destruct (n <? 10) eqn:Hn.
  - apply N.ltb_lt in Hn. split; [| split; [| split]].
    + unfold N_of_digits, digit_char. cbn [fold_left]. lia.
    + simpl. now rewrite is_digit_digit_char.
    + simpl. now rewrite N.mod_small.
    + exists (digit_char n), []. split; [reflexivity|].
      unfold digit_char. lia.
  - apply N.ltb_ge in Hn.
    assert (Hq : (N.to_nat (N.log2 (n / 10)) < fuel)%nat).
    { pose proof (log2_div10 n Hn). lia. }
    destruct (IH (n / 10) Hq) as (V & D & _ & c & r & E & NZ).
    split; [| split; [| split]].
    + rewrite N_of_digits_snoc, V. unfold digit_char.
      pose proof (N.div_mod n 10) as M.
      assert (B : n mod 10 < 10) by (apply N.mod_lt; lia).
      clear - M B. generalize dependent (n / 10).
      generalize dependent (n mod 10). intros. lia.
    + rewrite forallb_app, D. simpl. rewrite is_digit_digit_char; auto.
      apply N.mod_lt. lia.
    + now rewrite last_last.
    + exists c, (r ++ [digit_char (n mod 10)]). split.
      * rewrite E. reflexivity.
      * intros _. apply NZ.
        assert (0 < n / 10) by (apply N.div_str_pos; lia). lia.
Qed.

Lemma digits_spec n :
  N_of_digits (digits n) = n
  /\ forallb is_digit (digits n) = true
  /\ last (digits n) 0 = digit_char (n mod 10)
  /\ (exists c r, digits n = c :: r /\ (n <> 0 -> c <> 48)).
Proof. apply digits_fuel_spec. lia. Qed.

Lemma N_of_digits_digits n : N_of_digits (digits n) = n.
Proof. apply digits_spec. Qed.

Lemma digits_are_digits n : forallb is_digit (digits n) = true.
Proof. apply digits_spec. Qed.

Lemma span_digits_app ds rest :
  forallb is_digit ds = true ->
  match rest with
  | c :: _ => is_digit c = false
  | [] => True
  end ->
  span_digits (ds ++ rest) = (ds, rest).
Proof.
  intros D E. induction ds as [|c ds IH]; simpl in *.
  - destruct rest as [|c r]; [reflexivity|]. simpl. now rewrite E.
  - apply andb_true_iff in D. destruct D as [Dc D]. rewrite Dc.
    now rewrite (IH D).
Qed.

Lemma N_of_digits_zeros k ds :
  N_of_digits (zeros k ++ ds) = N_of_digits ds.
Proof. induction k as [|k IH]; [reflexivity | exact IH]. Qed.

Lemma zeros_snoc k : zeros k ++ [48] = 48 :: zeros k.
Proof.
  unfold zeros. induction k as [|k IH]; simpl; [reflexivity | now rewrite IH].
Qed.

Lemma rev_zeros k : rev (zeros k) = zeros k.
Proof.
  induction k as [|k IH]; [reflexivity|].
  change (zeros (S k)) with (48 :: zeros k).
  cbn [rev]. now rewrite IH, zeros_snoc.
Qed.

Lemma drop_zeros_app k c r :
  c <> 48 -> drop_zeros (zeros k ++ c :: r) = c :: r.
Proof.
  intros H. induction k as [|k IH]; simpl.
  - apply N.eqb_neq in H. now rewrite H.
  - exact IH.
Qed.

Lemma strip_trailing_zeros_app ds k :
  ds <> [] -> last ds 0 <> 48 ->
  strip_trailing_zeros (ds ++ zeros k) = ds.
Proof.
  intros N L. unfold strip_trailing_zeros.
  rewrite rev_app_distr, rev_zeros.
  destruct (exists_last N) as (l & c & E). subst ds.
  rewrite last_last in L. rewrite rev_app_distr. simpl.
  rewrite drop_zeros_app by exact L. simpl.
  now rewrite rev_involutive.
Qed.

(** *** Numbers *)

Lemma ends_number_not_digit rest :
  ends_number rest = true ->
  match rest with
  | c :: _ => is_digit c = false
  | [] => True
  end.
Proof.
  destruct rest as [|c r]; simpl; [trivial|].
  intros H. apply negb_true_iff in H.
  now repeat (apply orb_false_iff in H; destruct H as [H ?]).
Qed.

Lemma scan_int_spec ip tail :
  int_part ip = true ->
  match tail with
  | c :: _ => is_digit c = false
  | [] => True
  end ->
  scan_int (ip ++ tail) = Some (ip, tail).
Proof.
  intros I T. unfold int_part in I. apply orb_true_iff in I.
  destruct I as [I|I].
  - destruct ip as [|c [|c' r]]; simpl in I; try discriminate.
    + rewrite andb_true_r in I. simpl. now rewrite I, (proj1 (N.eqb_eq _ _) I).
    + rewrite andb_false_r in I. discriminate.
  - apply andb_true_iff in I. destruct I as [I N0].
    apply andb_true_iff in I. destruct I as [D Z0].
    destruct ip as [|c r]; [discriminate|].
    simpl in Z0. apply negb_true_iff in Z0.
    change ((c :: r) ++ tail) with (c :: r ++ tail).
    unfold scan_int. rewrite Z0.
    pose proof D as D'. simpl in D'. apply andb_true_iff in D'.
    destruct D' as [Dc _]. rewrite Dc.
    change (c :: r ++ tail) with ((c :: r) ++ tail).
    now rewrite span_digits_app.
Qed.

Lemma scan_frac_spec fp tail :
  forallb is_digit fp = true ->
  match tail with
  | c :: _ => is_digit c = false /\ c <> 46
  | [] => True
  end ->
  scan_frac (frac_text fp ++ tail) = Some (fp, tail).
Proof.
  intros D T. destruct fp as [|c r].
  - simpl. destruct tail as [|t tail']; [reflexivity|].
    destruct T as [_ T]. apply N.eqb_neq in T. simpl. now rewrite T.
  - change (frac_text (c :: r) ++ tail) with (46 :: (c :: r) ++ tail).
    unfold scan_frac. rewrite N.eqb_refl.
    rewrite span_digits_app; auto.
    destruct tail as [|t tail']; [trivial | apply T].
Qed.

Lemma scan_exp_spec e rest :
  ends_number rest = true ->
  scan_exp (exp_text e ++ rest) = Some (exp_value e, rest).
Proof.
  intros E. destruct e as [e|]; simpl.
  - pose proof (ends_number_not_digit rest E) as ND.
    destruct (0 <=? e)%Z eqn:S; simpl;
      rewrite span_digits_app by (auto using digits_are_digits);
      destruct (digits_spec (Z.abs_N e)) as (V & _ & _ & c & r & Eq & _);
      rewrite Eq; rewrite <- Eq, V; f_equal; f_equal.
    + apply Z.leb_le in S. rewrite N2Z.inj_abs_N. lia.
    + apply Z.leb_gt in S. rewrite N2Z.inj_abs_N. lia.
  - destruct rest as [|c r]; [reflexivity|].
    simpl in E. apply negb_true_iff in E.
    apply orb_false_iff in E. destruct E as [E E69].
    apply orb_false_iff in E. destruct E as [_ E101].
    simpl. now rewrite E101, E69.
Qed.

Lemma scan_unsigned_spec neg ip fp e rest :
  int_part ip = true ->
  forallb is_digit fp = true ->
  ends_number rest = true ->
  scan_unsigned neg (ip ++ frac_text fp ++ exp_text e ++ rest) =
  Some (number_of_decimal neg (ip ++ fp)
          (exp_value e - Z.of_nat (length fp))%Z, rest).
Proof.
  intros I D E. unfold scan_unsigned.
  assert (T2 : match exp_text e ++ rest with
               | c :: _ => is_digit c = false /\ c <> 46
               | [] => True
               end).
  { destruct e as [e|]; simpl.
    - split; [reflexivity | discriminate].
    - destruct rest as [|c r]; [trivial|]. simpl in E.
      apply negb_true_iff in E.
      apply orb_false_iff in E. destruct E as [E _].
      apply orb_false_iff in E. destruct E as [E _].
      apply orb_false_iff in E. destruct E as [E1 E2].
      split; [exact E1 | now apply N.eqb_neq]. }
  rewrite scan_int_spec; auto.
  - rewrite scan_frac_spec; auto. now rewrite scan_exp_spec.
  - destruct fp as [|c r]; simpl.
    + destruct (exp_text e ++ rest); [trivial | apply T2].
    + reflexivity.
Qed.

Lemma last_app_nonempty (l1 l2 : jsstring) d :
  l2 <> [] -> last (l1 ++ l2) d = last l2 d.
Proof.
  intros H. destruct (exists_last H) as (l & c & E). subst l2.
  now rewrite app_assoc, !last_last.
Qed.

Lemma number_of_decimal_leading neg j ds e :
  ds <> [] -> last ds 0 <> 48 -> N_of_digits ds <> 0 ->
  number_of_decimal neg (zeros j ++ ds) e =
  mkNumber (if neg then (- Z.of_N (N_of_digits ds))%Z
            else Z.of_N (N_of_digits ds)) e.
Proof.
  intros N L V. unfold number_of_decimal.
  assert (S : strip_trailing_zeros (zeros j ++ ds) = zeros j ++ ds).
  { rewrite <- (app_nil_r (zeros j ++ ds)) at 1.
    apply (strip_trailing_zeros_app (zeros j ++ ds) 0).
    - destruct ds; [now elim N | now destruct (zeros j)].
    - now rewrite last_app_nonempty. }
  rewrite S, N_of_digits_zeros.
  destruct (Z.of_N (N_of_digits ds) =? 0)%Z eqn:Q.
  - apply Z.eqb_eq in Q. lia.
  - f_equal. lia.
Qed.

Lemma number_of_decimal_trailing neg ds j :
  ds <> [] -> last ds 0 <> 48 -> N_of_digits ds <> 0 ->
  number_of_decimal neg (ds ++ zeros j) 0 =
  mkNumber (if neg then (- Z.of_N (N_of_digits ds))%Z
            else Z.of_N (N_of_digits ds)) (Z.of_nat j).
Proof.
  intros N L V. unfold number_of_decimal.
  rewrite strip_trailing_zeros_app by assumption.
  destruct (Z.of_N (N_of_digits ds) =? 0)%Z eqn:Q.
  - apply Z.eqb_eq in Q. lia.
  - f_equal. rewrite length_app. unfold zeros. rewrite repeat_length. lia.
Qed.

Lemma abs_N_mod10 m : (m mod 10 <> 0)%Z -> Z.abs_N m mod 10 <> 0.
Proof.
  intros H Q. apply H.
  apply Z.mod_divide; [lia|].
  apply Z.divide_abs_r.
  apply (Z.mod_divide _ 10); [lia|].
  rewrite <- N2Z.inj_abs_N.
  change 10%Z with (Z.of_N 10). rewrite <- N2Z.inj_mod. now rewrite Q.
Qed.

(** The digits of a non-zero mantissa in canonical form. *)
Lemma mantissa_digits m :
  (m mod 10 <> 0)%Z ->
  let ds := digits (Z.abs_N m) in
  int_part ds = true
  /\ forallb is_digit ds = true
  /\ ds <> []
  /\ last ds 0 <> 48
  /\ N_of_digits ds = Z.abs_N m
  /\ Z.abs_N m <> 0.
Proof.
  intros H ds.
  assert (NZ : Z.abs_N m <> 0).
  { intros Q. apply H. destruct m; [reflexivity | discriminate..]. }
  destruct (digits_spec (Z.abs_N m)) as (V & D & L & c & r & E & C).
  fold ds in V, D, L, E.
  repeat split; auto.
  - unfold int_part. rewrite D, E. simpl.
    specialize (C NZ). apply N.eqb_neq in C. rewrite C.
    apply orb_true_r.
  - rewrite E. discriminate.
  - rewrite L. unfold digit_char.
    pose proof (abs_N_mod10 m H). lia.
Qed.

Lemma forallb_firstn_skipn (f : N -> bool) j l :
  forallb f l = true ->
  forallb f (firstn j l) = true /\ forallb f (skipn j l) = true.
Proof.
  intros H. rewrite <- (firstn_skipn j l), forallb_app in H.
  now apply andb_true_iff in H.
Qed.

Lemma forallb_zeros j : forallb is_digit (zeros j) = true.
Proof. induction j as [|j IH]; [reflexivity | exact IH]. Qed.

Lemma int_part_prefix ip l :
  int_part ip = true -> negb (startsWith ip 48) = true ->
  forallb is_digit l = true ->
  int_part (ip ++ l) = true.
Proof.
  intros I Z0 D. unfold int_part in *.
  destruct ip as [|c r]; [discriminate|].
  simpl in Z0. apply negb_true_iff in Z0.
  apply orb_true_iff in I. destruct I as [I|I].
  - simpl in I. rewrite Z0 in I. discriminate.
  - apply orb_true_iff. right.
    apply andb_true_iff in I. destruct I as [I _].
    apply andb_true_iff in I. destruct I as [Dr _].
    rewrite forallb_app, Dr, D. simpl. now rewrite Z0.
Qed.

Lemma signed_abs m :
  (if (m <? 0)%Z then (- Z.of_N (Z.abs_N m))%Z else Z.of_N (Z.abs_N m)) = m.
Proof.
  rewrite N2Z.inj_abs_N. destruct (m <? 0)%Z eqn:S.
  - apply Z.ltb_lt in S. lia.
  - apply Z.ltb_ge in S. lia.
Qed.

(** The text [Number::toString] writes, in the pieces of a JSON literal
    that denotes the number written. *)
Lemma Number_toString_parts x :
  canonicalb x = true -> mant x <> 0%Z ->
  exists ip fp e,
    Number_toString x =
      (if (mant x <? 0)%Z then [45] else [])
        ++ ip ++ frac_text fp ++ exp_text e
    /\ int_part ip = true
    /\ forallb is_digit fp = true
    /\ number_of_decimal (mant x <? 0)%Z (ip ++ fp)
         (exp_value e - Z.of_nat (length fp))%Z = x.
Proof.
  intros C NZ. destruct x as [m e]. simpl in *.
  assert (M : (m mod 10 <> 0)%Z).
  { unfold canonicalb in C. simpl in C. apply orb_true_iff in C.
    destruct C as [C|C].
    - apply andb_true_iff in C. destruct C as [C _].
      apply Z.eqb_eq in C. contradiction.
    - apply negb_true_iff in C. now apply Z.eqb_neq in C. }
  destruct (mantissa_digits m M) as (I & D & NE & L & V & A).
  unfold Number_toString. simpl.
  apply Z.eqb_neq in NZ. rewrite NZ.
  set (ds := digits (Z.abs_N m)) in *.
  set (k := Z.of_nat (length ds)).
  assert (K : (1 <= k)%Z).
  { unfold k. destruct ds; [now elim NE | simpl; lia]. }
  assert (H48 : negb (startsWith ds 48) = true).
  { unfold int_part in I. apply orb_true_iff in I. destruct I as [I|I].
    - destruct ds as [|c [|c' r]]; simpl in I; try discriminate.
      + rewrite andb_true_r in I. apply N.eqb_eq in I. subst c.
        simpl in L. now elim L.
      + rewrite andb_false_r in I. discriminate.
    - apply andb_true_iff in I. destruct I as [I _].
      now apply andb_true_iff in I. }
  assert (W : forall j e', number_of_decimal (m <? 0)%Z (zeros j ++ ds) e'
                             = mkNumber m e').
  { intros j e'. rewrite number_of_decimal_leading by (auto; now rewrite V).
    now rewrite V, signed_abs. }
  assert (W0 : forall e', number_of_decimal (m <? 0)%Z ds e' = mkNumber m e')
    by (intros e'; apply (W 0%nat)).
  destruct ((k <=? k + e)%Z && (k + e <=? 21)%Z) eqn:CA.
  { (* digits, then zeros *)
    apply andb_true_iff in CA. destruct CA as [CA _]. apply Z.leb_le in CA.
    exists (ds ++ zeros (Z.to_nat (k + e - k))), [], None.
    simpl. rewrite !app_nil_r. repeat split.
    - apply int_part_prefix; auto using forallb_zeros.
    - rewrite number_of_decimal_trailing by (auto; now rewrite V).
      rewrite V, signed_abs. f_equal. lia. }
  destruct ((0 <? k + e)%Z && (k + e <=? 21)%Z) eqn:CB.
  { (* digits around the point *)
    apply andb_true_iff in CB. destruct CB as [CB CB']. apply Z.ltb_lt in CB.
    rewrite CB' in CA. rewrite andb_true_r in CA. apply Z.leb_gt in CA.
    set (j := Z.to_nat (k + e)).
    assert (J : (0 < j < length ds)%nat) by (unfold j, k in *; lia).
    exists (firstn j ds), (skipn j ds), None.
    destruct (forallb_firstn_skipn is_digit j ds D) as [D1 D2].
    assert (S : exists c r, skipn j ds = c :: r).
    { destruct (skipn j ds) eqn:Q; [| eauto].
      apply (f_equal (@length N)) in Q. rewrite length_skipn in Q.
      simpl in Q. lia. }
    destruct S as (c & r & S).
    repeat split; auto.
    - rewrite S. simpl. rewrite app_nil_r. now rewrite <- S.
    - unfold int_part. rewrite D1.
      destruct ds as [|d ds']; [now elim NE|].
      destruct j as [|j']; [lia|]. simpl in *. rewrite H48.
      apply orb_true_r.
    - rewrite firstn_skipn, W0. f_equal. simpl exp_value.
      rewrite length_skipn. unfold j, k in *. lia. }
  destruct ((-6 <? k + e)%Z && (k + e <=? 0)%Z) eqn:CC.
  { (* zero, point, zeros, digits *)
    apply andb_true_iff in CC. destruct CC as [_ CC]. apply Z.leb_le in CC.
    set (j := Z.to_nat (- (k + e))).
    exists [48], (zeros j ++ ds), None.
    repeat split.
    - destruct (zeros j ++ ds) eqn:Q.
      + apply app_eq_nil in Q. destruct Q as [_ Q]. now elim NE.
      + simpl. now rewrite app_nil_r.
    - rewrite forallb_app, forallb_zeros. exact D.
    - change ([48] ++ zeros j ++ ds) with (zeros (S j) ++ ds).
      rewrite W. f_equal. simpl exp_value.
      rewrite length_app. unfold zeros at 1. rewrite repeat_length.
      unfold j, k in *. lia. }
  destruct (k =? 1)%Z eqn:CD.
  { (* one digit and the exponent *)
    apply Z.eqb_eq in CD.
    exists ds, [], (Some (k + e - 1)%Z).
    repeat split; auto.
    rewrite app_nil_r, W0. f_equal. cbn [exp_value length]. lia. }
  { (* one digit, the point, the others and the exponent *)
    apply Z.eqb_neq in CD.
    exists (firstn 1 ds), (skipn 1 ds), (Some (k + e - 1)%Z).
    destruct (forallb_firstn_skipn is_digit 1 ds D) as [D1 D2].
    destruct ds as [|d [|d' ds']]; [now elim NE | simpl in k; lia |].
    repeat split; auto.
    - unfold int_part. simpl in *. rewrite D1, H48. apply orb_true_r.
    - change (firstn 1 (d :: d' :: ds') ++ skipn 1 (d :: d' :: ds'))
        with (d :: d' :: ds').
      rewrite W0. f_equal. unfold k. cbn [exp_value skipn length]. lia. }
Qed.

Lemma int_part_head ip :
  int_part ip = true -> exists c r, ip = c :: r /\ is_digit c = true.
Proof.
  unfold int_part. intros I. apply orb_true_iff in I. destruct I as [I|I].
  - destruct ip as [|c [|c' r]]; simpl in I; try discriminate.
    + rewrite andb_true_r in I. apply N.eqb_eq in I. subst c.
      now exists 48, [].
    + rewrite andb_false_r in I. discriminate.
  - apply andb_true_iff in I. destruct I as [I NE].
    apply andb_true_iff in I. destruct I as [D _].
    destruct ip as [|c r]; [discriminate|].
    exists c, r. split; [reflexivity|].
    simpl in D. now apply andb_true_iff in D.
Qed.

Lemma digit_not_minus c : is_digit c = true -> (c =? 45) = false.
Proof.
  unfold is_digit. intros H. apply andb_true_iff in H. destruct H as [H _].
  apply N.leb_le in H. apply N.eqb_neq. lia.
Qed.

(** A number written by [Number::toString] scans back to itself. *)
Lemma scan_number_toString x rest :
  canonicalb x = true -> ends_number rest = true ->
  scan_number (Number_toString x ++ rest) = Some (x, rest).
Proof.
  intros C E. destruct (Z.eq_dec (mant x) 0) as [Z0|NZ].
  - assert (X : x = mkNumber 0 0).
    { destruct x as [m e]. simpl in Z0. subst m.
      unfold canonicalb in C. simpl in C. rewrite orb_false_r in C.
      apply Z.eqb_eq in C. now subst e. }
    subst x. change (Number_toString (mkNumber 0 0) ++ rest)
      with (48 :: rest).
    unfold scan_number. change (48 =? 45) with false. cbv iota.
    change (48 :: rest)
      with ([48] ++ frac_text [] ++ exp_text None ++ rest).
    now rewrite scan_unsigned_spec.
  - destruct (Number_toString_parts x C NZ) as (ip & fp & e & T & I & D & V).
    rewrite T. destruct (int_part_head ip I) as (c & r & Q & Dc).
    destruct (mant x <? 0)%Z.
    + change (([45] ++ ip ++ frac_text fp ++ exp_text e) ++ rest)
        with (45 :: (ip ++ frac_text fp ++ exp_text e) ++ rest).
      unfold scan_number. rewrite N.eqb_refl.
      rewrite <- !app_assoc. rewrite scan_unsigned_spec by assumption.
      now rewrite V.
    + change (([] ++ ip ++ frac_text fp ++ exp_text e) ++ rest)
        with ((ip ++ frac_text fp ++ exp_text e) ++ rest).
      rewrite <- !app_assoc.
      assert (U : scan_number (ip ++ frac_text fp ++ exp_text e ++ rest) =
                  scan_unsigned false
                    (ip ++ frac_text fp ++ exp_text e ++ rest)).
      { rewrite Q. simpl. now rewrite (digit_not_minus c Dc). }
      rewrite U, scan_unsigned_spec by assumption. now rewrite V.
Qed.

(** *** Strings *)

Lemma hex_value_hex_char d : d < 16 -> hex_value (hex_char d) = Some d.
Proof.
  intros H. unfold hex_char, hex_value, is_digit.
  destruct (d <? 10) eqn:L.
  - apply N.ltb_lt in L.
    replace ((48 <=? 48 + d) && (48 + d <=? 57)) with true
      by (symmetry; apply andb_true_iff; split; apply N.leb_le; lia).
    f_equal. lia.
  - apply N.ltb_ge in L.
    replace ((48 <=? 87 + d) && (87 + d <=? 57)) with false
      by (symmetry; apply andb_false_iff; right; apply N.leb_gt; lia).
    replace ((97 <=? 87 + d) && (87 + d <=? 102)) with true
      by (symmetry; apply andb_true_iff; split; apply N.leb_le; lia).
    f_equal. lia.
Qed.

Lemma scan_unicode_escape c tail :
  c < 65536 ->
  scan_string (unicode_escape c ++ tail) = scanned c (scan_string tail).
Proof.
  intros H. unfold unicode_escape.
  cbn [app scan_string]. change (92 =? 34) with false.
  change (92 =? 92) with true. change (117 =? 117) with true. cbv iota.
  assert (B : forall x, x mod 16 < 16) by (intros; apply N.mod_lt; lia).
  rewrite !hex_value_hex_char by apply B.
  replace (((c / 4096 mod 16 * 16 + c / 256 mod 16) * 16 + c / 16 mod 16) * 16
           + c mod 16) with c; [reflexivity|].
  assert (Q1 : c / 16 / 16 = c / 256)
    by (rewrite N.Div0.div_div; reflexivity).
  assert (Q2 : c / 256 / 16 = c / 4096)
    by (rewrite N.Div0.div_div; reflexivity).
  assert (S : c / 4096 < 16)
    by (apply N.Div0.div_lt_upper_bound; lia).
  rewrite (N.mod_small _ _ S).
  pose proof (N.div_mod c 16) as M0.
  pose proof (N.div_mod (c / 16) 16) as M1.
  pose proof (N.div_mod (c / 256) 16) as M2.
  rewrite Q1 in M1. rewrite Q2 in M2.
  clear - M0 M1 M2.
  generalize dependent (c / 4096). generalize dependent (c / 256 mod 16).
  generalize dependent (c / 256). generalize dependent (c / 16 mod 16).
  generalize dependent (c / 16). generalize dependent (c mod 16).
  intros. lia.
Qed.

Lemma scan_literal c tail :
  c <> 34 -> c <> 92 -> 32 <= c ->
  scan_string (c :: tail) = scanned c (scan_string tail).
Proof.
  intros Q B L. cbn [scan_string].
  apply N.eqb_neq in Q. apply N.eqb_neq in B. rewrite Q, B.
  replace (c <? 32) with false by (symmetry; apply N.ltb_ge; exact L).
  reflexivity.
Qed.

Lemma scan_simple_escape e u tail :
  e <> 117 -> simple_escape e = Some u ->
  scan_string (92 :: e :: tail) = scanned u (scan_string tail).
Proof.
  intros U S. cbn [scan_string]. change (92 =? 34) with false.
  change (92 =? 92) with true. cbv iota.
  apply N.eqb_neq in U. now rewrite U, S.
Qed.

Lemma scan_quote_unit c tail :
  scan_string (quote_unit c ++ tail) = scanned c (scan_string tail).
Proof.
  unfold quote_unit.
  destruct (c =? 8) eqn:E8;
    [apply N.eqb_eq in E8; subst c; now apply scan_simple_escape |].
  destruct (c =? 9) eqn:E9;
    [apply N.eqb_eq in E9; subst c; now apply scan_simple_escape |].
  destruct (c =? 10) eqn:E10;
    [apply N.eqb_eq in E10; subst c; now apply scan_simple_escape |].
  destruct (c =? 12) eqn:E12;
    [apply N.eqb_eq in E12; subst c; now apply scan_simple_escape |].
  destruct (c =? 13) eqn:E13;
    [apply N.eqb_eq in E13; subst c; now apply scan_simple_escape |].
  destruct (c =? 34) eqn:E34;
    [apply N.eqb_eq in E34; subst c; now apply scan_simple_escape |].
  destruct (c =? 92) eqn:E92;
    [apply N.eqb_eq in E92; subst c; now apply scan_simple_escape |].
  destruct (c <? 32) eqn:L.
  - apply N.ltb_lt in L. apply scan_unicode_escape. lia.
  - apply N.ltb_ge in L. apply N.eqb_neq in E34. apply N.eqb_neq in E92.
    now apply scan_literal.
Qed.

Lemma surrogate_literal c tail :
  55296 <= c -> scan_string (c :: tail) = scanned c (scan_string tail).
Proof. intros H. apply scan_literal; lia. Qed.

Lemma scan_quote_units_bounded n :
  forall s rest, (length s <= n)%nat ->
    scan_string (quote_units s ++ 34 :: rest) = Some (s, rest).
Proof.
  induction n as [|n IH]; intros s rest Hn.
  - destruct s; [reflexivity | simpl in Hn; lia].
  - destruct s as [|c r]; [reflexivity|].
    simpl in Hn. cbn [quote_units].
    destruct (is_high_surrogate c) eqn:Hi.
    + unfold is_high_surrogate in Hi. apply andb_true_iff in Hi.
      destruct Hi as [Lo Up]. apply N.leb_le in Lo. apply N.leb_le in Up.
      destruct r as [|d r'].
      * rewrite scan_unicode_escape by lia. reflexivity.
      * destruct (is_low_surrogate d) eqn:Hl.
        -- unfold is_low_surrogate in Hl. apply andb_true_iff in Hl.
           destruct Hl as [Lo' _]. apply N.leb_le in Lo'.
           change ((c :: d :: quote_units r') ++ 34 :: rest)
             with (c :: d :: quote_units r' ++ 34 :: rest).
           rewrite surrogate_literal by lia.
           rewrite surrogate_literal by lia.
           rewrite IH by (simpl in Hn; lia). reflexivity.
        -- rewrite <- app_assoc, scan_unicode_escape by lia.
           rewrite IH by lia. reflexivity.
    + destruct (is_low_surrogate c) eqn:Hl.
      * unfold is_low_surrogate in Hl. apply andb_true_iff in Hl.
        destruct Hl as [_ Up]. apply N.leb_le in Up.
        rewrite <- app_assoc, scan_unicode_escape by lia.
        rewrite IH by lia. reflexivity.
      * rewrite <- app_assoc, scan_quote_unit.
        rewrite IH by lia. reflexivity.
Qed.

(** A string written by [QuoteJSONString] scans back to itself. *)
Lemma scan_string_quote s rest :
  scan_string (tl (QuoteJSONString s) ++ rest) = Some (s, rest).
Proof.
  unfold QuoteJSONString. cbn [tl]. rewrite <- app_assoc.
  apply (scan_quote_units_bounded (length s)). lia.
Qed.

(** *** Objects *)

Lemma obj_set_last k v o :
  listed_last k o = true -> obj_set k v o = o ++ [(k, v)].
Proof.
  induction o as [|[k' v'] o IH]; simpl; [reflexivity|].
  intros H. apply andb_true_iff in H. destruct H as [H T].
  apply andb_true_iff in H. destruct H as [E B].
  apply negb_true_iff in E. apply negb_true_iff in B.
  now rewrite E, B, IH.
Qed.

Lemma obj_normalise_from m :
  forall acc,
    forallb (fun kv => listed_last (fst kv) acc) m = true ->
    keys_ordered (map fst m) = true ->
    fold_left (fun o kv => obj_set (fst kv) (snd kv) o) m acc = acc ++ m.
Proof.
  induction m as [|[k v] m IH]; intros acc A K; simpl.
  - now rewrite app_nil_r.
  - simpl in A, K. apply andb_true_iff in A. destruct A as [Ak A].
    apply andb_true_iff in K. destruct K as [Kk K].
    rewrite (obj_set_last k v acc Ak), IH; auto.
    + now rewrite <- app_assoc.
    + rewrite forallb_forall in A, Kk |- *.
      intros [k' v'] In'. unfold listed_last.
      rewrite forallb_app. simpl. rewrite andb_true_r.
      apply andb_true_iff. split.
      * apply (A (k', v') In').
      * apply (Kk k'). now apply (in_map fst) in In'.
Qed.

(** An object whose keys are in property order is what defining its
    members one after the other builds. *)
Lemma obj_normalise_ordered m :
  keys_ordered (map fst m) = true -> obj_normalise m = m.
Proof.
  intros K. unfold obj_normalise. rewrite obj_normalise_from; auto.
  apply forallb_forall. reflexivity.
Qed.

(** *** Values *)

Lemma Number_toString_head x :
  canonicalb x = true ->
  exists c t, Number_toString x = c :: t /\ ((c =? 45) || is_digit c = true).
Proof.
  intros C. destruct (Z.eq_dec (mant x) 0) as [Z0|NZ].
  - exists 48, []. unfold Number_toString.
    apply Z.eqb_eq in Z0. now rewrite Z0.
  - destruct (Number_toString_parts x C NZ) as (ip & fp & e & T & I & _).
    destruct (int_part_head ip I) as (c & r & Q & Dc).
    rewrite T, Q. destruct (mant x <? 0)%Z.
    + now exists 45, ((c :: r) ++ frac_text fp ++ exp_text e).
    + exists c, (r ++ frac_text fp ++ exp_text e).
      split; [reflexivity|]. rewrite Dc. apply orb_true_r.
Qed.

Lemma JSON_stringify_head v :
  wf_json v = true ->
  exists c t, JSON_stringify v = c :: t /\ starts_value c = true.
Proof.
  destruct v as [|[|]|x|n|s|items|members]; intros W;
    try (eexists; eexists; split; [reflexivity | reflexivity]).
  destruct (Number_toString_head x W) as (c & t & E & H).
  exists c, t. split; [exact E|]. unfold starts_value.
  apply orb_true_iff in H. destruct H as [H|H]; rewrite H;
    repeat (rewrite ?orb_true_r, ?orb_true_l); reflexivity.
Qed.

Lemma starts_value_not_ws c : starts_value c = true -> is_ws c = false.
Proof.
  unfold starts_value, is_ws, is_digit. intros H.
  repeat (apply orb_true_iff in H; destruct H as [H|H]);
    try (apply N.eqb_eq in H; subst c; reflexivity).
  apply andb_true_iff in H. destruct H as [L U].
  apply N.leb_le in L. apply N.leb_le in U.
  repeat (apply orb_false_iff; split); apply N.eqb_neq; lia.
Qed.

Lemma starts_value_not_closing c :
  starts_value c = true -> (c =? 93) = false /\ (c =? 125) = false.
Proof.
  unfold starts_value, is_digit. intros H.
  repeat (apply orb_true_iff in H; destruct H as [H|H]);
    try (apply N.eqb_eq in H; subst c; split; reflexivity).
  apply andb_true_iff in H. destruct H as [L U].
  apply N.leb_le in L. apply N.leb_le in U.
  split; apply N.eqb_neq; lia.
Qed.

Lemma skip_ws_head c t : is_ws c = false -> skip_ws (c :: t) = c :: t.
Proof. intros H. simpl. now rewrite H. Qed.

Lemma ends_value_number rest : ends_value rest = true -> ends_number rest = true.
Proof.
  destruct rest as [|c r]; simpl; [reflexivity|]. intros H.
  repeat (apply orb_true_iff in H; destruct H as [H|H]);
    apply N.eqb_eq in H; subst c; reflexivity.
Qed.

(** On a minus sign or a digit, the parser reads a number. *)
Lemma parse_value_number fuel c t :
  (c =? 45) || is_digit c = true ->
  parse_value (S fuel) (c :: t) =
  match scan_number (c :: t) with
  | Some (x, rest) => Some (JNum x, rest)
  | None => None
  end.
Proof.
  intros H.
  assert (B : 45 <= c <= 57).
  { apply orb_true_iff in H. destruct H as [H|H].
    - apply N.eqb_eq in H. lia.
    - unfold is_digit in H. apply andb_true_iff in H. destruct H as [L U].
      apply N.leb_le in L. apply N.leb_le in U. lia. }
  assert (W : is_ws c = false).
  { unfold is_ws. repeat (apply orb_false_iff; split); apply N.eqb_neq; lia. }
  cbn [parse_value]. rewrite (skip_ws_head c t W).
  replace (c =? 123) with false by (symmetry; apply N.eqb_neq; lia).
  replace (c =? 91) with false by (symmetry; apply N.eqb_neq; lia).
  replace (c =? 34) with false by (symmetry; apply N.eqb_neq; lia).
  assert (P : forall k l, k <> c -> has_prefix (k :: l) (c :: t) = false).
  { intros k l D. simpl. apply N.eqb_neq in D. now rewrite D. }
  unfold js. cbn [list_ascii_of_string map N_of_ascii N_of_digits].
  rewrite !P by (vm_compute; lia). reflexivity.
Qed.

Lemma parse_elements_join items :
  Forall parses_back items -> forallb wf_json items = true ->
  items <> [] ->
  forall fuel rest,
    (fold_right (fun x n => S (jsize x + n)) 0 items <= fuel)%nat ->
    parse_elements fuel (join [44] (map JSON_stringify items) ++ 93 :: rest)
    = Some (items, rest).
Proof.
  induction 1 as [|v items Hv _ IH]; intros W NE fuel rest F;
    [now elim NE|].
  simpl in W. apply andb_true_iff in W. destruct W as [Wv W].
  cbn [fold_right] in F. destruct fuel as [|fuel]; [lia|].
  cbn [parse_elements]. destruct items as [|v' items].
  - cbn [map join]. rewrite (Hv Wv) by (simpl; auto; lia).
    reflexivity.
  - change (join [44] (map JSON_stringify (v :: v' :: items)))
      with (JSON_stringify v ++ [44]
              ++ join [44] (map JSON_stringify (v' :: items))).
    rewrite <- !app_assoc. rewrite (Hv Wv) by (simpl; auto; lia).
    cbn [app skip_ws is_ws N.eqb Pos.eqb orb startsWith tl].
    rewrite IH; auto; [discriminate | cbn [fold_right] in *; lia].
Qed.

Lemma parse_members_join members :
  Forall (fun kv => parses_back (snd kv)) members ->
  forallb (fun kv => wf_json (snd kv)) members = true ->
  members <> [] ->
  forall fuel rest,
    (fold_right (fun kv n => S (jsize (snd kv) + n)) 0 members <= fuel)%nat ->
    parse_members fuel
      (join [44] (map (fun kv => QuoteJSONString (fst kv)
                                   ++ 58 :: JSON_stringify (snd kv))
                      members) ++ 125 :: rest)
    = Some (members, rest).
Proof.
  induction 1 as [|[k v] members Hv _ IH]; intros W NE fuel rest F;
    [now elim NE|].
  simpl in W. apply andb_true_iff in W. destruct W as [Wv W].
  cbn [fold_right snd] in F. destruct fuel as [|fuel]; [lia|].
  cbn [parse_members]. simpl in Hv.
  assert (Q : forall tail,
             (QuoteJSONString k ++ 58 :: JSON_stringify v) ++ tail =
             34 :: tl (QuoteJSONString k)
               ++ 58 :: JSON_stringify v ++ tail).
  { intros tail. unfold QuoteJSONString. cbn [tl app].
    now rewrite <- !app_assoc. }
  destruct members as [|kv' members].
  - cbn [map join fst snd]. rewrite Q.
    cbn [skip_ws is_ws N.eqb Pos.eqb orb startsWith tl].
    rewrite scan_string_quote.
    cbn [skip_ws is_ws N.eqb Pos.eqb orb startsWith tl].
    rewrite (Hv Wv) by (simpl; auto; lia).
    reflexivity.
  - change (join [44] (map (fun kv => QuoteJSONString (fst kv)
                                        ++ 58 :: JSON_stringify (snd kv))
                           ((k, v) :: kv' :: members)))
      with ((QuoteJSONString k ++ 58 :: JSON_stringify v) ++ [44]
              ++ join [44] (map (fun kv => QuoteJSONString (fst kv)
                                             ++ 58 :: JSON_stringify (snd kv))
                                (kv' :: members))).
    rewrite <- (app_assoc _ _ (125 :: rest)). rewrite Q.
    cbn [skip_ws is_ws N.eqb Pos.eqb orb startsWith tl].
    rewrite scan_string_quote.
    cbn [skip_ws is_ws N.eqb Pos.eqb orb startsWith tl].
    rewrite <- !app_assoc. rewrite (Hv Wv) by (simpl; auto; lia).
    cbn [app skip_ws is_ws N.eqb Pos.eqb orb startsWith tl].
    rewrite IH; auto; [discriminate | cbn [fold_right] in *; lia].
Qed.

Theorem parse_value_stringify v : parses_back v.
Proof.
  induction v as [|b|x|n|s|items IH|members IH] using JSON_nested_ind;
    intros W fuel rest F E; (destruct fuel as [|fuel]; [simpl in F; lia|]).
  - reflexivity.
  - destruct b; reflexivity.
  - simpl in W. cbn [JSON_stringify].
    destruct (Number_toString_head x W) as (c & t & Q & H).
    rewrite Q. change ((c :: t) ++ rest) with (c :: t ++ rest).
    rewrite parse_value_number by exact H.
    change (c :: t ++ rest) with ((c :: t) ++ rest). rewrite <- Q.
    rewrite scan_number_toString; auto using ends_value_number.
  - discriminate W.
  - cbn [JSON_stringify]. unfold QuoteJSONString.
    change ((34 :: quote_units s ++ [34]) ++ rest)
      with (34 :: tl (QuoteJSONString s) ++ rest).
    cbn [parse_value skip_ws is_ws N.eqb Pos.eqb orb].
    now rewrite scan_string_quote.
  - simpl in W. cbn [JSON_stringify jsize] in *.
    change ((91 :: join [44] (map JSON_stringify items) ++ [93]) ++ rest)
      with (91 :: (join [44] (map JSON_stringify items) ++ [93]) ++ rest).
    rewrite <- app_assoc.
    cbn [parse_value skip_ws is_ws N.eqb Pos.eqb orb].
    destruct items as [|v items].
    + reflexivity.
    + destruct (JSON_stringify_head v) as (c & t & Q & H).
      { simpl in W. now apply andb_true_iff in W. }
      assert (Sk : skip_ws (join [44] (map JSON_stringify (v :: items))
                              ++ [93] ++ rest)
                   = c :: tl (join [44] (map JSON_stringify (v :: items))
                                ++ [93] ++ rest)).
      { destruct items; cbn [map join]; rewrite Q;
          apply skip_ws_head, starts_value_not_ws, H. }
      rewrite Sk. cbn [startsWith].
      rewrite (proj1 (starts_value_not_closing c H)).
      change ([93] ++ rest) with (93 :: rest).
      rewrite parse_elements_join; auto; [discriminate | lia].
  - simpl in W. apply andb_true_iff in W. destruct W as [K W].
    cbn [JSON_stringify jsize] in *.
    match goal with
    | |- parse_value _ ((123 :: ?body ++ [125]) ++ rest) = _ =>
        change ((123 :: body ++ [125]) ++ rest)
          with (123 :: (body ++ [125]) ++ rest);
        rewrite <- (app_assoc body)
    end.
    cbn [parse_value skip_ws is_ws N.eqb Pos.eqb orb].
    destruct members as [|[k v] members].
    + reflexivity.
    + match goal with
      | |- context [skip_ws ?text] =>
          assert (Sk : skip_ws text = 34 :: tl text)
            by (destruct members; reflexivity)
      end.
      rewrite Sk. cbn [startsWith N.eqb Pos.eqb].
      change ([125] ++ rest) with (125 :: rest).
      rewrite parse_members_join; auto; [| discriminate | lia].
      now rewrite obj_normalise_ordered.
Qed.

Lemma join_length_bound {A} (size : A -> nat) (text : A -> jsstring) l :
  Forall (fun x => (size x <= length (text x))%nat) l ->
  (fold_right (fun x n => S (size x + n)) 0 l
   <= S (length (join [44%N] (map text l))))%nat.
Proof.
  induction 1 as [|x l Hx _ IH]; [simpl; lia|].
  destruct l as [|y l].
  - simpl. lia.
  - change (join [44] (map text (x :: y :: l)))
      with (text x ++ [44] ++ join [44] (map text (y :: l))).
    rewrite !length_app. cbn [fold_right length] in *. lia.
Qed.

Lemma jsize_le_length v :
  wf_json v = true -> (jsize v <= length (JSON_stringify v))%nat.
Proof.
  induction v as [|b|x|n|s|items IH|members IH] using JSON_nested_ind;
    intros W.
  - simpl. lia.
  - destruct b; simpl; lia.
  - destruct (Number_toString_head x W) as (c & t & Q & _).
    cbn [JSON_stringify jsize]. rewrite Q. simpl. lia.
  - discriminate W.
  - cbn [JSON_stringify jsize]. unfold QuoteJSONString. simpl. lia.
  - cbn [JSON_stringify jsize wf_json] in *.
    cbn [length]. rewrite length_app. cbn [length].
    assert (B : Forall (fun x => (jsize x <= length (JSON_stringify x))%nat)
                       items).
    { rewrite forallb_forall in W. rewrite Forall_forall in IH |- *.
      intros x In'. apply IH; auto. }
    pose proof (join_length_bound jsize JSON_stringify items B). lia.
  - cbn [JSON_stringify jsize wf_json] in *.
    apply andb_true_iff in W. destruct W as [_ W].
    cbn [length]. rewrite length_app. cbn [length].
    assert (B : Forall (fun kv =>
                  (jsize (snd kv)
                   <= length (QuoteJSONString (fst kv)
                                ++ 58%N :: JSON_stringify (snd kv)))%nat)
                members).
    { rewrite forallb_forall in W. rewrite Forall_forall in IH |- *.
      intros kv In'. rewrite length_app. cbn [length].
      specialize (IH kv In' (W kv In')). lia. }
    pose proof (join_length_bound (fun kv => jsize (snd kv))
                  (fun kv => QuoteJSONString (fst kv)
                               ++ 58 :: JSON_stringify (snd kv))
                  members B) as H.
    cbv beta in H. unfold jsstring in *. lia.
Qed.

(** [JSON.parse(JSON.stringify(v))] is [v]. *)
Theorem JSON_parse_stringify v :
  wf_json v = true -> JSON_parse (JSON_stringify v) = Some v.
Proof.
  intros W. unfold JSON_parse.
  pose proof (jsize_le_length v W) as L.
  rewrite <- (app_nil_r (JSON_stringify v)) at 2.
  rewrite (parse_value_stringify v W) by (auto; lia).
  reflexivity.
Qed.



(** *** What the parser returns *)

Lemma jsstring_eqb_eq a b : jsstring_eqb a b = true <-> a = b.
Proof.
  revert b. induction a as [|x a IH]; intros [|y b]; simpl;
    try (split; [discriminate | discriminate]); [tauto|].
  rewrite andb_true_iff, N.eqb_eq, IH. split.
  - intros [-> ->]. reflexivity.
  - intros H. injection H. auto.
Qed.

Lemma jsstring_eqb_sym a b : jsstring_eqb a b = jsstring_eqb b a.
Proof.
  destruct (jsstring_eqb a b) eqn:E.
  - apply jsstring_eqb_eq in E. subst b. symmetry.
    now apply jsstring_eqb_eq.
  - destruct (jsstring_eqb b a) eqn:E'; [| reflexivity].
    apply jsstring_eqb_eq in E'. subst b.
    rewrite (proj2 (jsstring_eqb_eq a a) eq_refl) in E. discriminate.
Qed.

Lemma span_digits_digits s :
  forallb is_digit (fst (span_digits s)) = true.
Proof.
  induction s as [|c s IH]; simpl; [reflexivity|].
  destruct (is_digit c) eqn:D; [| reflexivity].
  destruct (span_digits s) as [ds rest]. simpl in *. now rewrite D.
Qed.

Lemma span_digits_fst s ds rest :
  span_digits s = (ds, rest) -> forallb is_digit ds = true.
Proof. intros H. pose proof (span_digits_digits s) as P. now rewrite H in P. Qed.

Lemma drop_zeros_spec l :
  (drop_zeros l = [] \/ exists c r, drop_zeros l = c :: r /\ c <> 48)
  /\ (forallb is_digit l = true -> forallb is_digit (drop_zeros l) = true).
Proof.
  induction l as [|c l [IH1 IH2]]; simpl.
  - split; [now left | auto].
  - destruct (c =? 48) eqn:E.
    + split; [exact IH1|]. intros H. apply andb_true_iff in H.
      now apply IH2.
    + split; [| auto]. right. exists c, l. split; [reflexivity|].
      now apply N.eqb_neq.
Qed.

Lemma strip_trailing_zeros_spec ds :
  forallb is_digit ds = true ->
  strip_trailing_zeros ds = []
  \/ exists l c, strip_trailing_zeros ds = l ++ [c]
                 /\ is_digit c = true /\ c <> 48.
Proof.
  intros D. unfold strip_trailing_zeros.
  assert (Dr : forallb is_digit (rev ds) = true).
  { rewrite forallb_forall in D |- *. intros x In'. apply D.
    now apply in_rev. }
  destruct (drop_zeros_spec (rev ds)) as [[E|(c & r & E & NZ)] K].
  - left. now rewrite E.
  - right. exists (rev r), c. rewrite E. simpl. split; [reflexivity|].
    split; [| exact NZ]. specialize (K Dr). rewrite E in K. simpl in K.
    now apply andb_true_iff in K.
Qed.

Lemma number_of_decimal_canonical neg ds e :
  forallb is_digit ds = true ->
  canonicalb (number_of_decimal neg ds e) = true.
Proof.
  intros D. unfold number_of_decimal.
  destruct (Z.of_N (N_of_digits (strip_trailing_zeros ds)) =? 0)%Z eqn:Q;
    [reflexivity|].
  destruct (strip_trailing_zeros_spec ds D) as [E|(l & c & E & Dc & NZ)].
  - rewrite E in Q. discriminate.
  - unfold canonicalb. cbn [mant expo]. apply orb_true_iff. right.
    apply negb_true_iff, Z.eqb_neq. rewrite E, N_of_digits_snoc.
    unfold is_digit in Dc. apply andb_true_iff in Dc. destruct Dc as [Lo Up].
    apply N.leb_le in Lo. apply N.leb_le in Up.
    set (a := N_of_digits l).
    assert (G : forall z : Z,
               (z = Z.of_N (10 * a + (c - 48)) -> z mod 10 <> 0)%Z).
    { intros z Hz M. apply Z.mod_divide in M; [| lia].
      destruct M as [q Hq]. lia. }
    destruct neg.
    + intros M. apply (G _ eq_refl).
      apply Z.mod_divide in M; [| lia]. apply Z.mod_divide; [lia|].
      destruct M as [q Hq]. exists (- q)%Z. lia.
    + now apply G.
Qed.

Lemma scan_number_canonical s x rest :
  scan_number s = Some (x, rest) -> canonicalb x = true.
Proof.
  assert (U : forall neg s', scan_unsigned neg s' = Some (x, rest) ->
                             canonicalb x = true).
  { intros neg s'. unfold scan_unsigned.
    destruct (scan_int s') as [[ip s2]|] eqn:I; [| discriminate].
    destruct (scan_frac s2) as [[fp s3]|] eqn:Fr; [| discriminate].
    destruct (scan_exp s3) as [[e s4]|]; [| discriminate].
    intros H. injection H as <- _.
    apply number_of_decimal_canonical. rewrite forallb_app.
    apply andb_true_iff. split.
    - unfold scan_int in I. destruct s' as [|c r]; [discriminate|].
      revert I. destruct (c =? 48);
        [intros I; injection I as <- _; reflexivity|].
      destruct (is_digit c); [| discriminate].
      intros I. injection I as I.
      apply (span_digits_fst (c :: r) ip s2). exact I.
    - unfold scan_frac in Fr. destruct s2 as [|c r].
      + injection Fr as <- _. reflexivity.
      + revert Fr. destruct (c =? 46).
        * pose proof (span_digits_digits r) as P.
          destruct (span_digits r) as [[|d ds] t]; [discriminate|].
          intros Fr. injection Fr as <- _. exact P.
        * intros Fr. injection Fr as <- _. reflexivity. }
  unfold scan_number. destruct s as [|c r]; [discriminate|].
  destruct (c =? 45); apply U.
Qed.

Lemma key_before_asym a b : key_before a b = true -> key_before b a = false.
Proof.
  unfold key_before.
  destruct (array_index a) as [i|], (array_index b) as [j|];
    try discriminate; [| reflexivity].
  intros H. apply N.ltb_lt in H. apply N.ltb_ge. lia.
Qed.

Lemma key_before_distinct a b :
  key_before a b = true -> jsstring_eqb b a = false.
Proof.
  intros H. destruct (jsstring_eqb b a) eqn:E; [| reflexivity].
  apply jsstring_eqb_eq in E. subst b.
  rewrite (key_before_asym a a H) in H. discriminate.
Qed.

(** A key listed after [k'] is listed after every key that goes before
    [k']. *)
Lemma key_before_later k k' x :
  key_before k k' = true ->
  key_before x k' = false -> jsstring_eqb x k' = false ->
  key_before x k = false /\ jsstring_eqb x k = false.
Proof.
  intros B A D.
  assert (K : key_before x k = false).
  { unfold key_before in *.
    destruct (array_index x) as [j|]; [| reflexivity].
    destruct (array_index k) as [i|]; [| discriminate].
    destruct (array_index k') as [j'|]; [| discriminate].
    apply N.ltb_lt in B. apply N.ltb_ge in A. apply N.ltb_ge. lia. }
  split; [exact K|].
  destruct (jsstring_eqb x k) eqn:E; [| reflexivity].
  apply jsstring_eqb_eq in E. subst x. rewrite B in A. discriminate.
Qed.

Lemma obj_set_keys k v o x :
  In x (map fst (obj_set k v o)) -> x = k \/ In x (map fst o).
Proof.
  induction o as [|[k' v'] o IH]; simpl.
  - intros [H|[]]; auto.
  - destruct (jsstring_eqb k k') eqn:E.
    + apply jsstring_eqb_eq in E. subst k'. simpl.
      intros [H|H]; auto.
    + destruct (key_before k k'); simpl.
      * intros [H|[H|H]]; auto.
      * intros [H|H]; [auto|]. destruct (IH H); auto.
Qed.

Lemma obj_set_ordered k v o :
  keys_ordered (map fst o) = true ->
  keys_ordered (map fst (obj_set k v o)) = true.
Proof.
  induction o as [|[k' v'] o IH]; intros K; [reflexivity|].
  cbn [map fst keys_ordered] in K. apply andb_true_iff in K.
  destruct K as [A K]. cbn [obj_set].
  destruct (jsstring_eqb k k') eqn:E.
  - apply jsstring_eqb_eq in E. subst k'.
    cbn [map fst keys_ordered]. now rewrite A, K.
  - destruct (key_before k k') eqn:B.
    + cbn [map fst keys_ordered forallb].
      rewrite (key_before_distinct k k' B), (key_before_asym k k' B), A, K.
      rewrite !andb_true_r. cbn [negb andb].
      rewrite forallb_forall in A |- *. intros x In'.
      specialize (A x In'). apply andb_true_iff in A. destruct A as [D L].
      apply negb_true_iff in D. apply negb_true_iff in L.
      destruct (key_before_later k k' x B L D) as [L' D'].
      now rewrite L', D'.
    + cbn [map fst keys_ordered]. rewrite (IH K), andb_true_r.
      rewrite forallb_forall in A |- *. intros x In'.
      destruct (obj_set_keys k v o x In') as [->|In''].
      * now rewrite E, B.
      * now apply A.
Qed.

Lemma obj_set_forallb (P : jsstring * JSON -> bool) k v o :
  P (k, v) = true -> forallb P o = true ->
  forallb P (obj_set k v o) = true.
Proof.
  intros Pk. induction o as [|[k' v'] o IH]; simpl; intros H.
  - now rewrite Pk.
  - apply andb_true_iff in H. destruct H as [H1 H2].
    destruct (jsstring_eqb k k'); [simpl; now rewrite Pk, H2|].
    destruct (key_before k k'); simpl.
    + now rewrite Pk, H1, H2.
    + now rewrite H1, IH.
Qed.

Lemma obj_normalise_wf m :
  forallb (fun kv => wf_json (snd kv)) m = true ->
  wf_json (JObj (obj_normalise m)) = true.
Proof.
  intros W. unfold obj_normalise.
  assert (G : forall acc,
             wf_json (JObj acc) = true ->
             wf_json (JObj (fold_left
                              (fun o kv => obj_set (fst kv) (snd kv) o)
                              m acc)) = true).
  { induction m as [|[k v] m IH]; intros acc A; [exact A|].
    simpl in W. apply andb_true_iff in W. destruct W as [Wv W].
    cbn [fold_left fst snd]. apply (IH W).
    cbn [wf_json] in *. apply andb_true_iff in A. destruct A as [A1 A2].
    apply andb_true_iff. split.
    - now apply obj_set_ordered.
    - now apply obj_set_forallb. }
  now apply G.
Qed.

(** The three parsers return values a program can hold. *)
Lemma parse_wf fuel :
  (forall s v rest, parse_value fuel s = Some (v, rest) -> wf_json v = true)
  /\ (forall s vs rest,
         parse_elements fuel s = Some (vs, rest) ->
         forallb wf_json vs = true)
  /\ (forall s m rest,
         parse_members fuel s = Some (m, rest) ->
         forallb (fun kv => wf_json (snd kv)) m = true).
Proof.
  induction fuel as [|fuel (IHv & IHe & IHm)];
    [repeat split; intros; discriminate|].
  split; [| split].
  - intros s v rest. cbn [parse_value].
    destruct (skip_ws s) as [|c r]; [discriminate|].
    destruct (c =? 123).
    { destruct (startsWith (skip_ws r) 125);
        [intros H; injection H as <- _; reflexivity|].
      destruct (parse_members fuel r) as [[m rest']|] eqn:M; [| discriminate].
      intros H. injection H as <- _.
      apply obj_normalise_wf. eapply IHm, M. }
    destruct (c =? 91).
    { destruct (startsWith (skip_ws r) 93);
        [intros H; injection H as <- _; reflexivity|].
      destruct (parse_elements fuel r) as [[vs rest']|] eqn:M;
        [| discriminate].
      intros H. injection H as <- _. cbn [wf_json]. eapply IHe, M. }
    destruct (c =? 34).
    { destruct (scan_string r) as [[t rest']|]; [| discriminate].
      intros H. injection H as <- _. reflexivity. }
    destruct (has_prefix (js "true") (c :: r));
      [intros H; injection H as <- _; reflexivity|].
    destruct (has_prefix (js "false") (c :: r));
      [intros H; injection H as <- _; reflexivity|].
    destruct (has_prefix (js "null") (c :: r));
      [intros H; injection H as <- _; reflexivity|].
    destruct (scan_number (c :: r)) as [[x rest']|] eqn:Sn; [| discriminate].
    intros H. injection H as <- _. cbn [wf_json].
    eapply scan_number_canonical, Sn.
  - intros s vs rest. cbn [parse_elements].
    destruct (parse_value fuel s) as [[v rest1]|] eqn:V; [| discriminate].
    pose proof (IHv _ _ _ V) as Wv.
    destruct (startsWith (skip_ws rest1) 44).
    + destruct (parse_elements fuel (tl (skip_ws rest1)))
        as [[vs' rest']|] eqn:Es; [| discriminate].
      intros H. injection H as <- _. cbn [forallb].
      now rewrite Wv, (IHe _ _ _ Es).
    + destruct (startsWith (skip_ws rest1) 93); [| discriminate].
      intros H. injection H as <- _. cbn [forallb]. now rewrite Wv.
  - intros s m rest. cbn [parse_members].
    destruct (startsWith (skip_ws s) 34); [| discriminate].
    destruct (scan_string (tl (skip_ws s))) as [[k rest0]|]; [| discriminate].
    destruct (startsWith (skip_ws rest0) 58); [| discriminate].
    destruct (parse_value fuel (tl (skip_ws rest0))) as [[v rest1]|] eqn:V;
      [| discriminate].
    pose proof (IHv _ _ _ V) as Wv.
    destruct (startsWith (skip_ws rest1) 44).
    + destruct (parse_members fuel (tl (skip_ws rest1)))
        as [[m' rest']|] eqn:Ms; [| discriminate].
      intros H. injection H as <- _. cbn [forallb snd].
      now rewrite Wv, (IHm _ _ _ Ms).
    + destruct (startsWith (skip_ws rest1) 125); [| discriminate].
      intros H. injection H as <- _. cbn [forallb snd]. now rewrite Wv.
Qed.

(** Every value [JSON.parse] returns is one a program can hold: the
    round trip above applies to every value that came from a response. *)
Theorem JSON_parse_wf s v : JSON_parse s = Some v -> wf_json v = true.
Proof.
  unfold JSON_parse.
  destruct (parse_value (S (length s)) s) as [[v' rest]|] eqn:P;
    [| discriminate].
  destruct (skip_ws rest); [| discriminate].
  intros H. injection H as <-.
  eapply (proj1 (parse_wf _)), P.
Qed.

(** *** Fuel *)

Lemma skip_ws_length s : (length (skip_ws s) <= length s)%nat.
Proof.
  induction s as [|c s IH]; simpl; [lia|].
  destruct (is_ws c); simpl; lia.
Qed.

Lemma tl_skip_ws_length s c :
  startsWith (skip_ws s) c = true ->
  (S (length (tl (skip_ws s))) <= length s)%nat.
Proof.
  intros H. pose proof (skip_ws_length s) as L.
  destruct (skip_ws s); [discriminate | simpl in *; lia].
Qed.

Lemma span_digits_length s :
  length s = (length (fst (span_digits s)) + length (snd (span_digits s)))%nat.
Proof.
  induction s as [|c s IH]; simpl; [reflexivity|].
  destruct (is_digit c); [| reflexivity].
  destruct (span_digits s) as [ds rest]. simpl in *. lia.
Qed.

Lemma scan_string_bounded n :
  forall s t rest, (length s <= n)%nat ->
    scan_string s = Some (t, rest) -> (length rest < length s)%nat.
Proof.
  induction n as [|n IH]; intros s t rest Hn.
  - destruct s; [discriminate | simpl in Hn; lia].
  - destruct s as [|c r]; [discriminate|]. simpl in Hn. cbn [scan_string].
    destruct (c =? 34); [intros H; injection H as _ <-; simpl; lia|].
    destruct (c =? 92).
    + destruct r as [|e r1]; [discriminate|].
      destruct (e =? 117).
      * destruct r1 as [|h3 [|h2 [|h1 [|h0 r2]]]]; try discriminate.
        destruct (hex_value h3), (hex_value h2), (hex_value h1),
          (hex_value h0); try discriminate.
        destruct (scan_string r2) as [[t' rest']|] eqn:Q; [| discriminate].
        intros H. injection H as _ <-.
        apply IH in Q; simpl in *; lia.
      * destruct (simple_escape e); [| discriminate].
        destruct (scan_string r1) as [[t' rest']|] eqn:Q; [| discriminate].
        intros H. injection H as _ <-.
        apply IH in Q; simpl in *; lia.
    + destruct (c <? 32); [discriminate|].
      destruct (scan_string r) as [[t' rest']|] eqn:Q; [| discriminate].
      intros H. injection H as _ <-.
      apply IH in Q; simpl in *; lia.
Qed.

Lemma scan_string_length s t rest :
  scan_string s = Some (t, rest) -> (length rest < length s)%nat.
Proof. apply (scan_string_bounded (length s)). lia. Qed.

Lemma scan_number_length s x rest :
  scan_number s = Some (x, rest) -> (length rest < length s)%nat.
Proof.
  assert (U : forall neg s', scan_unsigned neg s' = Some (x, rest) ->
                             (length rest < length s')%nat).
  { intros neg s'. unfold scan_unsigned.
    destruct (scan_int s') as [[ip s2]|] eqn:I; [| discriminate].
    destruct (scan_frac s2) as [[fp s3]|] eqn:Fr; [| discriminate].
    destruct (scan_exp s3) as [[e s4]|] eqn:Ex; [| discriminate].
    intros H. injection H as _ <-.
    assert (L1 : (length s2 < length s')%nat).
    { unfold scan_int in I. destruct s' as [|c r]; [discriminate|].
      revert I. destruct (c =? 48);
        [intros I; injection I as _ <-; simpl; lia|].
      destruct (is_digit c) eqn:D; [| discriminate].
      intros I. injection I as I.
      pose proof (span_digits_length (c :: r)) as L.
      change (span_digits (c :: r) = (ip, s2)) in I. rewrite I in L.
      assert (ip <> []).
      { intros ->. simpl in I. rewrite D in I.
        destruct (span_digits r). discriminate. }
      destruct ip; [congruence | simpl in *; lia]. }
    assert (L2 : (length s3 <= length s2)%nat).
    { unfold scan_frac in Fr. destruct s2 as [|c r].
      - injection Fr as _ <-. simpl. lia.
      - revert Fr. destruct (c =? 46).
        + pose proof (span_digits_length r) as L.
          destruct (span_digits r) as [[|d ds] t]; [discriminate|].
          intros Fr. injection Fr as _ <-. simpl in *. lia.
        + intros Fr. injection Fr as _ <-. lia. }
    assert (L3 : (length s4 <= length s3)%nat).
    { unfold scan_exp in Ex. destruct s3 as [|c r].
      - injection Ex as _ <-. simpl. lia.
      - revert Ex. destruct ((c =? 101) || (c =? 69)).
        + destruct r as [|c' r'].
          * cbn [span_digits]. discriminate.
          * destruct (c' =? 43); [| destruct (c' =? 45)];
              match goal with
              | |- context [span_digits ?r1] =>
                  pose proof (span_digits_length r1) as L;
                  destruct (span_digits r1) as [[|d ds] t];
                  [discriminate|]
              end; intros Ex; injection Ex as _ <-; simpl in *; lia.
        + intros Ex. injection Ex as _ <-. lia. }
    lia. }
  unfold scan_number. destruct s as [|c r]; [discriminate|].
  destruct (c =? 45); intros H; apply U in H; simpl in *; lia.
Qed.

(** A parse that succeeds with some fuel succeeds, to the same result, with
    any fuel that is at least the number of units it reads. *)
Lemma parse_fuel fuel :
  (forall s v rest,
      parse_value fuel s = Some (v, rest) ->
      (length rest < length s)%nat
      /\ forall fuel', (length s - length rest <= fuel')%nat ->
                       parse_value fuel' s = Some (v, rest))
  /\ (forall s vs rest,
         parse_elements fuel s = Some (vs, rest) ->
         (length rest < length s)%nat
         /\ forall fuel', (length s - length rest <= fuel')%nat ->
                          parse_elements fuel' s = Some (vs, rest))
  /\ (forall s m rest,
         parse_members fuel s = Some (m, rest) ->
         (length rest < length s)%nat
         /\ forall fuel', (length s - length rest <= fuel')%nat ->
                          parse_members fuel' s = Some (m, rest)).
Proof.
  induction fuel as [|fuel (IHv & IHe & IHm)];
    [repeat split; intros; discriminate|].
  split; [| split].
  - intros s v rest. cbn [parse_value].
    pose proof (skip_ws_length s) as Ls.
    destruct (skip_ws s) as [|c r] eqn:Sk; [discriminate|].
    cbn [length] in Ls.
    assert (Leaf : forall (o : option (JSON * jsstring)),
               (forall f, parse_value (S f) s = o) ->
               o = Some (v, rest) -> (length rest < length s)%nat ->
               (length rest < length s)%nat
               /\ forall fuel', (length s - length rest <= fuel')%nat ->
                                parse_value fuel' s = Some (v, rest)).
    { intros o Ho Eo Lr. split; [exact Lr|]. intros [|f'] Hf; [lia|].
      now rewrite Ho. }
    destruct (c =? 123) eqn:C1.
    { destruct (startsWith (skip_ws r) 125) eqn:Cl.
      - intros H. apply (Leaf (Some (JObj [], tl (skip_ws r)))); auto.
        + intros f. cbn [parse_value]. now rewrite Sk, C1, Cl.
        + injection H as _ <-.
          pose proof (tl_skip_ws_length r 125 Cl). lia.
      - destruct (parse_members fuel r) as [[m rest']|] eqn:M;
          [| discriminate].
        intros H. injection H as <- <-.
        destruct (IHm _ _ _ M) as [Lr K]. split; [lia|].
        intros [|f'] Hf; [lia|]. cbn [parse_value].
        rewrite Sk, C1, Cl, K by lia. reflexivity. }
    destruct (c =? 91) eqn:C2.
    { destruct (startsWith (skip_ws r) 93) eqn:Cl.
      - intros H. apply (Leaf (Some (JArr [], tl (skip_ws r)))); auto.
        + intros f. cbn [parse_value]. now rewrite Sk, C1, C2, Cl.
        + injection H as _ <-.
          pose proof (tl_skip_ws_length r 93 Cl). lia.
      - destruct (parse_elements fuel r) as [[vs rest']|] eqn:M;
          [| discriminate].
        intros H. injection H as <- <-.
        destruct (IHe _ _ _ M) as [Lr K]. split; [lia|].
        intros [|f'] Hf; [lia|]. cbn [parse_value].
        rewrite Sk, C1, C2, Cl, K by lia. reflexivity. }
    destruct (c =? 34) eqn:C3.
    { destruct (scan_string r) as [[t rest']|] eqn:Q; [| discriminate].
      intros H. apply (Leaf (Some (JStr t, rest'))); auto.
      - intros f. cbn [parse_value]. now rewrite Sk, C1, C2, C3, Q.
      - injection H as _ <-. apply scan_string_length in Q. lia. }
    destruct (has_prefix (js "true") (c :: r)) eqn:C4.
    { intros H. apply (Leaf (Some (JBool true, skipn 4 (c :: r)))); auto.
      - intros f. cbn [parse_value]. now rewrite Sk, C1, C2, C3, C4.
      - injection H as _ <-. cbn [skipn]. pose proof (length_skipn 3 r).
        simpl in *. lia. }
    destruct (has_prefix (js "false") (c :: r)) eqn:C5.
    { intros H. apply (Leaf (Some (JBool false, skipn 5 (c :: r)))); auto.
      - intros f. cbn [parse_value]. now rewrite Sk, C1, C2, C3, C4, C5.
      - injection H as _ <-. cbn [skipn]. pose proof (length_skipn 4 r).
        simpl in *. lia. }
    destruct (has_prefix (js "null") (c :: r)) eqn:C6.
    { intros H. apply (Leaf (Some (JNull, skipn 4 (c :: r)))); auto.
      - intros f. cbn [parse_value].
        now rewrite Sk, C1, C2, C3, C4, C5, C6.
      - injection H as _ <-. cbn [skipn]. pose proof (length_skipn 3 r).
        simpl in *. lia. }
    destruct (scan_number (c :: r)) as [[x rest']|] eqn:Q; [| discriminate].
    intros H. apply (Leaf (Some (JNum x, rest'))); auto.
    + intros f. cbn [parse_value].
      now rewrite Sk, C1, C2, C3, C4, C5, C6, Q.
    + injection H as _ <-. apply scan_number_length in Q. simpl in Q. lia.
  - intros s vs rest. cbn [parse_elements].
    destruct (parse_value fuel s) as [[v rest1]|] eqn:V; [| discriminate].
    destruct (IHv _ _ _ V) as [L1 K1].
    destruct (startsWith (skip_ws rest1) 44) eqn:C1.
    + destruct (parse_elements fuel (tl (skip_ws rest1)))
        as [[vs' rest']|] eqn:Es; [| discriminate].
      intros H. injection H as <- <-.
      destruct (IHe _ _ _ Es) as [L2 K2].
      pose proof (tl_skip_ws_length rest1 44 C1) as L3.
      split; [lia|]. intros [|f'] Hf; [lia|]. cbn [parse_elements].
      rewrite K1, C1, K2 by lia. reflexivity.
    + destruct (startsWith (skip_ws rest1) 93) eqn:C2; [| discriminate].
      intros H. injection H as <- <-.
      pose proof (tl_skip_ws_length rest1 93 C2) as L3.
      split; [lia|]. intros [|f'] Hf; [lia|]. cbn [parse_elements].
      rewrite K1, C1, C2 by lia. reflexivity.
  - intros s m rest. cbn [parse_members].
    destruct (startsWith (skip_ws s) 34) eqn:C0; [| discriminate].
    pose proof (tl_skip_ws_length s 34 C0) as L0.
    destruct (scan_string (tl (skip_ws s))) as [[k rest0]|] eqn:Q;
      [| discriminate].
    pose proof (scan_string_length _ _ _ Q) as Lq.
    destruct (startsWith (skip_ws rest0) 58) eqn:Cc; [| discriminate].
    pose proof (tl_skip_ws_length rest0 58 Cc) as Lc.
    destruct (parse_value fuel (tl (skip_ws rest0))) as [[v rest1]|] eqn:V;
      [| discriminate].
    destruct (IHv _ _ _ V) as [L1 K1].
    destruct (startsWith (skip_ws rest1) 44) eqn:C1.
    + destruct (parse_members fuel (tl (skip_ws rest1)))
        as [[m' rest']|] eqn:Ms; [| discriminate].
      intros H. injection H as <- <-.
      destruct (IHm _ _ _ Ms) as [L2 K2].
      pose proof (tl_skip_ws_length rest1 44 C1) as L3.
      split; [lia|]. intros [|f'] Hf; [lia|]. cbn [parse_members].
      rewrite C0, Q, Cc, K1, C1, K2 by lia. reflexivity.
    + destruct (startsWith (skip_ws rest1) 125) eqn:C2; [| discriminate].
      intros H. injection H as <- <-.
      pose proof (tl_skip_ws_length rest1 125 C2) as L3.
      split; [lia|]. intros [|f'] Hf; [lia|]. cbn [parse_members].
      rewrite C0, Q, Cc, K1, C1, C2 by lia. reflexivity.
Qed.

(** The fuel [JSON_parse] gives is enough: a text that the parser accepts
    with any amount of fuel is accepted by [JSON_parse], so that
    [JSON_parse s = None] is a syntax error and never a lack of fuel. *)
Theorem JSON_parse_fuel s fuel v rest :
  parse_value fuel s = Some (v, rest) -> skip_ws rest = [] ->
  JSON_parse s = Some v.
Proof.
  intros P E. unfold JSON_parse.
  destruct (proj1 (parse_fuel fuel) s v rest P) as [_ K].
  rewrite K by lia. now rewrite E.
Qed.

(** ** Frame conditions of the monad *)

Section Steps.
Context {R : World -> World -> Prop} `{Frame R}.

Lemma steps_ret {A} (a : A) : steps R (ret a).
Proof. intro w. apply frame_refl. Qed.

Lemma steps_throw {A} (e : jsstring) : steps R (@throw A e).
Proof. intro w. apply frame_refl. Qed.

Lemma steps_gets {A} (f : World -> A) : steps R (gets f).
Proof. intro w. apply frame_refl. Qed.

Lemma steps_modify (f : World -> World) :
  (forall w, R w (f w)) -> steps R (modify f).
Proof. intros Hf w. apply Hf. Qed.

Lemma steps_bind {A B} (m : Js A) (k : A -> Js B) :
  steps R m -> (forall a, steps R (k a)) -> steps R (bind m k).
Proof.
  intros Hm Hk w. unfold bind.
  specialize (Hm w). destruct (m w) as [[a|e] w']; simpl in *.
  - eapply frame_trans; [exact Hm | apply Hk].
  - exact Hm.
Qed.

Lemma steps_try_catch {A} (m : Js A) (h : jsstring -> Js A) :
  steps R m -> (forall e, steps R (h e)) -> steps R (try_catch m h).
Proof.
  intros Hm Hh w. unfold try_catch.
  specialize (Hm w). destruct (m w) as [[a|e] w']; simpl in *.
  - exact Hm.
  - eapply frame_trans; [exact Hm | apply Hh].
Qed.

Lemma steps_try_finally {A} (m : Js A) (f : Js unit) :
  steps R m -> steps R f -> steps R (try_finally m f).
Proof.
  intros Hm Hf w. unfold try_finally.
  specialize (Hm w). destruct (m w) as [r w']; simpl in *.
  specialize (Hf w'). destruct (f w') as [[u|e] w'']; simpl in *;
    eapply frame_trans; eassumption.
Qed.

Lemma steps_forEach {A} (f : A -> Js unit) (l : list A) :
  (forall x, steps R (f x)) -> steps R (forEach f l).
Proof.
  intros Hf. induction l as [|x l IH]; simpl.
  - apply steps_ret.
  - apply steps_bind; auto.
Qed.

Lemma steps_fetch {A} (r : Request) (answer : Fetch A) :
  steps R (fetch r answer).
Proof.
  unfold fetch. apply steps_bind.
  - apply steps_modify. intro. apply frame_request.
  - intros _. destruct answer; [apply steps_ret | apply steps_throw].
Qed.

Lemma steps_on_result f : steps R (modify (on_result f)).
Proof. apply steps_modify. intro. apply frame_result. Qed.

Lemma steps_on_session f : steps R (modify (on_session f)).
Proof. apply steps_modify. intro. apply frame_session. Qed.

Lemma steps_on_decision f : steps R (modify (on_decision f)).
Proof. apply steps_modify. intro. apply frame_decision. Qed.

Lemma steps_showToast m t : steps R (showToast m t).
Proof. apply steps_modify. intro. apply frame_toast. Qed.

Lemma steps_updateCompletionInfo : steps R updateCompletionInfo.
Proof. apply steps_modify. intro. apply frame_session. Qed.

Lemma steps_updateResult r : steps R (updateResult r).
Proof.
  unfold updateResult.
  destruct (shows r); [apply steps_on_result | apply steps_throw].
Qed.

Lemma steps_completed_with r : steps R (completed_with r).
Proof.
  unfold completed_with, set_currentResult, enable_evaluate.
  repeat (apply steps_bind; [|intros _]);
    auto using steps_updateResult, steps_on_result, steps_showToast,
               steps_updateCompletionInfo.
Qed.

Lemma steps_formatOption o : steps R (formatOption o).
Proof.
  destruct o; simpl; try apply steps_ret; try apply steps_throw;
    match goal with
    | |- context [if ?b then _ else _] => destruct b
    end; (apply steps_ret || apply steps_throw).
Qed.

Lemma steps_renderDecision d : steps R (renderDecision d).
Proof.
  unfold renderDecision, show_container, option_button, append_button.
  apply steps_bind; [apply steps_on_decision | intros _].
  apply steps_bind; [| intros _; apply steps_on_decision].
  apply steps_forEach. intro o.
  apply steps_bind; [apply steps_formatOption | intros t].
  apply steps_on_decision.
Qed.

Lemma steps_completeConversion env : steps R (completeConversion env).
Proof.
  unfold completeConversion, showSpinner, hideSpinner, show_container.
  apply steps_try_finally; [| apply steps_on_result].
  apply steps_try_catch; [| intro; apply steps_showToast].
  apply steps_bind; [apply steps_on_result | intros _].
  apply steps_bind; [apply steps_gets | intros sid].
  apply steps_bind; [apply steps_fetch | intros data].
  destruct (jsstring_eqb _ _); [| apply steps_throw].
  apply steps_bind; [| intros _; apply steps_on_decision].
  destruct (StatusData.completion_info data).
  - apply steps_completed_with.
  - apply steps_bind; [apply steps_fetch | intros data'].
    destruct (jsstring_eqb _ _);
      [apply steps_completed_with | apply steps_throw].
Qed.

Lemma steps_getNextDecision env : steps R (getNextDecision env).
Proof.
  unfold getNextDecision.
  apply steps_bind; [apply steps_gets | intros sid].
  destruct (no_session sid); [apply steps_ret |].
  apply steps_try_catch; [| intro; apply steps_showToast].
  apply steps_bind; [apply steps_fetch | intros data].
  destruct (jsstring_eqb _ _); [| apply steps_completeConversion].
  destruct (DecisionsData.pending data).
  - apply steps_completeConversion.
  - apply steps_renderDecision.
Qed.
End Steps.

(** ** What the methods leave alone *)

#[export] Instance same_this_frame : Frame same_this.
Proof. split; unfold same_this; intros; try congruence; reflexivity. Qed.

#[export] Instance same_history_frame : Frame same_history.
Proof. split; unfold same_history; intros; try congruence; reflexivity. Qed.

#[export] Instance more_sent_frame : Frame more_sent.
Proof.
  split; unfold more_sent; intros.
  - exists []. now rewrite app_nil_r.
  - destruct H as [l1 H1], H0 as [l2 H2]. exists (l1 ++ l2).
    now rewrite H2, H1, app_assoc.
  - exists []. now rewrite app_nil_r.
  - exists []. now rewrite app_nil_r.
  - exists []. now rewrite app_nil_r.
  - exists []. now rewrite app_nil_r.
  - now exists [r].
Qed.

Lemma getNextDecision_this env w :
  this (snd (getNextDecision env w)) = this w.
Proof. apply (steps_getNextDecision (R := same_this)). Qed.

Lemma completeConversion_this env w :
  this (snd (completeConversion env w)) = this w.
Proof. apply (steps_completeConversion (R := same_this)). Qed.

Lemma getNextDecision_sent env w :
  more_sent w (snd (getNextDecision env w)).
Proof. apply steps_getNextDecision. Qed.

Lemma completeConversion_sent env w :
  more_sent w (snd (completeConversion env w)).
Proof. apply steps_completeConversion. Qed.

(** ** The methods catch what they throw *)

Lemma never_throws_modify f : never_throws (modify f).
Proof. intro w. now exists tt. Qed.

Lemma never_throws_try_catch {A} (m : Js A) h :
  (forall e, never_throws (h e)) -> never_throws (try_catch m h).
Proof.
  intros H w. unfold try_catch. destruct (m w) as [[a|e] w'].
  - now exists a.
  - apply H.
Qed.

Lemma never_throws_try_finally {A} (m : Js A) f :
  never_throws m -> never_throws f -> never_throws (try_finally m f).
Proof.
  intros Hm Hf w. unfold try_finally.
  destruct (Hm w) as [a Ha]. destruct (m w) as [r w']. simpl in Ha. subst r.
  destruct (Hf w') as [u Hu]. destruct (f w') as [r' w'']. simpl in Hu.
  subst r'. now exists a.
Qed.

Lemma completeConversion_returns env : never_throws (completeConversion env).
Proof.
  apply never_throws_try_finally; [| apply never_throws_modify].
  apply never_throws_try_catch. intro e. apply never_throws_modify.
Qed.

Lemma getNextDecision_returns env : never_throws (getNextDecision env).
Proof.
  intro w. unfold getNextDecision, bind at 1, gets.
  destruct (no_session _); [now exists tt |].
  apply never_throws_try_catch. intro e. apply never_throws_modify.
Qed.

(** ** The choice-parsing step *)

Lemma parse_choice_total choice w :
  parse_choice choice w = (Normal (parsed_choice choice), w).
Proof.
  unfold parse_choice, parsed_choice, try_catch, JSON_parse_js.
  destruct (startsWith choice 123 || startsWith choice 91); [|reflexivity].
  destruct (JSON_parse choice); reflexivity.
Qed.

(** ** [resolveDecision], case by case *)

Lemma resolveDecision_no_box env d c w :
  decision_el (decision_view w) = None ->
  snd (resolveDecision env d c w) =
  spinner false
    (add_toast
       (mkToast (js "Error resolving decision: "
                   ++ js "Cannot read properties of null (reading 'checked')")
                error)
       (spinner true w)).
Proof.
  intros H. unfold resolveDecision, try_finally, try_catch, bind at 1.
  unfold showSpinner, modify. unfold bind at 1.
  rewrite parse_choice_total.
  unfold store_preference_checked, bind, gets. simpl. rewrite H.
  reflexivity.
Qed.

Lemma resolveDecision_failed env d c w el :
  decision_el (decision_view w) = Some el ->
  resolve_failed (resolve_response env) = true ->
  snd (resolveDecision env d c w) =
  spinner false
    (add_toast
       (mkToast (js "Error resolving decision: "
                   ++ failure_message (resolve_response env)) error)
       (add_request
          (POST_resolve (resolve_body (sessionId (this w)) d
                           (parsed_choice c) (store_preference el)))
          (spinner true w))).
Proof.
  intros H F. unfold resolveDecision, try_finally, try_catch, bind at 1.
  unfold showSpinner, modify. unfold bind at 1.
  rewrite parse_choice_total.
  unfold store_preference_checked, bind, gets, fetch, modify. simpl.
  rewrite H. simpl.
  destruct (resolve_response env) as [data|m]; simpl in *.
  - destruct (jsstring_eqb (ResolveData.status data) _); [discriminate|].
    reflexivity.
  - reflexivity.
Qed.

Lemma resolveDecision_succeeded env d c w el data :
  decision_el (decision_view w) = Some el ->
  resolve_response env = Fetched data ->
  jsstring_eqb (ResolveData.status data) (js "success") = true ->
  snd (resolveDecision env d c w) =
  spinner false
    (if jsstring_eqb (ResolveData.session_status data) (js "completed")
     then
       if shows (ResolveData.result data)
       then snd ((updateResult (ResolveData.result data) ;;
                  show_container false ;;
                  showToast (js "Conversion completed successfully")
                            success ;;
                  enable_evaluate ;;
                  set_currentResult (ResolveData.result data) ;;
                  updateCompletionInfo) (resolved w el d c data))
       else add_toast
              (mkToast (js "Error resolving decision: " ++ no_primitive)
                       error)
              (resolved w el d c data)
     else snd (getNextDecision env (resolved w el d c data))).
Proof.
  intros H F S. unfold resolveDecision.
  cbv [try_finally try_catch bind showSpinner modify gets fetch ret throw
       store_preference_checked hideSpinner set_pending_count].
  rewrite parse_choice_total. cbn [decision_view on_result]. rewrite H, F, S.
  unfold resolved, spinner. cbn [this on_result].
  destruct (jsstring_eqb (ResolveData.session_status data) _).
  - unfold updateResult.
    destruct (shows (ResolveData.result data)); reflexivity.
  - match goal with
    | |- context [getNextDecision env ?x] =>
        destruct (getNextDecision_returns env x) as [u Hu];
        destruct (getNextDecision env x) as [r w']
    end.
    simpl in Hu. subst r. reflexivity.
Qed.

(** ** The history, step by step *)

Lemma resolveDecision_history env d c w :
  conversionHistory (this (snd (resolveDecision env d c w))) =
  conversionHistory (this w)
    ++ match resolve_reply env w with
       | Some _ => [mkHistoryEntry d (parsed_choice c)]
       | None => []
       end.
Proof.
  unfold resolve_reply.
  destruct (decision_el (decision_view w)) as [el|] eqn:H.
  - destruct (resolve_response env) as [data|m] eqn:F.
    + destruct (jsstring_eqb (ResolveData.status data) (js "success")) eqn:S.
      * rewrite (resolveDecision_succeeded env d c w el data H F S).
        destruct (jsstring_eqb (ResolveData.session_status data) _).
        -- unfold updateResult.
           destruct (shows (ResolveData.result data)); reflexivity.
        -- cbn [spinner on_result this]. rewrite getNextDecision_this.
           reflexivity.
      * rewrite (resolveDecision_failed env d c w el H)
          by (rewrite F; simpl; now rewrite S).
        simpl. now rewrite app_nil_r.
    + rewrite (resolveDecision_failed env d c w el H) by now rewrite F.
      simpl. now rewrite app_nil_r.
  - rewrite (resolveDecision_no_box env d c w H). simpl.
    now rewrite app_nil_r.
Qed.

Lemma startInteractiveConversion_history env w :
  conversionHistory (this (snd (startInteractiveConversion env w))) =
  conversionHistory (this w).
Proof.
  revert w. change (steps same_history (startInteractiveConversion env)).
  unfold startInteractiveConversion, showSpinner, hideSpinner, show_panel,
    set_session_id_text, set_pending_count.
  apply steps_bind; [apply steps_gets | intros file].
  destruct file; simpl; [| apply steps_showToast].
  apply steps_bind; [apply steps_on_result | intros _].
  apply steps_bind; [apply steps_on_session | intros _].
  apply steps_try_finally; [| apply steps_on_result].
  apply steps_try_catch.
  - apply steps_bind; [apply steps_gets | intros source].
    apply steps_bind; [apply steps_gets | intros target].
    apply steps_bind; [apply steps_fetch | intros data].
    destruct (jsstring_eqb _ _); [| apply steps_throw].
    apply steps_bind; [apply steps_modify; intro; reflexivity | intros _].
    apply steps_bind; [apply steps_on_session | intros _].
    apply steps_bind; [apply steps_on_session | intros _].
    apply steps_bind; [| intros _; apply steps_showToast].
    destruct (0 <? _)%Z.
    + apply steps_getNextDecision.
    + apply steps_completeConversion.
  - intros e. apply steps_bind; [apply steps_showToast | intros _].
    apply steps_on_session.
Qed.

Lemma cancelSession_history env w :
  conversionHistory (this (snd (cancelSession env w))) =
  if cancelled w (env, Cancel) then [] else conversionHistory (this w).
Proof.
  unfold cancelSession, cancelled.
  cbv [bind gets fetch modify try_catch ret throw fst snd show_panel
       show_container showToast].
  destruct (no_session (sessionId (this w))); simpl.
  - now destruct (cancel_response env).
  - destruct (confirm_answer env); simpl.
    + now destruct (cancel_response env).
    + now destruct (cancel_response env).
Qed.

Lemma history_step w ea :
  conversionHistory (this (step w ea)) =
  if cancelled w ea then []
  else conversionHistory (this w)
         ++ match recorded w ea with
            | Some e => [e]
            | None => []
            end.
Proof.
  destruct ea as [env a]. unfold step. cbn [fst snd].
  destruct a; cbn [handler].
  - (* Start *)
    rewrite startInteractiveConversion_history.
    unfold cancelled, recorded. simpl. now rewrite app_nil_r.
  - rewrite getNextDecision_this.
    unfold cancelled, recorded. simpl. now rewrite app_nil_r.
  - rewrite resolveDecision_history.
    unfold cancelled, recorded. simpl. now destruct (resolve_reply env w).
  - (* ClickOption *)
    unfold cancelled, recorded, click_option, resolution_of, bind, gets.
    cbn [fst snd].
    destruct (dataset_decisionId (decision_view w)) as [d|];
      [| simpl; now rewrite app_nil_r].
    destruct (decision_el (decision_view w)) as [el|] eqn:H;
      [| simpl; now rewrite app_nil_r].
    destruct (nth_error (option_buttons el) n) as [b|];
      [| simpl; now rewrite app_nil_r].
    rewrite resolveDecision_history.
    now destruct (resolve_reply env w).
  - unfold cancelled, recorded. simpl. now rewrite app_nil_r.
  - rewrite completeConversion_this.
    unfold cancelled, recorded. simpl. now rewrite app_nil_r.
  - rewrite cancelSession_history.
    destruct (cancelled w (env, Cancel)); [reflexivity|].
    unfold recorded. simpl. now rewrite app_nil_r.
Qed.

Lemma resolveDecision_sent env d c w el :
  decision_el (decision_view w) = Some el ->
  exists l,
    sent (snd (resolveDecision env d c w)) =
    sent w
      ++ POST_resolve (resolve_body (sessionId (this w)) d (parsed_choice c)
                         (store_preference el)) :: l.
Proof.
  intros H.
  destruct (resolve_failed (resolve_response env)) eqn:F.
  - rewrite (resolveDecision_failed env d c w el H F). now exists [].
  - destruct (resolve_response env) as [data|m] eqn:E; [|discriminate].
    simpl in F. apply negb_false_iff in F.
    rewrite (resolveDecision_succeeded env d c w el data H E F).
    destruct (jsstring_eqb (ResolveData.session_status data) _).
    + unfold updateResult.
      destruct (shows (ResolveData.result data)); now exists [].
    + cbn [spinner on_result sent].
      destruct (getNextDecision_sent env (resolved w el d c data)) as [l Hl].
      rewrite Hl. exists l. simpl. now rewrite <- app_assoc.
Qed.

Lemma getNextDecision_sent_first env w :
  no_session (sessionId (this w)) = false ->
  exists l,
    sent (snd (getNextDecision env w)) =
    sent w ++ GET_decisions (session_text (sessionId (this w))) :: l.
Proof.
  intros N. unfold getNextDecision, bind at 1, gets. rewrite N.
  unfold try_catch, bind, fetch, modify.
  destruct (decisions_response env) as [data|m]; [|now exists []].
  set (w1 := add_request (GET_decisions
                            (session_text (sessionId (this w)))) w).
  assert (M : more_sent w1
                (snd ((if jsstring_eqb (DecisionsData.status data)
                            (js "success")
                       then match DecisionsData.pending data with
                            | [] => completeConversion env
                            | decision :: _ => renderDecision decision
                            end
                       else completeConversion env) w1))).
  { destruct (jsstring_eqb _ _); [| apply steps_completeConversion].
    destruct (DecisionsData.pending data);
      [apply steps_completeConversion | apply steps_renderDecision]. }
  destruct M as [l Hl]. cbv [bind ret]. fold w1.
  match type of Hl with
  | context [snd ?x] => destruct x as [[u|e] w2]
  end; simpl in Hl |- *; rewrite Hl; exists l; now rewrite <- app_assoc.
Qed.





(** ** The option buttons *)

Lemma formatOption_returns o :
  has_label o = true -> exists t, forall w, formatOption o w = (Normal t, w).
Proof.
  intros H. destruct o; cbn [formatOption has_label] in *;
    try rewrite H; try (eexists; intros w; reflexivity).
  discriminate H.
Qed.

Lemma formatOption_throws o :
  has_label o = false -> exists e, forall w, formatOption o w = (Throw e, w).
Proof.
  intros H. destruct o; cbn [formatOption has_label] in *;
    try rewrite H; try discriminate H; eexists; intros w; reflexivity.
Qed.

Lemma renderDecision_this decision w :
  this (snd (renderDecision decision w)) = this w.
Proof. apply (steps_renderDecision (R := same_this)). Qed.

(** *** The buttons built before the loop ends or throws *)

Lemma option_button_built decision o w :
  has_label o = true ->
  exists b,
    data_value b = dataset_value o
    /\ default_class b = is_default decision o
    /\ option_button decision o w = (Normal tt, snd (append_button b w)).
Proof.
  intros H. destruct (formatOption_returns o H) as [t Ht].
  unfold option_button, bind. rewrite Ht.
  destruct (is_default decision o); eexists;
    (refine (conj _ (conj _ eq_refl)); reflexivity).
Qed.

Lemma option_button_stops decision o w :
  has_label o = false ->
  exists e, option_button decision o w = (Throw e, w)
            /\ forall w', fst (formatOption o w') = Throw e.
Proof.
  intros H. destruct (formatOption_throws o H) as [e He].
  exists e. unfold option_button, bind. rewrite He.
  split; [reflexivity|]. intros w'. now rewrite He.
Qed.

Lemma forEach_keeps decision l :
  forall w shown id' pref bs0,
    decision_view w = mkDecisionView shown id' (Some (mkDecisionEl pref bs0)) ->
    exists more,
      decision_view (snd (forEach (option_button decision) l w))
      = mkDecisionView shown id' (Some (mkDecisionEl pref (bs0 ++ more))).
Proof.
  induction l as [|o l IH]; intros w shown id' pref bs0 V.
  - exists []. cbn. now rewrite app_nil_r.
  - cbn [forEach]. unfold bind. destruct (has_label o) eqn:L.
    + destruct (option_button_built decision o w L) as (b & _ & _ & Hb).
      rewrite Hb.
      destruct (IH (snd (append_button b w)) shown id' pref (bs0 ++ [b]))
        as [more Hm].
      { unfold append_button, modify. cbn [snd decision_view on_decision].
        rewrite V. reflexivity. }
      exists (b :: more). rewrite Hm. now rewrite <- app_assoc.
    + destruct (option_button_stops decision o w L) as (e & He & _).
      rewrite He. exists []. cbn [snd]. now rewrite app_nil_r.
Qed.

Lemma forEach_built decision pre post :
  (forall o, In o pre -> has_label o = true) ->
  forall w shown id' pref bs0,
    decision_view w = mkDecisionView shown id' (Some (mkDecisionEl pref bs0)) ->
    exists bs more,
      map data_value bs = map dataset_value pre
      /\ map default_class bs = map (is_default decision) pre
      /\ decision_view
           (snd (forEach (option_button decision) (pre ++ post) w))
         = mkDecisionView shown id'
             (Some (mkDecisionEl pref (bs0 ++ bs ++ more))).
Proof.
  induction pre as [|o pre IH]; intros L w shown id' pref bs0 V.
  - destruct (forEach_keeps decision post w shown id' pref bs0 V)
      as [more Hm].
    exists [], more. auto.
  - destruct (option_button_built decision o w) as (b & Db & Mb & Hb);
      [apply L; now left|].
    destruct (IH (fun o' In' => L o' (or_intror In'))
                 (snd (append_button b w)) shown id' pref (bs0 ++ [b]))
      as (bs & more & M & Mk & Dv).
    { unfold append_button, modify. cbn [snd decision_view on_decision].
      rewrite V. reflexivity. }
    exists (b :: bs), more. cbn [map]. rewrite M, Db, Mk, Mb.
    split; [reflexivity|]. split; [reflexivity|].
    cbn [forEach app]. unfold bind. rewrite Hb, Dv.
    now rewrite <- app_assoc.
Qed.

Lemma nth_error_firstn_S {A} (l : list A) n x :
  nth_error l n = Some x -> nth_error (firstn (S n) l) n = Some x.
Proof.
  revert n. induction l as [|y l IH]; intros [|n] H; try discriminate.
  - exact H.
  - cbn [firstn nth_error] in *. now apply IH.
Qed.

(** The button of the [n]-th option is on the page once the options up to
    it have their labels, whatever the options after it do to the loop. *)
Lemma renderDecision_button decision w n option :
  nth_error (Decision.options decision) n = Some option ->
  (forall o, In o (firstn (S n) (Decision.options decision)) ->
             has_label o = true) ->
  exists shown bs b,
    decision_view (snd (renderDecision decision w)) =
      mkDecisionView shown (Some (Decision.id decision))
                     (Some (mkDecisionEl false bs))
    /\ nth_error bs n = Some b
    /\ data_value b = dataset_value option
    /\ default_class b = is_default decision option.
Proof.
  intros Hn L. unfold renderDecision. unfold bind at 1, modify.
  set (w1 := on_decision _ w).
  destruct (forEach_built decision (firstn (S n) (Decision.options decision))
              (skipn (S n) (Decision.options decision)) L w1
              (container_shown (decision_view w))
              (Some (Decision.id decision)) false [])
    as (bs & more & M & Mk & Dv); [reflexivity|].
  rewrite firstn_skipn in Dv. cbn [app] in Dv.
  pose proof (nth_error_firstn_S _ _ _ Hn) as Hf.
  pose proof (f_equal (fun l => nth_error l n) M) as Q1.
  pose proof (f_equal (fun l => nth_error l n) Mk) as Q2.
  cbv beta in Q1, Q2. rewrite !nth_error_map, Hf in Q1, Q2.
  destruct (nth_error bs n) as [b|] eqn:Nb; [| discriminate].
  cbn in Q1, Q2. inversion Q1 as [Q1']. inversion Q2 as [Q2'].
  assert (Nb' : nth_error (bs ++ more) n = Some b).
  { rewrite nth_error_app1; [exact Nb|]. apply nth_error_Some. congruence. }
  unfold bind.
  match goal with
  | |- context [forEach ?f ?l w1] => destruct (forEach f l w1) as [[u|e] w2]
  end; cbn [snd] in Dv.
  - exists true, (bs ++ more), b. unfold show_container, modify.
    cbn [snd decision_view on_decision]. rewrite Dv. auto.
  - exists (container_shown (decision_view w)), (bs ++ more), b.
    cbn [snd]. rewrite Dv. auto.
Qed.

Lemma resolve_body_parses sid d v p :
  wf_json v = true ->
  JSON_parse (resolve_body sid d v p) =
  Some (JObj [(js "session_id", match sid with
                                | Some s => JStr s
                                | None => JNull
                                end);
              (js "decision_id", JStr d);
              (js "choice", v);
              (js "save_preference", JBool p)]).
Proof.
  intros W. unfold resolve_body. apply JSON_parse_stringify.
  cbn [wf_json map fst snd forallb]. rewrite W.
  destruct sid; reflexivity.
Qed.

(** * The claims *)



(** C2, amended.  A resolve whose response reports the session completed
    sends the resolve request and nothing else, and hides the decision
    container once the result is on display; when the result has no text,
    [UI.updateResult] throws and the container is left as it was.  The
    client keeps no status of the session: a later call of [getNextDecision]
    or of [resolveDecision] is sent to the server all the same. *)
Theorem completed_session_not_guarded :
  forall env d c w el data,
    no_session (sessionId (this w)) = false ->
    decision_el (decision_view w) = Some el ->
    resolve_response env = Fetched data ->
    jsstring_eqb (ResolveData.status data) (js "success") = true ->
    jsstring_eqb (ResolveData.session_status data) (js "completed") = true ->
    let w' := snd (resolveDecision env d c w) in
    sent w' =
      sent w ++ [POST_resolve (resolve_body (sessionId (this w)) d
                                 (parsed_choice c) (store_preference el))]
    /\ container_shown (decision_view w') =
       (if shows (ResolveData.result data) then false
        else container_shown (decision_view w))
    /\ forall env' d' c',
         (exists l, sent (snd (getNextDecision env' w')) =
                    sent w' ++ GET_decisions
                                 (session_text (sessionId (this w))) :: l)
         /\ (exists l, sent (snd (resolveDecision env' d' c' w')) =
                       sent w' ++ POST_resolve
                                    (resolve_body (sessionId (this w)) d'
                                       (parsed_choice c')
                                       (store_preference el)) :: l).
Proof.
  intros env d c w el data N H F S C w'.
  assert (Q : sent w' =
              sent w ++ [POST_resolve (resolve_body (sessionId (this w)) d
                                         (parsed_choice c)
                                         (store_preference el))]
              /\ container_shown (decision_view w') =
                 (if shows (ResolveData.result data) then false
                  else container_shown (decision_view w))
              /\ sessionId (this w') = sessionId (this w)
              /\ decision_el (decision_view w') = Some el).
  { subst w'.
    rewrite (resolveDecision_succeeded env d c w el data H F S), C.
    unfold updateResult.
    destruct (shows (ResolveData.result data));
      repeat split; try reflexivity; exact H. }
  destruct Q as (Q1 & Q2 & T & El). clearbody w'.
  split; [exact Q1|]. split; [exact Q2|].
  intros env' d' c'. split.
  - destruct (getNextDecision_sent_first env' w') as [l Hl].
    + now rewrite T.
    + exists l. rewrite Hl, T. reflexivity.
  - destruct (resolveDecision_sent env' d' c' w' el El) as [l Hl].
    exists l. rewrite Hl, T. reflexivity.
Qed.

Lemma completed_session_not_guarded_witness :
  let w' := snd (resolveDecision Scenario.completes (js "A") (js "keep")
                   Scenario.started) in
  sent w' =
    sent Scenario.started
      ++ [POST_resolve (resolve_body (Some (js "s1")) (js "A")
                          (JStr (js "keep")) false)]
  /\ container_shown (decision_view w') = false
  /\ forall env' d' c',
       (exists l, sent (snd (getNextDecision env' w')) =
                  sent w' ++ GET_decisions (js "s1") :: l)
       /\ (exists l, sent (snd (resolveDecision env' d' c' w')) =
                     sent w' ++ POST_resolve
                                  (resolve_body (Some (js "s1")) d'
                                     (parsed_choice c') false) :: l).
Proof.
  exact (completed_session_not_guarded Scenario.completes (js "A") (js "keep")
           Scenario.started Scenario.panelA
           (ResolveData.make (js "success") 0 (js "completed")
              (Some (JStr (js "<converted/>"))) None)
           eq_refl eq_refl eq_refl eq_refl eq_refl).
Defined.

(** C2 as stated fails: on the session that the resolution of A completed,
    a call of [getNextDecision] is not rejected, it queries the server. *)
Lemma completed_session_still_queried :
  sent (step Scenario.done (Scenario.offline, NextDecision)) =
  sent Scenario.done ++ [GET_decisions (js "s1")].
Proof. vm_compute. reflexivity. Qed.

(** C3, at the failing input: the queue endpoint answers with a failure
    status, and [getNextDecision] raises no error; it takes the answer for an
    empty queue, asks for the status and finalizes the session. *)
Example queue_failure_taken_for_empty :
  let w' := step Scenario.started (Scenario.queue_fails, NextDecision) in
  sent w' =
    sent Scenario.started
      ++ [GET_decisions (js "s1"); GET_status (js "s1");
          POST_complete (js "s1")]
  /\ toasts w' =
       toasts Scenario.started
         ++ [mkToast (js "Conversion completed successfully") success]
  /\ currentResult (result_view w') = Some (JStr (js "<converted/>")).
Proof. vm_compute. repeat split. Qed.

(** C4, amended.  [cancelSession] changes nothing when no session id is held
    or when the user declines.  Otherwise it posts the cancel request; once
    the request is delivered it clears the session id and the history,
    hides the panel and announces the cancellation, whatever the server
    answered and whether or not the session had completed; when the request
    fails it reports the error and keeps the fields. *)
Theorem cancel_clears_whatever_the_status :
  forall env w,
    let w' := snd (cancelSession env w) in
    if no_session (sessionId (this w)) || negb (confirm_answer env)
    then w' = w
    else
      sent w' =
        sent w ++ [POST_cancel (session_text (sessionId (this w)))
                     (JSON_stringify
                        (JObj [(js "reason", JStr (js "User cancelled"))]))]
      /\ match cancel_response env with
         | Fetched _ =>
             this w' = mkConverter None [] []
             /\ panel_shown (session_view w') = false
             /\ container_shown (decision_view w') = false
             /\ toasts w' =
                  toasts w
                    ++ [mkToast (js "Interactive session cancelled") info]
         | Failed m =>
             this w' = this w
             /\ toasts w' =
                  toasts w
                    ++ [mkToast (js "Error cancelling session: " ++ m) error]
         end.
Proof.
  intros env w. unfold cancelSession.
  cbv [bind gets fetch modify try_catch ret throw show_panel
       show_container showToast].
  destruct (no_session (sessionId (this w))); [reflexivity|].
  destruct (confirm_answer env); [|reflexivity].
  destruct (cancel_response env); simpl; repeat split.
Qed.

(** C4 as stated fails: on the session that the resolution of A completed,
    a confirmed cancel is no no-op, it clears the session id and the
    history. *)
Lemma cancel_after_completion_clears :
  this (step Scenario.done (Scenario.confirms, Cancel)) = mkConverter None [] []
  /\ this Scenario.done <> mkConverter None [] [].
Proof. vm_compute. split; [reflexivity | discriminate]. Qed.

(** C5, amended.  No operation other than a cancel removes or edits a
    history entry: across any sequence of starts, fetches of the next
    decision, resolves, clicks and completions, the history before is a
    prefix of the history after.  (A cancel that goes through empties the
    history.) *)
Theorem history_grows_without_cancel :
  forall w trace,
    Forall (fun ea => snd ea <> Cancel) trace ->
    exists suffix,
      conversionHistory (this (run w trace)) =
      conversionHistory (this w) ++ suffix.
Proof.
  intros w trace H. revert w.
  induction H as [|ea trace Hea _ IH]; intros w; simpl.
  - exists []. now rewrite app_nil_r.
  - destruct (IH (step w ea)) as [suffix Hs]. rewrite Hs, history_step.
    assert (C : cancelled w ea = false).
    { unfold cancelled. destruct (snd ea); try reflexivity. now elim Hea. }
    rewrite C, <- app_assoc. eauto.
Qed.

Lemma history_grows_without_cancel_witness :
  exists suffix,
    conversionHistory
      (this (run Scenario.started
               [(Scenario.accepts_then_drops, ClickOption 0%nat);
                (Scenario.opens (js "s2"), Start);
                (Scenario.completes, ClickOption 1%nat)])) =
    conversionHistory (this Scenario.started) ++ suffix.
Proof.
  apply (history_grows_without_cancel Scenario.started).
  repeat constructor; discriminate.
Defined.

(** C5 as stated fails: the entry that the resolution of A appended is gone
    after a confirmed cancel. *)
Lemma cancel_removes_history_entries :
  In (mkHistoryEntry (js "A") Scenario.staccato)
     (conversionHistory (this Scenario.done))
  /\ ~ In (mkHistoryEntry (js "A") Scenario.staccato)
          (conversionHistory
             (this (step Scenario.done (Scenario.confirms, Cancel)))).
Proof. vm_compute. split; [now left | intros []]. Qed.







(** C8.  A resolve whose request fails or whose response reports an error is
    not applied and not retried: the fields of the converter (session id,
    history) and the session display (pending count) are as before, the
    decision on the page is as before, exactly one request went out, and the
    error is shown to the user in a toast. *)
Theorem failed_resolve_not_applied :
  forall env d c w el,
    decision_el (decision_view w) = Some el ->
    resolve_failed (resolve_response env) = true ->
    let w' := snd (resolveDecision env d c w) in
    this w' = this w
    /\ session_view w' = session_view w
    /\ decision_view w' = decision_view w
    /\ sent w' =
         sent w ++ [POST_resolve (resolve_body (sessionId (this w)) d
                                    (parsed_choice c) (store_preference el))]
    /\ toasts w' =
         toasts w
           ++ [mkToast (js "Error resolving decision: "
                          ++ failure_message (resolve_response env)) error].
Proof.
  intros env d c w el H F w'. subst w'.
  rewrite (resolveDecision_failed env d c w el H F). repeat split.
Qed.

Lemma failed_resolve_not_applied_witness :
  let w' := snd (resolveDecision Scenario.refuses (js "A") (js "keep")
                   Scenario.started) in
  this w' = this Scenario.started
  /\ session_view w' = session_view Scenario.started
  /\ decision_view w' = decision_view Scenario.started
  /\ sent w' =
       sent Scenario.started
         ++ [POST_resolve (resolve_body (Some (js "s1")) (js "A")
                             (JStr (js "keep")) false)]
  /\ toasts w' =
       toasts Scenario.started
         ++ [mkToast (js "Error resolving decision: Unknown decision") error].
Proof.
  exact (failed_resolve_not_applied Scenario.refuses (js "A") (js "keep")
           Scenario.started Scenario.panelA eq_refl eq_refl).
Defined.

(** C9, at the failing input: a session [s1] is started and decision A is
    resolved in it, then a second session [s2] is started.  The converter
    now holds the id [s2] together with the history of [s1]: the second
    session does not begin with an empty history, and the page reports one
    decision made in a session that has seen none. *)
Example second_session_inherits_history :
  let w' := run Scenario.page
              [(Scenario.opens (js "s1"), Start);
               (Scenario.accepts_then_drops, ClickOption 0%nat);
               (Scenario.opens (js "s2"), Start)] in
  sessionId (this w') = Some (js "s2")
  /\ conversionHistory (this w') = [mkHistoryEntry (js "A") Scenario.staccato].
Proof. vm_compute. split; reflexivity. Qed.

(** C10.  The choice-parsing step of [resolveDecision] is total: for every
    string it returns a value, throws nothing and changes nothing.  On a
    string that begins with a brace or a bracket and that [JSON.parse]
    rejects, the value is the string itself; that string is what the resolve
    request carries, and what the history records if the response reports
    success. *)
Theorem unparsable_choice_kept_raw :
  forall env d choice w el,
    decision_el (decision_view w) = Some el ->
    startsWith choice 123 || startsWith choice 91 = true ->
    JSON_parse choice = None ->
    (forall s w0, exists v, parse_choice s w0 = (Normal v, w0))
    /\ parse_choice choice w = (Normal (JStr choice), w)
    /\ (exists l,
          sent (snd (resolveDecision env d choice w)) =
          sent w ++ POST_resolve (resolve_body (sessionId (this w)) d
                                    (JStr choice) (store_preference el)) :: l)
    /\ conversionHistory (this (snd (resolveDecision env d choice w))) =
       conversionHistory (this w)
         ++ match resolve_reply env w with
            | Some _ => [mkHistoryEntry d (JStr choice)]
            | None => []
            end.
Proof.
  intros env d choice w el H B P.
  assert (E : parsed_choice choice = JStr choice)
    by (unfold parsed_choice; now rewrite B, P).
  split; [| split; [| split]].
  - intros s w0. exists (parsed_choice s). apply parse_choice_total.
  - rewrite parse_choice_total. now rewrite E.
  - rewrite <- E. now apply resolveDecision_sent.
  - rewrite <- E. apply resolveDecision_history.
Qed.

Lemma unparsable_choice_kept_raw_witness :
  (forall s w0, exists v, parse_choice s w0 = (Normal v, w0))
  /\ parse_choice (js "{staccato") Scenario.started =
     (Normal (JStr (js "{staccato")), Scenario.started)
  /\ (exists l,
        sent (snd (resolveDecision Scenario.completes (js "A")
                     (js "{staccato") Scenario.started)) =
        sent Scenario.started
          ++ POST_resolve (resolve_body (Some (js "s1")) (js "A")
                             (JStr (js "{staccato")) false) :: l)
  /\ conversionHistory
       (this (snd (resolveDecision Scenario.completes (js "A")
                     (js "{staccato") Scenario.started))) =
     [] ++ [mkHistoryEntry (js "A") (JStr (js "{staccato"))].
Proof.
  exact (unparsable_choice_kept_raw Scenario.completes (js "A")
           (js "{staccato") Scenario.started Scenario.panelA
           eq_refl eq_refl eq_refl).
Defined.

(** * Further properties of the session *)

(** ** The handlers under a frame *)

Section Handlers.
Context {R : World -> World -> Prop} `{Frame R}.

Lemma steps_parse_choice choice : steps R (parse_choice choice).
Proof.
  intro w. rewrite parse_choice_total. apply frame_refl.
Qed.

Lemma steps_store_preference_checked : steps R store_preference_checked.
Proof.
  unfold store_preference_checked.
  apply steps_bind; [apply steps_gets | intros el].
  destruct el; [apply steps_ret | apply steps_throw].
Qed.

Lemma steps_resolveDecision env d c :
  (forall e w, R w (on_this (push_history e) w)) ->
  steps R (resolveDecision env d c).
Proof.
  intros P. unfold resolveDecision, showSpinner, hideSpinner,
    set_pending_count, show_container, enable_evaluate,
    set_currentResult.
  apply steps_try_finally; [| apply steps_on_result].
  apply steps_try_catch; [| intro; apply steps_showToast].
  apply steps_bind; [apply steps_on_result | intros _].
  apply steps_bind; [apply steps_parse_choice | intros v].
  apply steps_bind; [apply steps_store_preference_checked | intros p].
  apply steps_bind; [apply steps_gets | intros sid].
  apply steps_bind; [apply steps_fetch | intros data].
  destruct (jsstring_eqb _ _); [| apply steps_throw].
  apply steps_bind; [apply steps_modify; intro; apply P | intros _].
  apply steps_bind; [apply steps_on_session | intros _].
  destruct (jsstring_eqb _ _); [| apply steps_getNextDecision].
  repeat (apply steps_bind; [|intros _]);
    auto using steps_updateResult, steps_on_result, steps_on_decision,
               steps_showToast, steps_updateCompletionInfo.
Qed.

Lemma steps_click_option env n :
  (forall e w, R w (on_this (push_history e) w)) ->
  steps R (click_option env n).
Proof.
  intros P. unfold click_option.
  apply steps_bind; [apply steps_gets | intros v].
  destruct (dataset_decisionId v); [| apply steps_ret].
  destruct (decision_el v); [| apply steps_ret].
  destruct (nth_error _ _); [| apply steps_ret].
  now apply steps_resolveDecision.
Qed.

Lemma steps_startInteractiveConversion env :
  (forall sid w, R w (on_this (set_sessionId sid) w)) ->
  steps R (startInteractiveConversion env).
Proof.
  intros P. unfold startInteractiveConversion, showSpinner, hideSpinner,
    show_panel, set_session_id_text, set_pending_count.
  apply steps_bind; [apply steps_gets | intros file].
  destruct file; simpl; [| apply steps_showToast].
  apply steps_bind; [apply steps_on_result | intros _].
  apply steps_bind; [apply steps_on_session | intros _].
  apply steps_try_finally; [| apply steps_on_result].
  apply steps_try_catch.
  - apply steps_bind; [apply steps_gets | intros source].
    apply steps_bind; [apply steps_gets | intros target].
    apply steps_bind; [apply steps_fetch | intros data].
    destruct (jsstring_eqb _ _); [| apply steps_throw].
    apply steps_bind; [apply steps_modify; intro; apply P | intros _].
    apply steps_bind; [apply steps_on_session | intros _].
    apply steps_bind; [apply steps_on_session | intros _].
    apply steps_bind; [| intros _; apply steps_showToast].
    destruct (0 <? _)%Z.
    + apply steps_getNextDecision.
    + apply steps_completeConversion.
  - intros e. apply steps_bind; [apply steps_showToast | intros _].
    apply steps_on_session.
Qed.

Lemma steps_cancelSession env :
  (forall w, R w (on_this (fun _ => mkConverter None [] []) w)) ->
  steps R (cancelSession env).
Proof.
  intros P. unfold cancelSession, show_panel, show_container.
  apply steps_bind; [apply steps_gets | intros sid].
  destruct (no_session sid); [apply steps_ret |].
  destruct (confirm_answer env); [| apply steps_ret].
  apply steps_try_catch; [| intro; apply steps_showToast].
  apply steps_bind; [apply steps_fetch | intros _].
  apply steps_bind; [apply steps_modify; intro; apply P | intros _].
  apply steps_bind; [apply steps_on_session | intros _].
  apply steps_bind; [apply steps_on_decision | intros _].
  apply steps_showToast.
Qed.

Lemma steps_toggle_preference checked : steps R (toggle_preference checked).
Proof. apply steps_on_decision. Qed.
End Handlers.

(** ** The session id and the pending decisions *)

#[export] Instance same_session_frame : Frame same_session.
Proof.
  split; unfold same_session; intros; try (split; reflexivity).
  destruct H as [A B], H0 as [C D]. split; congruence.
Qed.

#[export] Instance none_pending_frame : Frame none_pending.
Proof.
  split; unfold none_pending; intros; auto.
Qed.

Lemma same_session_step w ea :
  snd ea <> Start -> snd ea <> Cancel -> same_session w (step w ea).
Proof.
  destruct ea as [env a]. unfold step. cbn [fst snd]. intros NS NC.
  destruct a; cbn [handler].
  - now elim NS.
  - apply steps_getNextDecision.
  - apply steps_resolveDecision. intros e w0. split; reflexivity.
  - apply steps_click_option. intros e w0. split; reflexivity.
  - apply steps_toggle_preference.
  - apply steps_completeConversion.
  - now elim NC.
Qed.

Lemma none_pending_step w ea : none_pending w (step w ea).
Proof.
  destruct ea as [env a]. unfold step. cbn [fst snd].
  destruct a; cbn [handler].
  - apply steps_startInteractiveConversion. intros sid w0 E. exact E.
  - apply steps_getNextDecision.
  - apply steps_resolveDecision. intros e w0 E. exact E.
  - apply steps_click_option. intros e w0 E. exact E.
  - apply steps_toggle_preference.
  - apply steps_completeConversion.
  - apply steps_cancelSession. intros w0 E. reflexivity.
Qed.

(** X1.  The session id is immutable between a start and a cancel: no fetch
    of the next decision, resolve, click, change of the preference box or
    completion changes [this.sessionId], whatever the server answers. *)
Theorem session_id_fixed_between_start_and_cancel :
  forall w trace,
    Forall (fun ea => snd ea <> Start /\ snd ea <> Cancel) trace ->
    sessionId (this (run w trace)) = sessionId (this w).
Proof.
  intros w trace H. revert w.
  induction H as [|ea trace [NS NC] _ IH]; intros w; simpl.
  - reflexivity.
  - rewrite IH. apply (same_session_step w ea NS NC).
Qed.

Lemma session_id_fixed_between_start_and_cancel_witness :
  sessionId
    (this (run Scenario.started
             [(Scenario.accepts_then_drops, ClickOption 0%nat);
              (Scenario.queue_fails, NextDecision);
              (Scenario.completes, Resolve (js "B") (js "upper"));
              (Scenario.reports_completed, Complete)])) =
  sessionId (this Scenario.started).
Proof.
  apply (session_id_fixed_between_start_and_cancel Scenario.started).
  repeat constructor; discriminate.
Defined.

(** X2.  [this.pendingDecisions] is never filled: it is empty when the
    converter is built, and it is empty after any sequence of starts,
    fetches of the next decision, resolves, clicks, completions and cancels.
    The decision on display is always the one the server last listed
    first; the client keeps no copy of the queue. *)
Theorem pending_decisions_never_filled :
  forall file source target trace,
    pendingDecisions (this (run (constructor file source target) trace)) = [].
Proof.
  intros file source target trace.
  assert (G : forall w, pendingDecisions (this w) = [] ->
                        pendingDecisions (this (run w trace)) = []).
  { induction trace as [|ea trace IH]; intros w E; simpl.
    - exact E.
    - apply IH. now apply (none_pending_step w ea). }
  now apply G.
Qed.

(** ** The shape of a recorded choice *)

Lemma JSON_parse_structured s v :
  startsWith s 123 || startsWith s 91 = true ->
  JSON_parse s = Some v -> structured v = true.
Proof.
  intros B P. unfold JSON_parse in P.
  destruct s as [|c r]; [discriminate|].
  cbn [startsWith] in B.
  assert (W : is_ws c = false).
  { apply orb_true_iff in B. destruct B as [B|B]; apply N.eqb_eq in B;
      subst c; reflexivity. }
  cbn [parse_value] in P. rewrite (skip_ws_head c r W) in P.
  destruct (c =? 123) eqn:E1.
  - destruct (startsWith (skip_ws r) 125).
    + destruct (skip_ws (tl (skip_ws r))); now inversion P.
    + destruct (parse_members _ _) as [[m rest]|]; [|discriminate].
      destruct (skip_ws rest); now inversion P.
  - cbn [orb] in B. rewrite B in P.
    destruct (startsWith (skip_ws r) 93).
    + destruct (skip_ws (tl (skip_ws r))); now inversion P.
    + destruct (parse_elements _ _) as [[vs rest]|]; [|discriminate].
      destruct (skip_ws rest); now inversion P.
Qed.

Lemma parsed_choice_wf c : wf_json (parsed_choice c) = true.
Proof.
  unfold parsed_choice.
  destruct (startsWith c 123 || startsWith c 91); [|reflexivity].
  destruct (JSON_parse c) as [v|] eqn:P; [|reflexivity].
  now apply (JSON_parse_wf c).
Qed.

Lemma parsed_choice_recordable c : recordable (parsed_choice c) = true.
Proof.
  pose proof (parsed_choice_wf c) as W. revert W. unfold parsed_choice.
  destruct (startsWith c 123 || startsWith c 91) eqn:B; [|reflexivity].
  destruct (JSON_parse c) as [v|] eqn:P; [|reflexivity].
  pose proof (JSON_parse_structured c v B P) as S.
  destruct v; try discriminate; intros W; exact W.
Qed.

Lemma recorded_recordable w ea e :
  recorded w ea = Some e -> recordable (choice e) = true.
Proof.
  unfold recorded.
  destruct (resolution_of w (snd ea)) as [[d c]|]; [|discriminate].
  destruct (resolve_reply (fst ea) w); [|discriminate].
  intros E. inversion E. apply parsed_choice_recordable.
Qed.

(** X3.  Whatever the options were, the history holds only strings, arrays
    and objects, each as [JSON.parse] would return it: a choice is recorded
    either as the text of the button or as the value that text parses to,
    and a text is parsed only when it starts with a brace or a bracket.  No
    number, boolean or [null] is ever recorded as a choice. *)
Theorem history_holds_strings_and_structures :
  forall w trace,
    Forall (fun e => recordable (choice e) = true)
           (conversionHistory (this w)) ->
    Forall (fun e => recordable (choice e) = true)
           (conversionHistory (this (run w trace))).
Proof.
  intros w trace. revert w.
  induction trace as [|ea trace IH]; intros w H; simpl.
  - exact H.
  - apply IH. rewrite history_step.
    destruct (cancelled w ea); [constructor|].
    apply Forall_app. split; [exact H|].
    destruct (recorded w ea) as [e|] eqn:E; [|constructor].
    constructor; [|constructor]. now apply (recorded_recordable w ea).
Qed.

Lemma history_holds_strings_and_structures_witness :
  Forall (fun e => recordable (choice e) = true)
         (conversionHistory
            (this (run Scenario.page
                     [(Scenario.opens (js "s1"), Start);
                      (Scenario.accepts_then_drops, ClickOption 0%nat);
                      (Scenario.completes, Resolve (js "B") (js "[1, 2"))]))).
Proof.
  apply (history_holds_strings_and_structures Scenario.page).
  constructor.
Defined.

(** ** What a click submits *)

Lemma click_option_resolves env n w d el b :
  dataset_decisionId (decision_view w) = Some d ->
  decision_el (decision_view w) = Some el ->
  nth_error (option_buttons el) n = Some b ->
  step w (env, ClickOption n) = snd (resolveDecision env d (data_value b) w).
Proof.
  intros D E N. unfold step, handler, click_option, bind, gets.
  cbn [fst snd]. now rewrite D, E, N.
Qed.

(** X4.  An option that is no object and no array (a number, a boolean, a
    string) is submitted as the text of its button: once the decision, its
    texts free of markup, is rendered with the options up to this one
    having their labels, so that its button is built, and the button is
    clicked, the option reaches the resolve request and the history as the
    string [String(option)], provided that text does not start with a brace
    or a bracket.  The number [2] is submitted and recorded as the string
    ["2"]. *)
Theorem primitive_option_submitted_as_text :
  forall env w decision n option data,
    plain_texts decision = true ->
    nth_error (Decision.options decision) n = Some option ->
    (forall o, In o (firstn (S n) (Decision.options decision)) ->
               has_label o = true) ->
    typeof_object option = false ->
    exact_numbers option = true ->
    startsWith (ToString option) 123 || startsWith (ToString option) 91
      = false ->
    resolve_response env = Fetched data ->
    jsstring_eqb (ResolveData.status data) (js "success") = true ->
    let shown := snd (renderDecision decision w) in
    let after := step shown (env, ClickOption n) in
    (exists body l,
        sent after = sent shown ++ POST_resolve body :: l
        /\ JSON_parse body =
           Some (JObj [(js "session_id",
                        match sessionId (this w) with
                        | Some s => JStr s
                        | None => JNull
                        end);
                       (js "decision_id", JStr (Decision.id decision));
                       (js "choice", JStr (ToString option));
                       (js "save_preference", JBool false)]))
    /\ conversionHistory (this after) =
       conversionHistory (this w)
         ++ [mkHistoryEntry (Decision.id decision) (JStr (ToString option))].
Proof.
  intros env w decision n option data Pt Hn L T X B F Su shown after.
  destruct (renderDecision_button decision w n option Hn L)
    as (sh & bs & b & Dv & Nb & Db & _).
  fold shown in Dv.
  assert (Dt : dataset_value option = ToString option)
    by (unfold dataset_value; now rewrite T).
  assert (P : parsed_choice (ToString option) = JStr (ToString option))
    by (unfold parsed_choice; now rewrite B).
  rewrite Dt in Db.
  assert (Tw : this shown = this w) by apply renderDecision_this.
  assert (El : decision_el (decision_view shown)
               = Some (mkDecisionEl false bs)) by now rewrite Dv.
  assert (A : after = snd (resolveDecision env (Decision.id decision)
                             (data_value b) shown)).
  { apply (click_option_resolves env n shown _ (mkDecisionEl false bs) b);
      [now rewrite Dv | exact El | exact Nb]. }
  split.
  - destruct (resolveDecision_sent env (Decision.id decision) (data_value b)
                shown _ El) as [l Hl].
    rewrite A, Hl, Db, P, Tw. eexists. exists l. split; [reflexivity|].
    now apply resolve_body_parses.
  - rewrite A, resolveDecision_history, Tw, Db, P.
    unfold resolve_reply. now rewrite El, F, Su.
Qed.

Lemma primitive_option_submitted_as_text_witness :
  let shown := snd (renderDecision Cases.voices Scenario.started) in
  let after := step shown (Scenario.accepts_then_drops, ClickOption 0%nat) in
  (exists body l,
      sent after = sent shown ++ POST_resolve body :: l
      /\ JSON_parse body =
         Some (JObj [(js "session_id", JStr (js "s1"));
                     (js "decision_id", JStr (js "C"));
                     (js "choice", JStr (js "2"));
                     (js "save_preference", JBool false)]))
  /\ conversionHistory (this after) =
     [] ++ [mkHistoryEntry (js "C") (JStr (js "2"))].
Proof.
  refine (primitive_option_submitted_as_text Scenario.accepts_then_drops
            Scenario.started Cases.voices 0%nat (JNum (mkNumber 2 0))
            (ResolveData.make (js "success") 1 (js "active") None None)
            eq_refl eq_refl _ eq_refl eq_refl eq_refl eq_refl eq_refl).
  intros o [H|[]]; subst o; reflexivity.
Defined.

(** X5.  The state of the preference box is what the resolve request
    carries as [save_preference], and it changes nothing else in the
    request: after the box is set to [checked], a click on the [n]-th
    option sends the session id, the id of the decision on display, the
    choice of that button and [save_preference: checked].  The choice is
    the text of the button, or what it parses to; its numbers are taken to
    be exact, so that the body carries them as they were read. *)
Theorem save_preference_forwarded :
  forall env0 env w d el n b checked,
    dataset_decisionId (decision_view w) = Some d ->
    decision_el (decision_view w) = Some el ->
    nth_error (option_buttons el) n = Some b ->
    exact_numbers (parsed_choice (data_value b)) = true ->
    let toggled := step w (env0, TogglePreference checked) in
    let after := step toggled (env, ClickOption n) in
    exists body l,
      sent after = sent w ++ POST_resolve body :: l
      /\ JSON_parse body =
         Some (JObj [(js "session_id",
                      match sessionId (this w) with
                      | Some s => JStr s
                      | None => JNull
                      end);
                     (js "decision_id", JStr d);
                     (js "choice", parsed_choice (data_value b));
                     (js "save_preference", JBool checked)]).
Proof.
  intros env0 env w d el n b checked D E N X toggled after.
  set (relabel := fun b0 : OptionButton =>
         mkOptionButton (data_value b0)
           (if checked
            then textContent b0 ++ js " (Save preference)"
            else remove_first (js " (Save preference)") (textContent b0))
           (default_class b0)).
  set (el' := mkDecisionEl checked (map relabel (option_buttons el))).
  assert (V : decision_view toggled =
              mkDecisionView (container_shown (decision_view w)) (Some d)
                             (Some el')).
  { unfold toggled, step, handler, toggle_preference, modify.
    cbn [fst snd decision_view on_decision]. now rewrite D, E. }
  assert (Nb : nth_error (option_buttons el') n = Some (relabel b)).
  { unfold el'. cbn [option_buttons]. now rewrite nth_error_map, N. }
  assert (A : after = snd (resolveDecision env d (data_value b) toggled)).
  { apply (click_option_resolves env n toggled d el' (relabel b));
      [now rewrite V | now rewrite V | exact Nb]. }
  destruct (resolveDecision_sent env d (data_value b) toggled el') as [l Hl];
    [now rewrite V|].
  rewrite A, Hl. eexists. exists l. split; [reflexivity|].
  apply resolve_body_parses, parsed_choice_wf.
Qed.

Lemma save_preference_forwarded_witness :
  let toggled := step Scenario.started (Scenario.offline, TogglePreference true) in
  let after := step toggled (Scenario.completes, ClickOption 1%nat) in
  exists body l,
    sent after = sent Scenario.started ++ POST_resolve body :: l
    /\ JSON_parse body =
       Some (JObj [(js "session_id", JStr (js "s1"));
                   (js "decision_id", JStr (js "A"));
                   (js "choice", parsed_choice (js "keep"));
                   (js "save_preference", JBool true)]).
Proof.
  exact (save_preference_forwarded Scenario.offline Scenario.completes
           Scenario.started (js "A") Scenario.panelA 1%nat
           (mkOptionButton (js "keep") (js "keep") false) true
           eq_refl eq_refl eq_refl eq_refl).
Defined.

(** ** An option that has no label *)

Lemma on_decision_twice f g w :
  on_decision f (on_decision g w) = on_decision (fun d => f (g d)) w.
Proof. reflexivity. Qed.

Lemma on_decision_id w : on_decision (fun d => d) w = w.
Proof. now destruct w. Qed.

Lemma option_button_decision_only decision o w :
  exists f, snd (option_button decision o w) = on_decision f w.
Proof.
  destruct (has_label o) eqn:L.
  - destruct (option_button_built decision o w L) as (b & _ & _ & Hb).
    rewrite Hb. unfold append_button, modify. eexists. cbn [snd].
    reflexivity.
  - destruct (option_button_stops decision o w L) as (e & He & _).
    rewrite He. exists (fun d => d). cbn [snd]. now rewrite on_decision_id.
Qed.

Lemma forEach_decision_only decision l :
  forall w, exists f,
    snd (forEach (option_button decision) l w) = on_decision f w.
Proof.
  induction l as [|o l IH]; intros w.
  - exists (fun d => d). cbn. now rewrite on_decision_id.
  - cbn [forEach]. unfold bind.
    destruct (option_button_decision_only decision o w) as [g Hg].
    destruct (option_button decision o w) as [[u|e] w1]; cbn [snd] in Hg;
      subst w1.
    + destruct (IH (on_decision g w)) as [f Hf]. rewrite Hf.
      eexists. apply on_decision_twice.
    + now exists g.
Qed.

Lemma renderDecision_decision_only decision w :
  exists f, snd (renderDecision decision w) = on_decision f w.
Proof.
  unfold renderDecision. unfold bind at 1, modify.
  match goal with
  | |- context [on_decision ?g w] => set (g0 := g)
  end.
  unfold bind.
  destruct (forEach_decision_only decision (Decision.options decision)
              (on_decision g0 w)) as [f Hf].
  destruct (forEach _ _ _) as [[u|e] w1]; cbn [snd] in Hf; subst w1.
  - unfold show_container, modify. cbn [snd]. eexists.
    rewrite !on_decision_twice. reflexivity.
  - cbn [snd]. eexists. rewrite on_decision_twice. reflexivity.
Qed.

Lemma forEach_stops decision pre o post :
  (forall o', In o' pre -> has_label o' = true) ->
  has_label o = false ->
  forall w shown id' pref bs0,
    decision_view w = mkDecisionView shown id' (Some (mkDecisionEl pref bs0)) ->
    exists e bs,
      map data_value bs = map dataset_value pre
      /\ (forall w', fst (formatOption o w') = Throw e)
      /\ fst (forEach (option_button decision) (pre ++ o :: post) w) = Throw e
      /\ decision_view
           (snd (forEach (option_button decision) (pre ++ o :: post) w))
         = mkDecisionView shown id' (Some (mkDecisionEl pref (bs0 ++ bs))).
Proof.
  intros L U. induction pre as [|o' pre IH]; intros w shown id' pref bs0 V.
  - destruct (option_button_stops decision o w U) as (e & He & Hf).
    exists e, []. cbn [app forEach map]. unfold bind. rewrite He.
    cbn [fst snd]. rewrite app_nil_r. auto.
  - destruct (option_button_built decision o' w) as (b & Db & _ & Hb);
      [apply L; now left|].
    destruct (IH (fun x In' => L x (or_intror In'))
                 (snd (append_button b w)) shown id' pref (bs0 ++ [b]))
      as (e & bs & M & Hf & T & Dv).
    { unfold append_button, modify. cbn [snd decision_view on_decision].
      rewrite V. reflexivity. }
    exists e, (b :: bs). split; [cbn [map]; now rewrite M, Db|].
    split; [exact Hf|].
    cbn [forEach app]. unfold bind. rewrite Hb.
    split; [exact T|]. rewrite Dv. now rewrite <- app_assoc.
Qed.

Lemma renderDecision_unfold decision w :
  renderDecision decision w =
  match forEach (option_button decision) (Decision.options decision)
          (on_decision (fun d =>
             mkDecisionView (container_shown d) (Some (Decision.id decision))
                            (Some (mkDecisionEl false []))) w) with
  | (Normal _, w') => show_container true w'
  | (Throw e, w') => (Throw e, w')
  end.
Proof. reflexivity. Qed.

Lemma renderDecision_stops decision pre o post w :
  Decision.options decision = pre ++ o :: post ->
  (forall o', In o' pre -> has_label o' = true) ->
  has_label o = false ->
  exists e bs,
    map data_value bs = map dataset_value pre
    /\ (forall w', fst (formatOption o w') = Throw e)
    /\ fst (renderDecision decision w) = Throw e
    /\ decision_view (snd (renderDecision decision w)) =
       mkDecisionView (container_shown (decision_view w))
                      (Some (Decision.id decision))
                      (Some (mkDecisionEl false bs)).
Proof.
  intros O L U. rewrite renderDecision_unfold, O.
  match goal with
  | |- context [on_decision ?g w] => set (w1 := on_decision g w)
  end.
  destruct (forEach_stops decision pre o post L U w1
              (container_shown (decision_view w))
              (Some (Decision.id decision)) false [])
    as (e & bs & M & Hf & T & Dv); [reflexivity|].
  exists e, bs. split; [exact M|]. split; [exact Hf|].
  destruct (forEach _ _ w1) as [r w2]. cbn [fst snd] in T, Dv. subst r.
  cbn [fst snd]. split; [reflexivity | exact Dv].
Qed.

(** X6.  An option that has no label stops the rendering of a decision
    (its texts free of markup): [formatOption] throws on [null], and on an
    object or an array that holds a value with no text.  The options
    before it have their labels and are values that a JSON text denotes,
    their numbers exact.  The panel is left with the id of the new decision
    and with the buttons of the options that come before, none for the
    option or for those after it; the container is shown or hidden as it
    was; and [getNextDecision] reports the error in a toast. *)
Theorem option_without_label_stops_rendering :
  forall env w data decision rest pre o post,
    plain_texts decision = true ->
    no_session (sessionId (this w)) = false ->
    decisions_response env = Fetched data ->
    jsstring_eqb (DecisionsData.status data) (js "success") = true ->
    DecisionsData.pending data = decision :: rest ->
    Decision.options decision = pre ++ o :: post ->
    (forall o', In o' pre -> has_label o' = true) ->
    (forall o', In o' pre -> wf_json o' = true /\ exact_numbers o' = true) ->
    has_label o = false ->
    let w' := snd (getNextDecision env w) in
    exists e bs,
      fst (formatOption o w) = Throw e
      /\ fst (renderDecision decision w) = Throw e
      /\ toasts w' =
           toasts w ++ [mkToast (js "Error getting next decision: " ++ e) error]
      /\ map data_value bs = map dataset_value pre
      /\ decision_view w' =
           mkDecisionView (container_shown (decision_view w))
                          (Some (Decision.id decision))
                          (Some (mkDecisionEl false bs))
      /\ sent w' =
           sent w ++ [GET_decisions (session_text (sessionId (this w)))]
      /\ this w' = this w.
Proof.
  intros env w data decision rest pre o post Pt N F S P O L X U w'.
  set (w0 := add_request (GET_decisions (session_text (sessionId (this w)))) w).
  destruct (renderDecision_stops decision pre o post w0 O L U)
    as (e & bs & M & Hf & T & Dv).
  destruct (renderDecision_stops decision pre o post w O L U)
    as (e' & _ & _ & Hf' & T' & _).
  assert (Ee : e' = e).
  { specialize (Hf w). specialize (Hf' w). congruence. }
  subst e'.
  destruct (renderDecision_decision_only decision w0) as [f Hf0].
  assert (E : w' = add_toast
                     (mkToast (js "Error getting next decision: " ++ e)
                              error)
                     (snd (renderDecision decision w0))).
  { subst w'. unfold getNextDecision. unfold bind at 1, gets. rewrite N.
    cbv [try_catch bind fetch modify ret]. rewrite F, S, P. fold w0.
    destruct (renderDecision decision w0) as [r w2]. cbn [fst] in T.
    subst r. reflexivity. }
  exists e, bs. split; [apply Hf|]. split; [exact T'|].
  rewrite E. cbn [toasts decision_view sent this add_toast].
  rewrite Dv, Hf0. repeat split; try reflexivity. exact M.
Qed.

Lemma option_without_label_stops_rendering_witness :
  let w' := snd (getNextDecision Cases.lists_clef Scenario.started) in
  exists e bs,
    fst (formatOption Cases.misread Scenario.started) = Throw e
    /\ fst (renderDecision Cases.clef Scenario.started) = Throw e
    /\ toasts w' =
         toasts Scenario.started
           ++ [mkToast (js "Error getting next decision: " ++ e) error]
    /\ map data_value bs = map dataset_value [JStr (js "C4")]
    /\ decision_view w' =
         mkDecisionView (container_shown (decision_view Scenario.started))
                        (Some (js "N")) (Some (mkDecisionEl false bs))
    /\ sent w' = sent Scenario.started ++ [GET_decisions (js "s1")]
    /\ this w' = this Scenario.started.
Proof.
  refine (option_without_label_stops_rendering Cases.lists_clef
            Scenario.started
            (DecisionsData.make (js "success") [Cases.clef]) Cases.clef []
            [JStr (js "C4")] Cases.misread [JStr (js "F3")]
            eq_refl eq_refl eq_refl eq_refl eq_refl eq_refl _ _ eq_refl).
  - intros o [H|[]]; subst o; reflexivity.
  - intros o [H|[]]; subst o; split; reflexivity.
Defined.

(** ** Starting a session *)

(** X7.  A start that fails (the request does not get through, or the
    response does not report success) creates no session: the fields of the
    converter and the decision on the page are as before, exactly one
    request went out, the error is shown in a toast, the spinner is hidden
    — and so is the interactive panel, also when it was showing a session
    started earlier. *)
Theorem failed_start_creates_no_session :
  forall env w,
    currentFile w = true ->
    start_failed (start_response env) = true ->
    let w' := step w (env, Start) in
    this w' = this w
    /\ decision_view w' = decision_view w
    /\ sent w' = sent w ++ [POST_start (source_format w) (target_format w)]
    /\ toasts w' =
         toasts w ++ [mkToast (start_failure_message (start_response env)) error]
    /\ panel_shown (session_view w') = false
    /\ spinner_shown (result_view w') = false.
Proof.
  intros env w C F w'. subst w'.
  unfold step, handler. cbn [fst snd]. unfold startInteractiveConversion.
  cbv [try_finally try_catch bind showSpinner modify gets fetch ret throw
       hideSpinner show_panel showToast].
  rewrite C. cbn [negb].
  cbn [source_format target_format on_session on_result].
  destruct (start_response env) as [data|m]; cbn in F |- *.
  - destruct (jsstring_eqb (StartData.status data) _); [discriminate|].
    repeat split.
  - repeat split.
Qed.

Lemma failed_start_creates_no_session_witness :
  let w' := step Scenario.started (Scenario.offline, Start) in
  this w' = this Scenario.started
  /\ decision_view w' = decision_view Scenario.started
  /\ sent w' = sent Scenario.started ++ [POST_start (js "cmme") (js "mei")]
  /\ toasts w' =
       toasts Scenario.started ++ [mkToast (js "Failed to fetch") error]
  /\ panel_shown (session_view w') = false
  /\ spinner_shown (result_view w') = false.
Proof.
  exact (failed_start_creates_no_session Scenario.offline Scenario.started
           eq_refl eq_refl).
Defined.

Lemma completeConversion_requests env w :
  exists l,
    sent (snd (completeConversion env w)) =
    sent w ++ GET_status (session_text (sessionId (this w))) :: l
    /\ (l = [] \/ l = [POST_complete (session_text (sessionId (this w)))]).
Proof.
  unfold completeConversion.
  cbv [try_finally try_catch bind showSpinner modify gets fetch ret throw
       hideSpinner completed_with updateResult set_currentResult
       enable_evaluate showToast updateCompletionInfo show_container].
  cbn [this on_result].
  destruct (status_response env) as [data|m]; cbn;
    [| exists []; split; [reflexivity | now left]].
  destruct (jsstring_eqb (StatusData.status data) _); cbn;
    [| exists []; split; [reflexivity | now left]].
  destruct (StatusData.completion_info data) as [r|]; cbn;
    [destruct (shows r); cbn; exists [];
     (split; [reflexivity | now left]) |].
  destruct (complete_response env) as [data'|m']; cbn.
  - destruct (jsstring_eqb (CompleteData.status data') _); cbn;
      [destruct (shows (CompleteData.result data')); cbn|];
      eexists; (split; [rewrite <- app_assoc; reflexivity | now right]).
  - eexists; (split; [rewrite <- app_assoc; reflexivity | now right]).
Qed.

Lemma completeConversion_toasts env w :
  exists ts, toasts (snd (completeConversion env w)) = toasts w ++ ts.
Proof.
  unfold completeConversion.
  cbv [try_finally try_catch bind showSpinner modify gets fetch ret throw
       hideSpinner completed_with updateResult set_currentResult
       enable_evaluate showToast updateCompletionInfo show_container].
  cbn [this on_result].
  destruct (status_response env) as [data|m]; cbn; [| now eexists].
  destruct (jsstring_eqb (StatusData.status data) _); cbn; [| now eexists].
  destruct (StatusData.completion_info data) as [r|]; cbn;
    [destruct (shows r); cbn; now eexists |].
  destruct (complete_response env) as [data'|m']; cbn; [| now eexists].
  destruct (jsstring_eqb (CompleteData.status data') _); cbn;
    [destruct (shows (CompleteData.result data')); cbn|]; now eexists.
Qed.

Lemma completeConversion_keeps_panel env w :
  panel_shown (session_view (snd (completeConversion env w)))
  = panel_shown (session_view w)
  /\ decision_el (decision_view (snd (completeConversion env w)))
     = decision_el (decision_view w).
Proof.
  unfold completeConversion.
  cbv [try_finally try_catch bind showSpinner modify gets fetch ret throw
       hideSpinner completed_with updateResult set_currentResult
       enable_evaluate showToast updateCompletionInfo show_container].
  cbn [this on_result].
  destruct (status_response env) as [data|m]; cbn; [| now split].
  destruct (jsstring_eqb (StatusData.status data) _); cbn; [| now split].
  destruct (StatusData.completion_info data) as [r|]; cbn;
    [destruct (shows r); cbn; now split |].
  destruct (complete_response env) as [data'|m']; cbn; [| now split].
  destruct (jsstring_eqb (CompleteData.status data') _); cbn;
    [destruct (shows (CompleteData.result data')); cbn|]; now split.
Qed.

(** X8.  A session that starts with no decision pending skips the decision
    loop: after the start request the client asks for the status of the new
    session, then at most for its finalization, and never for the decision
    queue; no decision is rendered; the panel stays shown; and the start is
    announced last, whatever the completion step reported before it. *)
Theorem start_without_pending_skips_the_queue :
  forall env w data,
    currentFile w = true ->
    start_response env = Fetched data ->
    jsstring_eqb (StartData.status data) (js "success") = true ->
    (StartData.pending_decisions data <= 0)%Z ->
    let w' := step w (env, Start) in
    let sid := StartData.session_id data in
    sessionId (this w') = Some sid
    /\ (exists l,
          sent w' =
            sent w ++ POST_start (source_format w) (target_format w)
                      :: GET_status sid :: l
          /\ (l = [] \/ l = [POST_complete sid]))
    /\ decision_el (decision_view w') = decision_el (decision_view w)
    /\ panel_shown (session_view w') = true
    /\ (exists ts,
          toasts w' =
            toasts w ++ ts ++ [mkToast (js "Interactive session started") success]).
Proof.
  intros env w data C F S P w' sid. subst w'.
  unfold step, handler. cbn [fst snd]. unfold startInteractiveConversion.
  cbv [try_finally try_catch bind showSpinner modify gets fetch ret throw
       hideSpinner show_panel showToast set_session_id_text set_pending_count].
  rewrite C, F, S. cbn [negb].
  cbn [source_format target_format on_session on_result on_this].
  assert (Z : (0 <? StartData.pending_decisions data)%Z = false)
    by (apply Z.ltb_ge; exact P).
  rewrite Z.
  match goal with
  | |- context [completeConversion env ?x] => set (w1 := x)
  end.
  assert (Q1 : sent w1 =
               sent w ++ [POST_start (source_format w) (target_format w)])
    by reflexivity.
  assert (Q2 : toasts w1 = toasts w) by reflexivity.
  assert (Q3 : this w1 = mkConverter (Some sid) (pendingDecisions (this w))
                           (conversionHistory (this w))) by reflexivity.
  assert (Q4 : panel_shown (session_view w1) = true) by reflexivity.
  assert (Q5 : decision_el (decision_view w1) = decision_el (decision_view w))
    by reflexivity.
  clearbody w1.
  destruct (completeConversion_requests env w1) as (l & Hl & Cl).
  destruct (completeConversion_toasts env w1) as (ts & Ht).
  destruct (completeConversion_keeps_panel env w1) as (Hp & Hd).
  pose proof (completeConversion_this env w1) as Hthis.
  destruct (completeConversion_returns env w1) as [u Hu].
  destruct (completeConversion env w1) as [r w2]. cbn [fst snd] in *.
  subst r. cbn [this sent toasts session_view decision_view result_view
                add_toast on_result snd].
  rewrite Hthis, Hl, Ht, Hp, Hd, Q1, Q2, Q3, Q4, Q5 in *.
  cbn [sessionId session_text] in *.
  split; [reflexivity|]. split.
  - exists l. split; [|exact Cl]. now rewrite <- app_assoc.
  - split; [reflexivity|]. split; [reflexivity|].
    exists ts. now rewrite <- app_assoc.
Qed.

Lemma start_without_pending_skips_the_queue_witness :
  let w' := step Scenario.page (Cases.opens_done, Start) in
  sessionId (this w') = Some (js "s3")
  /\ (exists l,
        sent w' =
          sent Scenario.page ++ POST_start (js "cmme") (js "mei")
                                :: GET_status (js "s3") :: l
        /\ (l = [] \/ l = [POST_complete (js "s3")]))
  /\ decision_el (decision_view w') = decision_el (decision_view Scenario.page)
  /\ panel_shown (session_view w') = true
  /\ (exists ts,
        toasts w' =
          toasts Scenario.page ++ ts
            ++ [mkToast (js "Interactive session started") success]).
Proof.
  exact (start_without_pending_skips_the_queue Cases.opens_done Scenario.page
           (StartData.make (js "success") (js "s3") 0 None)
           eq_refl eq_refl eq_refl (Z.le_refl 0)).
Defined.

(** ** The spinner *)

Lemma try_finally_hideSpinner {A} (m : Js A) w :
  spinner_shown (result_view (snd (try_finally m hideSpinner w))) = false.
Proof.
  unfold try_finally, hideSpinner, modify. now destruct (m w).
Qed.

Lemma getNextDecision_spinner env w :
  spinner_shown (result_view w) = false ->
  spinner_shown (result_view (snd (getNextDecision env w))) = false.
Proof.
  intros H. unfold getNextDecision. unfold bind at 1, gets.
  destruct (no_session _); [exact H|].
  cbv [try_catch bind fetch modify ret throw showToast].
  destruct (decisions_response env) as [data|m]; [|exact H].
  set (w0 := add_request _ w).
  assert (C : forall w1,
             spinner_shown
               (result_view
                  (snd (let (c, w') := completeConversion env w1 in
                        match c with
                        | Normal a => (Normal a, w')
                        | Throw e =>
                            (Normal tt,
                             add_toast
                               (mkToast (js "Error getting next decision: "
                                           ++ e) error) w')
                        end))) = false).
  { intros w1. pose proof (try_finally_hideSpinner
                             (A := unit)) as T.
    unfold completeConversion.
    match goal with
    | |- context [try_finally ?m hideSpinner w1] =>
        specialize (T m w1); destruct (try_finally m hideSpinner w1)
          as [[u|e] w2]
    end; exact T. }
  destruct (jsstring_eqb _ _); [| apply C].
  destruct (DecisionsData.pending data) as [|decision rest]; [apply C|].
  destruct (renderDecision_decision_only decision w0) as [f Hf].
  destruct (renderDecision decision w0) as [[u|e] w2]; cbn [snd] in Hf |- *;
    subst w2; exact H.
Qed.

Lemma spinner_step w ea :
  spinner_shown (result_view w) = false ->
  spinner_shown (result_view (step w ea)) = false.
Proof.
  destruct ea as [env a]. unfold step. cbn [fst snd]. intros H.
  destruct a; cbn [handler].
  - unfold startInteractiveConversion. unfold bind at 1, gets.
    destruct (currentFile w); cbn [negb]; [| exact H].
    unfold bind, showSpinner, show_panel, modify.
    apply try_finally_hideSpinner.
  - now apply getNextDecision_spinner.
  - apply try_finally_hideSpinner.
  - unfold click_option, bind, gets.
    destruct (dataset_decisionId (decision_view w)); [| exact H].
    destruct (decision_el (decision_view w)); [| exact H].
    destruct (nth_error _ _); [| exact H].
    apply try_finally_hideSpinner.
  - exact H.
  - apply try_finally_hideSpinner.
  - unfold cancelSession.
    cbv [bind gets fetch modify try_catch ret throw show_panel
         show_container showToast].
    destruct (no_session _); [exact H|].
    destruct (confirm_answer env); [|exact H].
    destruct (cancel_response env); exact H.
Qed.

(** X9.  No handler leaves the spinner on: every method that shows it hides
    it again in its [finally] clause, whether it returned, failed or was
    answered with an error, and the methods it calls do the same.  From a
    page whose spinner is hidden, it is hidden after any sequence of
    actions. *)
Theorem spinner_never_left_on :
  forall w trace,
    spinner_shown (result_view w) = false ->
    spinner_shown (result_view (run w trace)) = false.
Proof.
  intros w trace. revert w.
  induction trace as [|ea trace IH]; intros w H; simpl.
  - exact H.
  - apply IH. now apply spinner_step.
Qed.

Lemma spinner_never_left_on_witness :
  spinner_shown
    (result_view
       (run Scenario.page
          [(Scenario.opens (js "s1"), Start);
           (Scenario.refuses, ClickOption 0%nat);
           (Scenario.offline, ClickOption 1%nat);
           (Scenario.queue_fails, NextDecision);
           (Scenario.confirms, Cancel)])) = false.
Proof.
  exact (spinner_never_left_on Scenario.page _ eq_refl).
Defined.

(** ** The preference box and the labels *)

Lemma has_prefix_spec pat s :
  has_prefix pat s = true <-> exists r, s = pat ++ r.
Proof.
  revert s. induction pat as [|p pat IH]; intros s; cbn [has_prefix].
  - split; [intros _; now exists s | reflexivity].
  - destruct s as [|x s].
    + split; [discriminate | intros [r Hr]; discriminate].
    + rewrite andb_true_iff, IH, N.eqb_eq. split.
      * intros [E [r Hr]]. subst. now exists r.
      * intros [r Hr]. inversion Hr. split; [reflexivity | now exists r].
Qed.

Lemma has_prefix_self pat rest : has_prefix pat (pat ++ rest) = true.
Proof. apply has_prefix_spec. now exists rest. Qed.

Lemma skipn_length_app {A} (l r : list A) : skipn (length l) (l ++ r) = r.
Proof. induction l; [reflexivity | assumption]. Qed.

(** A pattern whose last unit occurs nowhere else in it does not overlap
    itself. *)
Lemma has_prefix_no_overlap (p : jsstring) c t :
  ~ In c p -> t <> [] ->
  has_prefix (p ++ [c]) (t ++ p ++ [c]) = true ->
  has_prefix (p ++ [c]) t = true.
Proof.
  intros NI NE H. apply has_prefix_spec in H. destruct H as [r Hr].
  destruct (Nat.lt_ge_cases (length p) (length t)) as [L|L].
  - assert (N : length (p ++ [c]) = S (length p))
      by (rewrite length_app; simpl; lia).
    remember (length (p ++ [c])) as n eqn:En.
    apply has_prefix_spec. exists (skipn n t).
    rewrite <- (firstn_skipn n t) at 1. f_equal.
    pose proof (f_equal (firstn n) Hr) as F.
    rewrite !firstn_app in F.
    replace (n - length t)%nat with 0%nat in F by lia.
    rewrite firstn_O, app_nil_r in F. rewrite F.
    replace (n - length (p ++ [c]))%nat with 0%nat by lia.
    replace (n - length p)%nat with 1%nat by lia.
    rewrite firstn_all2 by lia. cbn [firstn]. now rewrite app_nil_r.
  - exfalso. apply NI.
    pose proof (f_equal (fun l => nth (length p) l 0) Hr) as F. cbv beta in F.
    rewrite <- app_assoc in F. cbn [app] in F. rewrite nth_middle in F.
    rewrite app_nth2 in F by lia.
    assert (T : (0 < length t)%nat)
      by (destruct t; [now elim NE | simpl; lia]).
    rewrite app_nth1 in F by lia.
    rewrite <- F. apply nth_In. lia.
Qed.

Lemma remove_first_appended (p : jsstring) c t :
  ~ In c p ->
  includes (p ++ [c]) t = false ->
  remove_first (p ++ [c]) (t ++ p ++ [c]) = t.
Proof.
  intros NI. induction t as [|x t IH]; intros I.
  - cbn [app]. destruct (p ++ [c]) as [|y q] eqn:E.
    + reflexivity.
    + cbn [remove_first]. rewrite <- E.
      rewrite <- (app_nil_r (p ++ [c])) at 2.
      rewrite has_prefix_self. rewrite <- (app_nil_r (p ++ [c])) at 2.
      apply skipn_length_app.
  - cbn [includes] in I. apply orb_false_iff in I. destruct I as [I1 I2].
    cbn [app remove_first].
    destruct (has_prefix (p ++ [c]) (x :: t ++ p ++ [c])) eqn:Hp.
    + apply (has_prefix_no_overlap p c (x :: t) NI) in Hp; [|discriminate].
      congruence.
    + f_equal. now apply IH.
Qed.

Lemma save_preference_suffix :
  js " (Save preference)" = js " (Save preference" ++ [41]
  /\ ~ In 41 (js " (Save preference").
Proof.
  split; [reflexivity|]. intros H. vm_compute in H.
  repeat (destruct H as [H|H]; [discriminate|]). exact H.
Qed.

(** X10.  Checking the preference box and unchecking it again restores the
    labels of the option buttons, provided that no label contains the text
    [ (Save preference)] itself: unchecking removes the first occurrence of
    that text, which is then the one that checking appended. *)
Theorem preference_labels_restored :
  forall env1 env2 w el,
    decision_el (decision_view w) = Some el ->
    store_preference el = false ->
    Forall (fun b => includes (js " (Save preference)") (textContent b) = false)
           (option_buttons el) ->
    decision_view (run w [(env1, TogglePreference true);
                          (env2, TogglePreference false)])
    = decision_view w.
Proof.
  intros env1 env2 w el E P L.
  cbn [run fold_left]. unfold step, handler, toggle_preference, modify.
  cbn [fst snd decision_view on_decision decision_el container_shown
       dataset_decisionId]. rewrite E.
  cbn [option_buttons]. rewrite map_map.
  cbn [data_value textContent default_class].
  destruct (decision_view w) as [shown id' el0]. cbn in E. subst el0.
  cbn [container_shown dataset_decisionId]. do 2 f_equal.
  destruct el as [pref bs]. cbn in P, L |- *. subst pref. f_equal.
  induction L as [|b bs Hb _ IH]; [reflexivity|].
  cbn [map]. rewrite IH. f_equal.
  destruct b as [v t c]. cbn in Hb |- *. f_equal.
  destruct save_preference_suffix as [S NI].
  rewrite S in Hb |- *. now apply remove_first_appended.
Qed.

Lemma preference_labels_restored_witness :
  decision_view (run Scenario.started
                   [(Scenario.offline, TogglePreference true);
                    (Scenario.offline, TogglePreference false)])
  = decision_view Scenario.started.
Proof.
  apply (preference_labels_restored Scenario.offline Scenario.offline
           Scenario.started Scenario.panelA eq_refl eq_refl).
  repeat constructor.
Defined.

(** ** The recommended option *)

Lemma strict_equal_eq a b : strict_equal a b = true -> a = b.
Proof.
  destruct a, b; cbn [strict_equal]; try discriminate; intros H.
  - reflexivity.
  - apply Bool.eqb_prop in H. now subst.
  - unfold Number_eqb in H. apply andb_true_iff in H. destruct H as [M E].
    apply Z.eqb_eq in M, E. destruct x, x0. cbn in M, E. now subst.
  - apply Bool.eqb_prop in H. now subst.
  - apply jsstring_eqb_eq in H. now subst.
Qed.

Lemma JSON_stringify_injective a b :
  wf_json a = true -> wf_json b = true ->
  JSON_stringify a = JSON_stringify b -> a = b.
Proof.
  intros Wa Wb E. apply JSON_parse_stringify in Wa, Wb.
  rewrite E in Wa. congruence.
Qed.

Lemma is_default_spec decision option dflt :
  Decision.default_option decision = Some dflt ->
  wf_json option = true -> wf_json dflt = true ->
  is_default decision option = true <-> truthy dflt = true /\ option = dflt.
Proof.
  intros D Wo Wd. unfold is_default. rewrite D.
  rewrite andb_true_iff, orb_true_iff, jsstring_eqb_eq. split.
  - intros [T [S|S]]; split; auto using strict_equal_eq,
      JSON_stringify_injective.
  - intros [T E]. subst. auto.
Qed.

(** X11.  The button marked as recommended is the button of the default
    option: when a decision with a default option, its texts free of
    markup, is rendered and the options up to the [n]-th have their
    labels, the button of the [n]-th
    option carries the class [default-option] exactly when the default is
    truthy and the option is equal to it, member for member and in the same
    order.  A default of [0], [false] or the empty string marks no button.
    The option and the default are values that a JSON text denotes, their
    numbers exact: an infinity is written [null] and would be taken for
    it. *)
Theorem recommended_button_is_the_default :
  forall decision w n option dflt,
    plain_texts decision = true ->
    nth_error (Decision.options decision) n = Some option ->
    (forall o, In o (firstn (S n) (Decision.options decision)) ->
               has_label o = true) ->
    Decision.default_option decision = Some dflt ->
    wf_json option = true ->
    wf_json dflt = true ->
    exact_numbers option = true ->
    exact_numbers dflt = true ->
    let shown := snd (renderDecision decision w) in
    exists el b,
      decision_el (decision_view shown) = Some el
      /\ nth_error (option_buttons el) n = Some b
      /\ (default_class b = true <-> truthy dflt = true /\ option = dflt).
Proof.
  intros decision w n option dflt Pt Hn L D Wo Wd Xo Xd shown.
  destruct (renderDecision_button decision w n option Hn L)
    as (sh & bs & b & Dv & Nb & _ & Mb).
  fold shown in Dv.
  exists (mkDecisionEl false bs), b.
  split; [now rewrite Dv|]. split; [exact Nb|].
  rewrite Mb. now apply is_default_spec.
Qed.

Lemma recommended_button_is_the_default_witness :
  let shown := snd (renderDecision Scenario.decisionB Scenario.started) in
  exists el b,
    decision_el (decision_view shown) = Some el
    /\ nth_error (option_buttons el) 0 = Some b
    /\ (default_class b = true <->
        truthy (JStr (js "upper")) = true
        /\ JStr (js "upper") = JStr (js "upper")).
Proof.
  refine (recommended_button_is_the_default Scenario.decisionB
            Scenario.started 0%nat (JStr (js "upper")) (JStr (js "upper"))
            eq_refl eq_refl _ eq_refl eq_refl eq_refl eq_refl eq_refl).
  intros o [H|[]]; subst o; reflexivity.
Defined.

(** ** What a completing resolve shows *)

(** X12.  When the response to a resolve reports the session completed and
    its result can be shown (it has a text, or there is none; its numbers
    are exact), the result of the response becomes the current result and
    the text of the output, and the evaluate button is enabled whether or
    not the response carries a result, while the download and copy buttons
    are enabled only if it carries a truthy one; the progress section
    counts the entry just recorded together with those recorded before. *)
Theorem completing_resolve_display :
  forall env d c w el data,
    decision_el (decision_view w) = Some el ->
    resolve_response env = Fetched data ->
    jsstring_eqb (ResolveData.status data) (js "success") = true ->
    jsstring_eqb (ResolveData.session_status data) (js "completed") = true ->
    shows (ResolveData.result data) = true ->
    (forall v, ResolveData.result data = Some v -> exact_numbers v = true) ->
    let w' := snd (resolveDecision env d c w) in
    currentResult (result_view w') = ResolveData.result data
    /\ evaluate_disabled (result_view w') = false
    /\ download_copy_disabled (result_view w') = falsy (ResolveData.result data)
    /\ output_text (result_view w') = text_of (ResolveData.result data)
    /\ progress (session_view w')
       = Some (S (length (conversionHistory (this w))))
    /\ toasts w' =
         toasts w ++ [mkToast (js "Conversion completed successfully") success].
Proof.
  intros env d c w el data H F S C Sh X w'. subst w'.
  rewrite (resolveDecision_succeeded env d c w el data H F S), C, Sh.
  cbv [bind modify updateResult show_container showToast enable_evaluate
       set_currentResult updateCompletionInfo spinner resolved].
  rewrite Sh.
  cbn [snd result_view session_view toasts this on_result on_session
       on_decision on_this add_toast add_request currentResult
       evaluate_disabled download_copy_disabled output_text progress
       conversionHistory].
  rewrite length_app. cbn [length]. rewrite Nat.add_1_r. repeat split.
Qed.

Lemma completing_resolve_display_witness :
  let w' := snd (resolveDecision Cases.completes_empty (js "A") (js "keep")
                   Scenario.started) in
  currentResult (result_view w') = None
  /\ evaluate_disabled (result_view w') = false
  /\ download_copy_disabled (result_view w') = falsy None
  /\ output_text (result_view w') = text_of None
  /\ progress (session_view w') = Some 1%nat
  /\ toasts w' =
       toasts Scenario.started
         ++ [mkToast (js "Conversion completed successfully") success].
Proof.
  refine (completing_resolve_display Cases.completes_empty (js "A")
            (js "keep") Scenario.started Scenario.panelA
            (ResolveData.make (js "success") 0 (js "completed") None None)
            eq_refl eq_refl eq_refl eq_refl eq_refl _).
  intros v E. discriminate E.
Defined.

(** * The evaluator *)

(** ** [escapeHtml] *)

Lemma replace_unit_app c r a b :
  replace_unit c r (a ++ b) = replace_unit c r a ++ replace_unit c r b.
Proof. apply flat_map_app. Qed.

Lemma replace_unit_absent c r s :
  forallb (fun x => negb (x =? c)) s = true -> replace_unit c r s = s.
Proof.
  induction s as [|x s IH]; [reflexivity|]. cbn [forallb]. intros H.
  apply andb_true_iff in H. destruct H as [X S].
  unfold replace_unit in *. cbn [flat_map].
  apply negb_true_iff in X. rewrite X. cbn [app]. now rewrite IH.
Qed.

Lemma escape_passes_unit c :
  replace_unit 39 (js "&#039;")
    (replace_unit 34 (js "&quot;")
       (replace_unit 62 (js "&gt;")
          (replace_unit 60 (js "&lt;")
             (replace_unit 38 (js "&amp;") [c])))) = entity c.
Proof.
  unfold entity.
  destruct (c =? 38) eqn:E1; [apply N.eqb_eq in E1; subst; reflexivity|].
  destruct (c =? 60) eqn:E2; [apply N.eqb_eq in E2; subst; reflexivity|].
  destruct (c =? 62) eqn:E3; [apply N.eqb_eq in E3; subst; reflexivity|].
  destruct (c =? 34) eqn:E4; [apply N.eqb_eq in E4; subst; reflexivity|].
  destruct (c =? 39) eqn:E5; [apply N.eqb_eq in E5; subst; reflexivity|].
  unfold replace_unit. cbn [flat_map app].
  rewrite E1. cbn [flat_map app]. rewrite E2. cbn [flat_map app].
  rewrite E3. cbn [flat_map app]. rewrite E4. cbn [flat_map app].
  now rewrite E5.
Qed.

(** The five passes amount to one: each unit of the text is replaced on its
    own, and no later pass touches what an earlier pass wrote. *)
Lemma escape_passes s :
  replace_unit 39 (js "&#039;")
    (replace_unit 34 (js "&quot;")
       (replace_unit 62 (js "&gt;")
          (replace_unit 60 (js "&lt;")
             (replace_unit 38 (js "&amp;") s)))) = flat_map entity s.
Proof.
  induction s as [|c s IH]; [reflexivity|].
  change (c :: s) with ([c] ++ s).
  rewrite !replace_unit_app, IH, escape_passes_unit. reflexivity.
Qed.

Lemma escapeHtml_entities str :
  escapeHtml str = if falsy str then [] else flat_map entity (String_ str).
Proof. unfold escapeHtml. now rewrite escape_passes. Qed.

Lemma entity_no_markup c : forallb (fun x => negb (is_markup x)) (entity c) = true.
Proof.
  unfold entity.
  destruct (c =? 38) eqn:E1; [reflexivity|].
  destruct (c =? 60) eqn:E2; [reflexivity|].
  destruct (c =? 62) eqn:E3; [reflexivity|].
  destruct (c =? 34) eqn:E4; [reflexivity|].
  destruct (c =? 39) eqn:E5; [reflexivity|].
  cbn [forallb]. unfold is_markup. now rewrite E2, E3, E4, E5.
Qed.

(** X13.  [escapeHtml] leaves no markup in its result: whatever value it is
    given, the text it returns holds no [<], no [>], no double quote and no
    single quote. *)
Theorem escapeHtml_leaves_no_markup :
  forall str, forallb (fun c => negb (is_markup c)) (escapeHtml str) = true.
Proof.
  intros str. rewrite escapeHtml_entities.
  destruct (falsy str); [reflexivity|].
  induction (String_ str) as [|c s IH]; [reflexivity|].
  cbn [flat_map]. rewrite forallb_app, entity_no_markup, IH. reflexivity.
Qed.

Lemma entity_head c :
  exists t, entity c = (if is_markup c || (c =? 38) then 38 else c) :: t
            /\ (is_markup c || (c =? 38) = false -> t = []).
Proof.
  unfold entity, is_markup.
  destruct (c =? 38) eqn:E1.
  { rewrite orb_true_r. eexists. split; [reflexivity | discriminate]. }
  destruct (c =? 60) eqn:E2.
  { eexists. split; [reflexivity | discriminate]. }
  destruct (c =? 62) eqn:E3.
  { eexists. split; [reflexivity | discriminate]. }
  destruct (c =? 34) eqn:E4.
  { eexists. split; [reflexivity | discriminate]. }
  destruct (c =? 39) eqn:E5.
  { eexists. split; [reflexivity | discriminate]. }
  exists []. split; reflexivity.
Qed.

(** The entities form a prefix code: a text of entities and plain units
    reads back in one way only. *)
Lemma entity_prefix_code a b s t :
  entity a ++ s = entity b ++ t -> a = b /\ s = t.
Proof.
  unfold entity.
  destruct (a =? 38) eqn:A1; [apply N.eqb_eq in A1|];
  [| destruct (a =? 60) eqn:A2; [apply N.eqb_eq in A2|];
     [| destruct (a =? 62) eqn:A3; [apply N.eqb_eq in A3|];
        [| destruct (a =? 34) eqn:A4; [apply N.eqb_eq in A4|];
           [| destruct (a =? 39) eqn:A5; [apply N.eqb_eq in A5|]]]]];
  (destruct (b =? 38) eqn:B1; [apply N.eqb_eq in B1|];
   [| destruct (b =? 60) eqn:B2; [apply N.eqb_eq in B2|];
      [| destruct (b =? 62) eqn:B3; [apply N.eqb_eq in B3|];
         [| destruct (b =? 34) eqn:B4; [apply N.eqb_eq in B4|];
            [| destruct (b =? 39) eqn:B5; [apply N.eqb_eq in B5|]]]]]);
  subst; intros H; vm_compute in H; inversion H; subst;
    try (split; reflexivity); try discriminate.
Qed.

Lemma flat_map_entity_injective a :
  forall b, flat_map entity a = flat_map entity b -> a = b.
Proof.
  induction a as [|x a IH]; intros [|y b] H; cbn [flat_map] in H.
  - reflexivity.
  - destruct (entity_head y) as (t & E & _). rewrite E in H. discriminate.
  - destruct (entity_head x) as (t & E & _). rewrite E in H. discriminate.
  - apply entity_prefix_code in H. destruct H as [E H]. subst.
    f_equal. now apply IH.
Qed.

(** X14.  [escapeHtml] loses nothing of a text: two different strings are
    never escaped to the same text.  (The ampersand is replaced first, so
    the ampersands that the later replacements write are not escaped
    again.) *)
Theorem escapeHtml_injective :
  forall a b,
    escapeHtml (Some (JStr a)) = escapeHtml (Some (JStr b)) -> a = b.
Proof.
  intros a b. rewrite !escapeHtml_entities. cbn [falsy truthy String_ ToString].
  destruct a as [|x a], b as [|y b]; cbn [negb]; intros H.
  - reflexivity.
  - cbn [flat_map] in H. destruct (entity_head y) as (t & E & _).
    rewrite E in H. discriminate.
  - cbn [flat_map] in H. destruct (entity_head x) as (t & E & _).
    rewrite E in H. discriminate.
  - now apply flat_map_entity_injective.
Qed.

Lemma escapeHtml_injective_witness :
  js "a<b" = js "a<b".
Proof.
  exact (escapeHtml_injective (js "a<b") (js "a<b") eq_refl).
Defined.

(** ** [parsePercentage] *)

Lemma span_digits_split s :
  s = fst (span_digits s) ++ snd (span_digits s).
Proof.
  induction s as [|c s IH]; [reflexivity|]. cbn [span_digits].
  destruct (is_digit c); [|reflexivity].
  destruct (span_digits s) as [ds rest]. cbn [fst snd] in *.
  now rewrite IH at 1.
Qed.

Lemma startsWith_In s c : startsWith s c = true -> In c s.
Proof.
  destruct s as [|x s]; [discriminate|]. cbn [startsWith]. intros H.
  apply N.eqb_eq in H. subst. now left.
Qed.

Lemma percent_at_percent s g : percent_at s = Some g -> In 37 s.
Proof.
  unfold percent_at. pose proof (span_digits_split s) as E.
  destruct (span_digits s) as [ip r]. cbn [fst snd] in E.
  destruct ip as [|d ip]; [discriminate|].
  destruct (startsWith r 37) eqn:P.
  - intros _. rewrite E. apply in_or_app. right. now apply startsWith_In.
  - destruct (startsWith r 46); [|discriminate].
    pose proof (span_digits_split (tl r)) as E2.
    destruct (span_digits (tl r)) as [fp r2]. cbn [fst snd] in E2.
    destruct fp as [|f fp]; [discriminate|].
    destruct (startsWith r2 37) eqn:P2; [|discriminate].
    intros _. rewrite E. apply in_or_app. right.
    destruct r as [|x r]; [discriminate|]. right. cbn [tl] in E2.
    rewrite E2. apply in_or_app. right. now apply startsWith_In.
Qed.

Lemma percent_exec_percent s g : percent_exec s = Some g -> In 37 s.
Proof.
  induction s as [|c s IH]; cbn [percent_exec].
  - destruct (percent_at []) eqn:E; [|discriminate].
    intros _. now apply percent_at_percent in E.
  - destruct (percent_at (c :: s)) eqn:E.
    + intros _. now apply percent_at_percent in E.
    + intros H. right. now apply IH.
Qed.

Lemma forallb_digits_unit ds :
  forallb is_digit ds = true -> forallb number_unit ds = true.
Proof.
  intros H. rewrite forallb_forall in *. intros c I.
  unfold number_unit. now rewrite (H c I).
Qed.

Lemma Number_toString_units x :
  forallb number_unit (Number_toString x) = true.
Proof.
  assert (D : forall n, forallb number_unit (digits n) = true)
    by (intro; apply forallb_digits_unit, digits_are_digits).
  assert (Z0 : forall k, forallb number_unit (zeros k) = true)
    by (intro; apply forallb_digits_unit, forallb_zeros).
  assert (FS : forall k s, forallb number_unit s = true ->
                 forallb number_unit (firstn k s) = true
                 /\ forallb number_unit (skipn k s) = true)
    by (intros; now apply forallb_firstn_skipn).
  unfold Number_toString.
  destruct (mant x =? 0)%Z; [reflexivity|].
  set (s := digits (Z.abs_N (mant x))).
  assert (S : forallb number_unit s = true) by apply D.
  rewrite forallb_app. apply andb_true_iff. split.
  { now destruct (mant x <? 0)%Z. }
  assert (X : forallb number_unit
                (101 :: (if (0 <=? Z.of_nat (length s) + expo x - 1)%Z
                         then 43 else 45)
                     :: digits (Z.abs_N (Z.of_nat (length s) + expo x - 1)))
              = true).
  { cbn [forallb]. rewrite D.
    now destruct (0 <=? Z.of_nat (length s) + expo x - 1)%Z. }
  repeat match goal with
         | |- context [if ?b then _ else _] => destruct b
         end;
    repeat (rewrite ?forallb_app; cbn [forallb]);
    rewrite ?S, ?Z0, ?X, ?D, ?(proj1 (FS _ s S)), ?(proj2 (FS _ s S));
    reflexivity.
Qed.

Lemma number_unit_not_percent s :
  forallb number_unit s = true -> ~ In 37 s.
Proof.
  intros H I. rewrite forallb_forall in H. specialize (H 37 I).
  discriminate.
Qed.

(** X15.  An accuracy that arrives as a number is read as zero.  The class
    body holds two methods named [parsePercentage]; the second, which looks
    for digits followed by a percent sign in the text of its argument,
    replaces the first, which returned a number as it is.  The text of a
    number has no percent sign, so the accuracy is 0 and the quality level
    of the summary is the lowest one, whatever the number. *)
Theorem numeric_accuracy_read_as_zero :
  forall x,
    parsePercentage (Some (JNum x)) = mkNumber 0 0
    /\ qualityLevel (parsePercentage (Some (JNum x)))
       = js "Needs Improvement".
Proof.
  intros x.
  assert (E : parsePercentage (Some (JNum x)) = mkNumber 0 0).
  { unfold parsePercentage. cbn [String_ ToString].
    destruct (percent_exec (Number_toString x)) as [g|] eqn:P;
      [|reflexivity].
    apply percent_exec_percent in P.
    now apply number_unit_not_percent in P; [|apply Number_toString_units]. }
  rewrite E. split; reflexivity.
Qed.

(** * The conversion form *)

(** ** The file held and the file shown *)

(** X16.  A selection that [Converter] does not take still changes what the
    page shows.  When the file input is emptied, or holds a file whose
    extension does not fit the source format, [Converter] keeps the file it
    held before (or none), while the listener of [ui.js] on the same input
    shows the new file as selected and enables the validate and metadata
    buttons, or hides the file and disables them: the file shown and the
    file held differ. *)
Theorem untaken_selection_changes_the_display_only :
  forall toLowerCase toUpperCase p file,
    not_taken toLowerCase file p = true ->
    let p' := dispatch toLowerCase toUpperCase p (Form.FileChosen file) in
    Form.currentFile p' = Form.currentFile p
    /\ Form.fileInfo p' = file
    /\ Form.validateDisabled p'
       = match file with Some _ => false | None => true end
    /\ Form.metadataDisabled p'
       = match file with Some _ => false | None => true end
    /\ Form.toasts p' =
         Form.toasts p
           ++ match file with
              | Some _ =>
                  [mkToast (invalid_format_message toUpperCase
                              (Form.sourceFormat p)) error]
              | None => []
              end.
Proof.
  intros toLowerCase toUpperCase p [f|] H p'; subst p'; cbn [dispatch].
  - cbn [not_taken] in H. apply negb_true_iff in H.
    unfold handleFileSelection, updateFileInfo.
    cbn [Form.sourceFormat Form.name]. rewrite H. repeat split.
  - cbn. rewrite app_nil_r. repeat split.
Qed.

Lemma untaken_selection_changes_the_display_only_witness :
  let p := events (map lower_ascii) (map upper_ascii) Form.initial
             [Form.FileChosen (Some (Form.mkFile (js "kyrie.xml") 2048))] in
  let file := Some (Form.mkFile (js "gloria.json") 512) in
  let p' := dispatch (map lower_ascii) (map upper_ascii) p
              (Form.FileChosen file) in
  Form.currentFile p' = Form.currentFile p
  /\ Form.fileInfo p' = file
  /\ Form.validateDisabled p' = false
  /\ Form.metadataDisabled p' = false
  /\ Form.toasts p' =
       Form.toasts p
         ++ [mkToast (js "Invalid file format. Expected .xml or .cmme file for CMME format")
                     error].
Proof.
  exact (untaken_selection_changes_the_display_only
           (map lower_ascii) (map upper_ascii)
           (events (map lower_ascii) (map upper_ascii) Form.initial
              [Form.FileChosen (Some (Form.mkFile (js "kyrie.xml") 2048))])
           (Some (Form.mkFile (js "gloria.json") 512)) eq_refl).
Defined.

Lemma dispatch_currentFile toLowerCase toUpperCase p e :
  Form.currentFile p <> None ->
  Form.currentFile (dispatch toLowerCase toUpperCase p e) <> None.
Proof.
  intros H. destruct e as [v|v|[f|]]; cbn [dispatch].
  - destruct (existsb _ _); exact H.
  - destruct (existsb _ _); exact H.
  - unfold handleFileSelection, updateFileInfo.
    cbn [Form.sourceFormat Form.name].
    destruct (valid_extension _ _ _); cbn; [discriminate | exact H].
  - exact H.
Qed.

(** X17.  [Converter.currentFile] is never unset: once a file has been
    taken, every later event of the form (a change of either format, a new
    file, a file of the wrong kind, an emptied file input) leaves the
    converter with a file, so a start of an interactive session never fails
    for want of a file again. *)
Theorem current_file_never_unset :
  forall toLowerCase toUpperCase p l,
    Form.currentFile p <> None ->
    Form.currentFile (events toLowerCase toUpperCase p l) <> None.
Proof.
  intros toLowerCase toUpperCase p l. revert p.
  induction l as [|e l IH]; intros p H; cbn [events fold_left].
  - exact H.
  - apply IH. now apply dispatch_currentFile.
Qed.

Lemma current_file_never_unset_witness :
  Form.currentFile
    (events (map lower_ascii) (map upper_ascii)
       (dispatch (map lower_ascii) (map upper_ascii) Form.initial
          (Form.FileChosen (Some (Form.mkFile (js "kyrie.xml") 2048))))
       [Form.SourceChanged (js "json"); Form.FileChosen None;
        Form.FileChosen (Some (Form.mkFile (js "kyrie.pdf") 100))]) <> None.
Proof.
  apply (current_file_never_unset (map lower_ascii) (map upper_ascii)).
  discriminate.
Defined.

(** ** The two formats *)

Lemma jsstring_eqb_refl a : jsstring_eqb a a = true.
Proof. now apply jsstring_eqb_eq. Qed.

Lemma formats_differ_spec p :
  formats_differ p = true -> Form.sourceFormat p <> Form.targetFormat p.
Proof.
  unfold formats_differ. intros H E. rewrite E in H.
  now destruct (existsb _ _).
Qed.

Lemma source_changed_formats_differ toLowerCase toUpperCase p v :
  In v Form.sourceOptions ->
  formats_differ (dispatch toLowerCase toUpperCase p (Form.SourceChanged v))
  = true.
Proof.
  intros [E|[E|[E|[]]]]; subst v; reflexivity.
Qed.

Lemma dispatch_formats_differ toLowerCase toUpperCase p e :
  formats_differ p = true ->
  formats_differ (dispatch toLowerCase toUpperCase p e) = true.
Proof.
  intros H. destruct e as [v|v|file]; cbn [dispatch].
  - destruct (existsb (jsstring_eqb v) Form.sourceOptions) eqn:E;
      [|exact H].
    assert (I : In v Form.sourceOptions).
    { apply existsb_exists in E. destruct E as (x & I & E).
      apply jsstring_eqb_eq in E. now subst. }
    pose proof (source_changed_formats_differ toLowerCase toUpperCase p v I)
      as Q.
    cbn [dispatch] in Q. now rewrite E in Q.
  - destruct (existsb (jsstring_eqb v) (Form.targetOptions p)) eqn:E;
      [|exact H].
    unfold formats_differ in *. cbn [Form.sourceFormat Form.targetOptions
                                      Form.targetFormat].
    rewrite E. apply andb_true_iff in H. destruct H as [H _].
    now rewrite H.
  - destruct file as [f|]; unfold handleFileSelection, updateFileInfo;
      cbn [Form.sourceFormat Form.name];
      [destruct (valid_extension _ _ _)|]; exact H.
Qed.

(** X18.  Once the source format has been changed, the two formats differ
    for good: the change rebuilds the target select from the formats other
    than the new source and selects the first of them, and whatever the
    user does to the form afterwards, the target is picked among options
    that leave the source out.  (On the page as loaded the target select
    still offers the source format.) *)
Theorem formats_differ_after_a_source_change :
  forall toLowerCase toUpperCase p v l,
    In v Form.sourceOptions ->
    let p' := events toLowerCase toUpperCase
                (dispatch toLowerCase toUpperCase p (Form.SourceChanged v)) l in
    Form.sourceFormat p' <> Form.targetFormat p'.
Proof.
  intros toLowerCase toUpperCase p v l I p'. apply formats_differ_spec.
  subst p'.
  pose proof (source_changed_formats_differ toLowerCase toUpperCase p v I)
    as H.
  revert H. generalize (dispatch toLowerCase toUpperCase p
                          (Form.SourceChanged v)).
  induction l as [|e l IH]; intros q H; cbn [events fold_left].
  - exact H.
  - apply IH. now apply dispatch_formats_differ.
Qed.

Lemma formats_differ_after_a_source_change_witness :
  let p' := events (map lower_ascii) (map upper_ascii)
              (dispatch (map lower_ascii) (map upper_ascii) Form.initial
                 (Form.SourceChanged (js "mei")))
              [Form.TargetChanged (js "mei"); Form.TargetChanged (js "json");
               Form.SourceChanged (js "json")] in
  Form.sourceFormat p' <> Form.targetFormat p'.
Proof.
  apply (formats_differ_after_a_source_change
           (map lower_ascii) (map upper_ascii) Form.initial (js "mei")).
  right. now left.
Defined.

(** ** The extension of a file name *)

Lemma split_nonempty sep s : split sep s <> [].
Proof.
  destruct s as [|c r]; cbn [split]; [discriminate|].
  destruct (c =? sep); [discriminate|].
  destruct (split sep r); discriminate.
Qed.

Lemma split_whole sep s :
  forallb (fun c => negb (c =? sep)) s = true -> split sep s = [s].
Proof.
  induction s as [|c r IH]; [reflexivity|]. cbn [forallb split]. intros H.
  apply andb_true_iff in H. destruct H as [C R].
  apply negb_true_iff in C. rewrite C, (IH R). reflexivity.
Qed.

Lemma split_app sep a b :
  forallb (fun c => negb (c =? sep)) b = true ->
  split sep (a ++ sep :: b) = split sep a ++ [b].
Proof.
  intros B. induction a as [|c a IH]; cbn [app split].
  - now rewrite N.eqb_refl, split_whole.
  - destruct (c =? sep); rewrite IH; [reflexivity|].
    pose proof (split_nonempty sep a) as NE.
    destruct (split sep a) as [|p ps]; [now elim NE | reflexivity].
Qed.

Lemma last_separator sep s :
  forallb (fun c => negb (c =? sep)) s = true
  \/ exists a b, s = a ++ sep :: b
                 /\ forallb (fun c => negb (c =? sep)) b = true.
Proof.
  induction s as [|c r IH]; [now left|].
  destruct IH as [R|(a & b & E & B)].
  - destruct (c =? sep) eqn:C.
    + right. exists [], r. apply N.eqb_eq in C. subst. auto.
    + left. cbn [forallb]. now rewrite C, R.
  - right. exists (c :: a), b. subst. auto.
Qed.

Lemma last_snoc {A} (l : list A) x d : last (l ++ [x]) d = x.
Proof.
  induction l as [|y l IH]; [reflexivity|].
  cbn [app]. destruct (l ++ [x]) eqn:E; [now destruct l | exact IH].
Qed.

Lemma lower_ascii_point c : lower_ascii c = 46 <-> c = 46.
Proof.
  unfold lower_ascii. split.
  - destruct ((65 <=? c) && (c <=? 90)) eqn:E; [|auto].
    apply andb_true_iff in E. destruct E as [L U].
    apply N.leb_le in L, U. lia.
  - intros E. subst. reflexivity.
Qed.

Lemma no_point_lower s :
  forallb (fun c => negb (c =? 46)) (map lower_ascii s)
  = forallb (fun c => negb (c =? 46)) s.
Proof.
  induction s as [|c s IH]; [reflexivity|]. cbn [map forallb].
  rewrite IH. f_equal. f_equal.
  destruct (c =? 46) eqn:E.
  - apply N.eqb_eq in E. subst. reflexivity.
  - apply N.eqb_neq. intros Q. apply (proj1 (lower_ascii_point c)) in Q.
    apply N.eqb_neq in E. contradiction.
Qed.

Lemma validExtensions_no_point sourceFormat ext :
  In ext (validExtensions sourceFormat) ->
  forallb (fun c => negb (c =? 46)) ext = true.
Proof.
  unfold validExtensions.
  destruct (jsstring_eqb sourceFormat (js "json")).
  { intros [E|[]]; subst; reflexivity. }
  destruct (jsstring_eqb sourceFormat (js "mei")).
  { intros [E|[E|[]]]; subst; reflexivity. }
  destruct (jsstring_eqb sourceFormat (js "cmme")).
  { intros [E|[E|[]]]; subst; reflexivity. }
  intros [].
Qed.

(** X19.  Which files [Converter] takes, for a name of ASCII characters: a
    file is taken exactly when its name in lower case is one of the
    extensions of the source format ([json]; [xml] or [mei]; [xml] or
    [cmme]) or ends with a point followed by one of them.  The extension is
    what follows the last point of the name, and the whole name when it has
    no point: a file named [xml] is taken as an XML file. *)
Theorem file_taken_by_its_extension :
  forall toLowerCase sourceFormat name,
    (forall s, forallb is_ascii s = true ->
               toLowerCase s = map lower_ascii s) ->
    forallb is_ascii name = true ->
    valid_extension toLowerCase sourceFormat name = true <->
    exists ext,
      In ext (validExtensions sourceFormat)
      /\ (map lower_ascii name = ext
          \/ endsWith (map lower_ascii name) (46 :: ext) = true).
Proof.
  intros toLowerCase sourceFormat name L A.
  unfold valid_extension, extension. rewrite existsb_exists.
  destruct (last_separator 46 name) as [W|(a & b & E & B)].
  - (* no point in the name *)
    rewrite (split_whole 46 name W). cbn [last]. rewrite (L name A). split.
    + intros (ext & I & Q). apply jsstring_eqb_eq in Q.
      exists ext. auto.
    + intros (ext & I & [Q|Q]).
      * exists ext. split; [exact I | now apply jsstring_eqb_eq].
      * exfalso. unfold endsWith in Q. apply has_prefix_spec in Q.
        destruct Q as [r Hr].
        apply (f_equal (@rev N)) in Hr.
        rewrite rev_involutive, rev_app_distr, rev_involutive in Hr.
        pose proof (no_point_lower name) as P. rewrite W, Hr in P.
        rewrite forallb_app in P. cbn in P.
        now rewrite andb_false_r in P.
  - (* the name has a last point *)
    subst name. rewrite (split_app 46 a b B), last_snoc.
    rewrite forallb_app in A. apply andb_true_iff in A.
    destruct A as [Aa Ab]. cbn [forallb] in Ab.
    apply andb_true_iff in Ab. destruct Ab as [_ Ab].
    rewrite (L b Ab). split.
    + intros (ext & I & Q). apply jsstring_eqb_eq in Q.
      exists ext. split; [exact I|]. right.
      unfold endsWith. rewrite map_app. cbn [map].
      replace (lower_ascii 46) with 46 by reflexivity.
      rewrite Q, rev_app_distr. apply has_prefix_self.
    + intros (ext & I & [Q|Q]).
      * exfalso. pose proof (validExtensions_no_point _ _ I) as P.
        rewrite <- Q, no_point_lower, forallb_app in P. cbn in P.
        now rewrite andb_false_r in P.
      * exists ext. split; [exact I|]. apply jsstring_eqb_eq.
        unfold endsWith in Q. apply has_prefix_spec in Q.
        destruct Q as [r Hr]. apply (f_equal (@rev N)) in Hr.
        rewrite rev_involutive, rev_app_distr, rev_involutive in Hr.
        rewrite map_app in Hr. cbn [map] in Hr.
        replace (lower_ascii 46) with 46 in Hr by reflexivity.
        pose proof (validExtensions_no_point _ _ I) as P.
        assert (Pb : forallb (fun c => negb (c =? 46)) (map lower_ascii b)
                     = true) by now rewrite no_point_lower.
        clear - Hr P Pb.
        revert Hr. generalize (map lower_ascii a) (rev r).
        generalize dependent (map lower_ascii b).
        intros x Px l1 l2. revert l2.
        induction l1 as [|c l1 IH]; intros [|d l2] H; cbn [app] in H.
        -- now inversion H.
        -- inversion H as [[C T]]. subst d. rewrite T in Px.
           rewrite forallb_app in Px. cbn in Px.
           now rewrite andb_false_r in Px.
        -- inversion H as [[C T]]. subst c. rewrite <- T in P.
           rewrite forallb_app in P. cbn in P.
           now rewrite andb_false_r in P.
        -- inversion H as [[C T]]. now apply (IH l2).
Qed.

Lemma file_taken_by_its_extension_witness :
  valid_extension (map lower_ascii) (js "mei") (js "Kyrie.MEI") = true <->
  exists ext,
    In ext (validExtensions (js "mei"))
    /\ (map lower_ascii (js "Kyrie.MEI") = ext
        \/ endsWith (map lower_ascii (js "Kyrie.MEI")) (46 :: ext) = true).
Proof.
  exact (file_taken_by_its_extension (map lower_ascii) (js "mei")
           (js "Kyrie.MEI") (fun s _ => eq_refl) eq_refl).
Defined.

(** * Pretty printing of XML *)

Lemma tag_gap_shorter s r : tag_gap s = Some r -> (length r < length s)%nat.
Proof.
  destruct s as [|c t]; [discriminate|]. cbn [tag_gap].
  destruct (c =? 62); [|discriminate].
  assert (L : forall u, (length (skip_space u) <= length u)%nat).
  { induction u as [|x u IH]; [auto|]. cbn [skip_space].
    destruct (is_space x); cbn [length]; lia. }
  specialize (L t). destruct (skip_space t) as [|d r']; [discriminate|].
  destruct (d =? 60); [|discriminate].
  intros E. inversion E. subst. cbn [length] in *. lia.
Qed.

Lemma split_tags_fuel_enough fuel :
  forall s fuel', (length s <= fuel)%nat -> (length s <= fuel')%nat ->
    split_tags_fuel fuel s = split_tags_fuel fuel' s.
Proof.
  induction fuel as [|fuel IH]; intros s fuel' L L'.
  - destruct s; [now destruct fuel' | cbn in L; lia].
  - destruct s as [|c r]; [now destruct fuel'|].
    destruct fuel' as [|fuel']; [cbn in L'; lia|].
    cbn [split_tags_fuel]. cbn [length] in L, L'.
    destruct (tag_gap (c :: r)) as [r'|] eqn:G.
    + apply tag_gap_shorter in G. cbn [length] in G.
      f_equal. apply IH; lia.
    + rewrite (IH r fuel') by lia. reflexivity.
Qed.

Lemma split_tags_nil : split_tags [] = [[]].
Proof. reflexivity. Qed.

Lemma split_tags_cons c r :
  split_tags (c :: r) =
  match tag_gap (c :: r) with
  | Some r' => [] :: split_tags r'
  | None =>
      match split_tags r with
      | p :: ps => (c :: p) :: ps
      | [] => [[c]]
      end
  end.
Proof.
  unfold split_tags. cbn [length split_tags_fuel].
  destruct (tag_gap (c :: r)) as [r'|] eqn:G.
  - apply tag_gap_shorter in G. cbn [length] in G.
    f_equal. apply split_tags_fuel_enough; lia.
  - reflexivity.
Qed.

Lemma split_tags_nonempty s : split_tags s <> [].
Proof.
  destruct s as [|c r]; [discriminate|]. rewrite split_tags_cons.
  destruct (tag_gap _); [discriminate|].
  destruct (split_tags r); discriminate.
Qed.

Lemma skip_space_app_spaces w s :
  forallb is_space w = true -> skip_space (w ++ s) = skip_space s.
Proof.
  induction w as [|c w IH]; [reflexivity|]. cbn [forallb app skip_space].
  intros H. apply andb_true_iff in H. destruct H as [C W].
  rewrite C. now apply IH.
Qed.

Lemma tag_gap_none_iff r :
  tag_gap (62 :: r) = None <-> opens_after_space r = false.
Proof.
  unfold opens_after_space. cbn [tag_gap]. rewrite N.eqb_refl.
  destruct (skip_space r) as [|d r']; [now split|].
  cbn [startsWith]. destruct (d =? 60); split; congruence.
Qed.

Lemma first_piece s :
  exists p ps,
    split_tags s = p :: ps
    /\ ((ps = [] /\ s = p) \/ (ps <> [] /\ exists rest, s = p ++ 62 :: rest)).
Proof.
  induction s as [|c r IH].
  - exists [], []. split; [reflexivity | now left].
  - rewrite split_tags_cons.
    destruct (tag_gap (c :: r)) as [r'|] eqn:G.
    + exists [], (split_tags r'). split; [reflexivity|]. right.
      split; [apply split_tags_nonempty|]. exists r.
      cbn [tag_gap] in G. destruct (c =? 62) eqn:C; [|discriminate].
      apply N.eqb_eq in C. now subst.
    + destruct IH as (p & ps & E & D). rewrite E.
      exists (c :: p), ps. split; [reflexivity|].
      destruct D as [[D1 D2]|[D1 [rest D2]]]; subst.
      * now left.
      * right. split; [exact D1|]. now exists rest.
Qed.

Lemma weave_first_piece p ps ws :
  (ps = [] /\ weave (p :: ps) ws = p)
  \/ (ps <> [] /\ exists rest, weave (p :: ps) ws = p ++ 62 :: rest).
Proof.
  destruct ps as [|q ps]; [now left|]. right. split; [discriminate|].
  cbn [weave]. eauto.
Qed.

Lemma opens_after_space_piece p rest rest' :
  (rest = [] \/ exists t, rest = 62 :: t) ->
  (rest' = [] \/ exists t, rest' = 62 :: t) ->
  opens_after_space (p ++ rest) = opens_after_space (p ++ rest').
Proof.
  intros R R'. unfold opens_after_space.
  induction p as [|c p IH]; cbn [app].
  - destruct R as [R|[t R]], R' as [R'|[t' R']]; subst; reflexivity.
  - cbn [skip_space]. destruct (is_space c); [exact IH | reflexivity].
Qed.

Lemma weave_cons_head c p ps ws :
  weave ((c :: p) :: ps) ws = c :: weave (p :: ps) ws.
Proof. destruct ps; reflexivity. Qed.

Lemma weave_gap ns ws :
  ns <> [] ->
  weave ([] :: ns) ws = 62 :: hd [] ws ++ 60 :: weave ns (tl ws).
Proof. destruct ns; [now intros [] | reflexivity]. Qed.

(** Splitting the nodes of a text that were put together again, with any
    white space in the gaps, gives the nodes back. *)
Lemma split_tags_weave n :
  forall s ws,
    (length s <= n)%nat ->
    Forall (fun w => forallb is_space w = true) ws ->
    split_tags (weave (split_tags s) ws) = split_tags s.
Proof.
  induction n as [|n IH]; intros s ws L W.
  - destruct s; [reflexivity | cbn in L; lia].
  - destruct s as [|c r]; [reflexivity|]. cbn [length] in L.
    rewrite split_tags_cons.
    destruct (tag_gap (c :: r)) as [r'|] eqn:G.
    + pose proof (tag_gap_shorter _ _ G) as Sh. cbn [length] in Sh.
      rewrite weave_gap by apply split_tags_nonempty.
      rewrite split_tags_cons. cbn [tag_gap].
      rewrite N.eqb_refl.
      assert (Wh : forallb is_space (hd [] ws) = true)
        by (destruct W; [reflexivity | assumption]).
      rewrite (skip_space_app_spaces _ _ Wh). cbn [skip_space].
      replace (is_space 60) with false by reflexivity.
      rewrite N.eqb_refl. f_equal. apply IH; [lia|].
      destruct W; [constructor | assumption].
    + destruct (first_piece r) as (p & ps & E & D).
      pose proof (IH r ws ltac:(lia) W) as I. unfold jsstring in *.
      rewrite E in I |- *.
      rewrite weave_cons_head, split_tags_cons, I.
      assert (N0 : tag_gap (c :: weave (p :: ps) ws) = None).
      { cbn [tag_gap] in G |- *. destruct (c =? 62) eqn:C; [|reflexivity].
        apply N.eqb_eq in C. subst c.
        change (tag_gap (62 :: r) = None) in G.
        change (tag_gap (62 :: weave (p :: ps) ws) = None).
        apply tag_gap_none_iff in G. apply tag_gap_none_iff.
        rewrite <- G.
        destruct (weave_first_piece p ps ws) as [[V1 V2]|[V1 [rest' V2]]];
          unfold jsstring in *.
        - destruct D as [[D1 D2]|[D1 _]]; [|contradiction].
          now rewrite V2, D2.
        - destruct D as [[D1 _]|[_ [rest D2]]]; [contradiction|].
          rewrite V2, D2.
          apply opens_after_space_piece; right; eauto. }
      now rewrite N0.
Qed.

Lemma spaces_skipn k (i : jsstring) :
  forallb (fun c => c =? 32) i = true ->
  forallb (fun c => c =? 32) (skipn k i) = true.
Proof.
  revert i. induction k as [|k IH]; intros [|c i] H; try exact H.
  cbn [skipn]. apply IH. cbn [forallb] in H.
  now apply andb_true_iff in H.
Qed.

Lemma indent_of_spaces node i :
  forallb (fun c => c =? 32) i = true ->
  forallb (fun c => c =? 32) (indent_of node i) = true.
Proof.
  intros H. unfold indent_of.
  destruct (closing_tag node); [now apply spaces_skipn | exact H].
Qed.

Lemma indent_after_spaces node i :
  forallb (fun c => c =? 32) i = true ->
  forallb (fun c => c =? 32) (indent_after node i) = true.
Proof.
  intros H. unfold indent_after.
  destruct (opening_tag node); [|now apply indent_of_spaces].
  rewrite forallb_app, indent_of_spaces by exact H. reflexivity.
Qed.

Lemma gaps_of_spaces ns :
  forall i, forallb (fun c => c =? 32) i = true ->
    Forall (fun w => forallb is_space w = true) (gaps_of ns i).
Proof.
  induction ns as [|n ns IH]; intros i H; cbn [gaps_of]; [constructor|].
  destruct ns as [|n' ns]; [constructor|].
  constructor.
  - cbn [app forallb]. cbn.
    pose proof (indent_of_spaces n' _ (indent_after_spaces n i H)) as Q.
    rewrite forallb_forall in *. intros c I. specialize (Q c I).
    apply N.eqb_eq in Q. now subst.
  - apply IH. now apply indent_after_spaces.
Qed.

(** The text the loop of [formatXML] builds. *)
Lemma fold_format_node ns :
  forall st n,
    fst (fold_left format_node (n :: ns) st) =
    fst st ++ indent_of n (snd st)
      ++ 60 :: weave (n :: ns) (gaps_of (n :: ns) (snd st)) ++ [62; 13; 10].
Proof.
  induction ns as [|n' ns IH]; intros st n.
  - reflexivity.
  - change (fold_left format_node (n :: n' :: ns) st)
      with (fold_left format_node (n' :: ns) (format_node st n)).
    rewrite IH.
    change (snd (format_node st n)) with (indent_after n (snd st)).
    change (fst (format_node st n))
      with (fst st ++ indent_of n (snd st) ++ [60] ++ n ++ [62; 13; 10]).
    change (gaps_of (n :: n' :: ns) (snd st))
      with (([13; 10] ++ indent_of n' (indent_after n (snd st)))
              :: gaps_of (n' :: ns) (indent_after n (snd st))).
    change (weave (n :: n' :: ns) (?w :: ?ws))
      with (n ++ 62 :: w ++ 60 :: weave (n' :: ns) ws).
    rewrite <- !app_assoc. cbn [app]. rewrite <- !app_assoc. reflexivity.
Qed.

Lemma substring_inner c (s : jsstring) x y z :
  substring 1 (length (c :: s ++ [x; y; z]) - 3) (c :: s ++ [x; y; z]) = s.
Proof.
  unfold substring. cbn [length]. rewrite length_app. cbn [length].
  replace (S (length s + 3) - 3)%nat with (S (length s)) by lia.
  replace (Nat.min 1 (S (length s + 3))) with 1%nat by lia.
  replace (Nat.min (S (length s)) (S (length s + 3))) with (S (length s))
    by lia.
  replace (Nat.max 1 (S (length s))) with (S (length s)) by lia.
  replace (Nat.min 1 (S (length s))) with 1%nat by lia.
  cbn [skipn]. replace (S (length s) - 1)%nat with (length s) by lia.
  rewrite firstn_app, firstn_all, Nat.sub_diag. cbn [firstn].
  now rewrite app_nil_r.
Qed.

Lemma layout_weave n ns :
  layout (n :: ns) = weave (n :: ns) (gaps_of (n :: ns) []).
Proof.
  unfold layout. rewrite fold_format_node. cbn [fst snd app].
  replace (indent_of n []) with (@nil N)
    by (unfold indent_of; now destruct (closing_tag n)).
  cbn [app]. apply substring_inner.
Qed.

Lemma formatXML_layout xml : formatXML xml = layout (split_tags xml).
Proof. reflexivity. Qed.

(** X20.  [formatXML] changes nothing but the white space between a [>]
    and the [<] that follows it: cut at these places, the text it returns
    gives the same pieces as the text it was given.  So the text is
    formatted once and for all: formatting the result again returns it
    unchanged. *)
Theorem formatXML_keeps_the_nodes :
  forall xml,
    split_tags (formatXML xml) = split_tags xml
    /\ formatXML (formatXML xml) = formatXML xml.
Proof.
  intros xml.
  assert (E : split_tags (formatXML xml) = split_tags xml).
  { rewrite formatXML_layout.
    pose proof (split_tags_nonempty xml) as NE.
    destruct (split_tags xml) as [|n ns] eqn:S; [now elim NE|].
    rewrite layout_weave, <- S.
    apply (split_tags_weave (length xml)); [lia|].
    now apply gaps_of_spaces. }
  split; [exact E|].
  rewrite (formatXML_layout (formatXML xml)), E. reflexivity.
Qed.

(** * The attribute editor *)

(** ** Attributes *)

Lemma getAttribute_absent name attrs :
  ~ In name (map fst attrs) -> Xml.getAttribute name attrs = None.
Proof.
  induction attrs as [|[k v] rest IH]; [reflexivity|]. cbn [map fst In].
  intros H. cbn [Xml.getAttribute].
  destruct (jsstring_eqb k name) eqn:E.
  - apply jsstring_eqb_eq in E. elim H. now left.
  - apply IH. intros I. apply H. now right.
Qed.

Lemma get_set_same name value attrs :
  Xml.getAttribute name (Xml.set name value attrs) = Some value.
Proof.
  induction attrs as [|[k v] rest IH]; cbn [Xml.set Xml.getAttribute].
  - now rewrite (proj2 (jsstring_eqb_eq name name) eq_refl).
  - destruct (jsstring_eqb k name) eqn:E; cbn [Xml.getAttribute];
      now rewrite E.
Qed.

Lemma get_set_other name other value attrs :
  name <> other ->
  Xml.getAttribute other (Xml.set name value attrs)
  = Xml.getAttribute other attrs.
Proof.
  intros D. induction attrs as [|[k v] rest IH];
    cbn [Xml.set Xml.getAttribute].
  - destruct (jsstring_eqb name other) eqn:E; [|reflexivity].
    apply jsstring_eqb_eq in E. contradiction.
  - destruct (jsstring_eqb k name) eqn:E; cbn [Xml.getAttribute].
    + apply jsstring_eqb_eq in E. subst k.
      destruct (jsstring_eqb name other) eqn:E2; [|reflexivity].
      apply jsstring_eqb_eq in E2. contradiction.
    + now rewrite IH.
Qed.

Lemma get_remove_same name attrs :
  NoDup (map fst attrs) ->
  Xml.getAttribute name (Xml.removeAttribute name attrs) = None.
Proof.
  induction attrs as [|[k v] rest IH]; [reflexivity|].
  cbn [map fst]. intros N. inversion N as [|x l NI N']; subst.
  cbn [Xml.removeAttribute].
  destruct (jsstring_eqb k name) eqn:E.
  - apply jsstring_eqb_eq in E. subst k. now apply getAttribute_absent.
  - cbn [Xml.getAttribute]. rewrite E. now apply IH.
Qed.

Lemma get_remove_other name other attrs :
  name <> other ->
  Xml.getAttribute other (Xml.removeAttribute name attrs)
  = Xml.getAttribute other attrs.
Proof.
  intros D. induction attrs as [|[k v] rest IH]; [reflexivity|].
  cbn [Xml.removeAttribute Xml.getAttribute].
  destruct (jsstring_eqb k name) eqn:E; cbn [Xml.getAttribute].
  - apply jsstring_eqb_eq in E. subst k.
    destruct (jsstring_eqb name other) eqn:E2; [|reflexivity].
    apply jsstring_eqb_eq in E2. contradiction.
  - now rewrite IH.
Qed.

Lemma set_names name value attrs x :
  In x (map fst (Xml.set name value attrs)) ->
  x = name \/ In x (map fst attrs).
Proof.
  induction attrs as [|[k v] rest IH]; cbn [Xml.set map fst In].
  - intros [E|[]]. now left.
  - destruct (jsstring_eqb k name); cbn [map fst In].
    + intros [E|I]; auto.
    + intros [E|I]; auto. destruct (IH I); auto.
Qed.

Lemma NoDup_set name value attrs :
  NoDup (map fst attrs) -> NoDup (map fst (Xml.set name value attrs)).
Proof.
  induction attrs as [|[k v] rest IH]; cbn [Xml.set map fst]; intros N.
  - constructor; [intros [] | constructor].
  - inversion N as [|x l NI N']; subst.
    destruct (jsstring_eqb k name) eqn:E; cbn [map fst].
    + now constructor.
    + constructor; [|now apply IH].
      intros I. apply set_names in I. destruct I as [I|I]; [|contradiction].
      subst k. now rewrite (proj2 (jsstring_eqb_eq name name) eq_refl) in E.
Qed.

Lemma remove_names name attrs x :
  In x (map fst (Xml.removeAttribute name attrs)) -> In x (map fst attrs).
Proof.
  induction attrs as [|[k v] rest IH]; [auto|].
  cbn [Xml.removeAttribute map fst In].
  destruct (jsstring_eqb k name); cbn [map fst In]; intuition.
Qed.

Lemma NoDup_remove name attrs :
  NoDup (map fst attrs) -> NoDup (map fst (Xml.removeAttribute name attrs)).
Proof.
  induction attrs as [|[k v] rest IH]; [auto|]. cbn [map fst]. intros N.
  inversion N as [|x l NI N']; subst. cbn [Xml.removeAttribute].
  destruct (jsstring_eqb k name); [exact N'|]. cbn [map fst].
  constructor; [|now apply IH]. intros I. now apply remove_names in I.
Qed.

Lemma jsstring_dec (a b : jsstring) : a = b \/ a <> b.
Proof.
  destruct (jsstring_eqb a b) eqn:E.
  - left. now apply jsstring_eqb_eq.
  - right. intros Q. apply jsstring_eqb_eq in Q. congruence.
Qed.

Section Agreement.
Variable valid_name : jsstring -> bool.

Lemma set_agree name value other a b :
  (name = other \/ agree other a b) ->
  agree other (Xml.set name value a) (Xml.set name value b).
Proof.
  unfold agree. intros H. destruct (jsstring_dec name other) as [E|D].
  - subst. now rewrite !get_set_same.
  - rewrite !get_set_other by exact D. now destruct H.
Qed.

Lemma remove_agree name other a b :
  NoDup (map fst a) -> NoDup (map fst b) ->
  (name = other \/ agree other a b) ->
  agree other (Xml.removeAttribute name a) (Xml.removeAttribute name b).
Proof.
  unfold agree. intros Na Nb H. destruct (jsstring_dec name other) as [E|D].
  - subst. now rewrite !get_remove_same.
  - rewrite !get_remove_other by exact D. now destruct H.
Qed.

(** The first loop makes two notes agree on every attribute it writes, and
    keeps them agreeing where they did. *)
Lemma basic_attributes_agree entries other :
  forall a b a' b',
    NoDup (map fst a) -> NoDup (map fst b) ->
    basic_attributes valid_name entries a = Some a' ->
    basic_attributes valid_name entries b = Some b' ->
    (agree other a b
     \/ exists key value,
          In (key, value) entries
          /\ has_prefix (js "attr_") key = true
          /\ remove_first (js "attr_") key = other) ->
    agree other a' b'.
Proof.
  induction entries as [|[key value] rest IH]; intros a b a' b' Na Nb Ha Hb H.
  - cbn in Ha, Hb. inversion Ha. inversion Hb. subst.
    destruct H as [H|(k & v & [] & _)]. exact H.
  - cbn [basic_attributes] in Ha, Hb.
    destruct (has_prefix (js "attr_") key) eqn:P.
    + destruct value as [|c value].
      * apply (IH _ _ a' b' (NoDup_remove _ a Na) (NoDup_remove _ b Nb) Ha Hb).
        destruct H as [H|(k & v & [E|In'] & Pk & Rk)].
        -- left. apply remove_agree; auto.
        -- inversion E. subst. left. apply remove_agree; auto.
        -- right. eauto.
      * unfold setAttribute in Ha, Hb.
        destruct (valid_name (remove_first (js "attr_") key));
          [|discriminate].
        apply (IH _ _ a' b' (NoDup_set _ _ a Na) (NoDup_set _ _ b Nb) Ha Hb).
        destruct H as [H|(k & v & [E|In'] & Pk & Rk)].
        -- left. apply set_agree; auto.
        -- inversion E. subst. left. apply set_agree; auto.
        -- right. eauto.
    + apply (IH _ _ a' b' Na Nb Ha Hb).
      destruct H as [H|(k & v & [E|In'] & Pk & Rk)].
      * now left.
      * inversion E. subst. congruence.
      * right. eauto.
Qed.

Lemma basic_attributes_NoDup entries :
  forall a a',
    NoDup (map fst a) ->
    basic_attributes valid_name entries a = Some a' ->
    NoDup (map fst a').
Proof.
  induction entries as [|[key value] rest IH]; intros a a' Na Ha.
  - cbn in Ha. now inversion Ha; subst.
  - cbn [basic_attributes] in Ha.
    destruct (has_prefix (js "attr_") key); [|eauto].
    destruct value as [|c value].
    + eapply IH; [|exact Ha]. now apply NoDup_remove.
    + unfold setAttribute in Ha.
      destruct (valid_name _); [|discriminate].
      eapply IH; [|exact Ha]. now apply NoDup_set.
Qed.

(** The third loop keeps two notes agreeing where they did. *)
Lemma custom_attributes_agree entries other :
  forall a b a' b',
    custom_attributes valid_name entries a = Some a' ->
    custom_attributes valid_name entries b = Some b' ->
    agree other a b -> agree other a' b'.
Proof.
  induction entries as [|[key value] rest IH]; intros a b a' b' Ha Hb H.
  - cbn in Ha, Hb. inversion Ha. inversion Hb. now subst.
  - cbn [custom_attributes] in Ha, Hb.
    destruct (has_prefix (js "custom_") key
              && match value with [] => false | _ :: _ => true end);
      [|eauto].
    unfold setAttribute in Ha, Hb.
    destruct (valid_name _); [|discriminate].
    apply (IH _ _ a' b' Ha Hb). apply set_agree. now right.
Qed.

(** ** Articulations *)

Lemma new_articulations_artic entries artics :
  new_articulations valid_name entries = Some artics ->
  filter (Xml.is_element (js "artic")) artics = artics
  /\ flat_map (Xml.elements (js "note")) artics = [].
Proof.
  revert artics. induction entries as [|[key value] rest IH]; intros artics H.
  - cbn in H. inversion H. now split.
  - cbn [new_articulations] in H.
    destruct (has_prefix (js "artic_") key
              && match value with [] => false | _ :: _ => true end);
      [|eauto].
    destruct (setAttribute valid_name (js "type") value []) as [attrs|];
      [|discriminate].
    destruct (new_articulations valid_name rest) as [artics'|];
      [|discriminate].
    inversion H. subst. destruct (IH artics' eq_refl) as [F E].
    split.
    + cbn [filter Xml.is_element].
      replace (jsstring_eqb (js "artic") (js "artic")) with true
        by reflexivity.
      now rewrite F.
    + cbn [flat_map Xml.elements].
      replace (jsstring_eqb (js "artic") (js "note")) with false
        by reflexivity.
      cbn [app]. exact E.
Qed.

(** ** The document *)

Lemma update_unfold entries strip name attrs kids :
  update valid_name entries strip (Xml.Element name attrs kids) =
  let note := jsstring_eqb name (js "note") in
  let kids' :=
    update_list (update valid_name entries (strip || note)) (strip || note)
                kids in
  if note then
    match basic_attributes valid_name entries attrs with
    | None => None
    | Some attrs1 =>
        match new_articulations valid_name entries with
        | None => None
        | Some artics =>
            match custom_attributes valid_name entries attrs1 with
            | None => None
            | Some attrs3 =>
                match kids' with
                | None => None
                | Some kids'' =>
                    Some (Xml.Element name attrs3 (kids'' ++ artics))
                end
            end
        end
    end
  else
    match kids' with
    | None => None
    | Some kids'' => Some (Xml.Element name attrs kids'')
    end.
Proof.
  cbn [update]. cbv zeta.
  assert (E : forall l,
             (fix update_list (l : list Xml.Node) : option (list Xml.Node) :=
                match l with
                | [] => Some []
                | x :: r =>
                    if (strip || jsstring_eqb name (js "note"))
                       && Xml.is_element (js "artic") x
                    then update_list r
                    else
                      match
                        update valid_name entries
                          (strip || jsstring_eqb name (js "note")) x,
                        update_list r
                      with
                      | Some x', Some r' => Some (x' :: r')
                      | _, _ => None
                      end
                end) l =
             update_list
               (update valid_name entries
                  (strip || jsstring_eqb name (js "note")))
               (strip || jsstring_eqb name (js "note")) l).
  { induction l as [|x r IH]; [reflexivity|]. cbn [update_list].
    now rewrite IH. }
  now rewrite E.
Qed.

Lemma well_formed_unfold name attrs kids :
  Xml.well_formed (Xml.Element name attrs kids) <->
  NoDup (map fst attrs) /\ all_well_formed kids.
Proof.
  cbn [Xml.well_formed].
  assert (E : forall l,
             (fix all (l : list Xml.Node) : Prop :=
                match l with
                | [] => True
                | x :: r => Xml.well_formed x /\ all r
                end) l <-> all_well_formed l).
  { induction l as [|x r IH]; [reflexivity|]. cbn [all_well_formed].
    now rewrite IH. }
  now rewrite E.
Qed.

Lemma update_keeps_the_name entries strip n n' :
  update valid_name entries strip n = Some n' ->
  Xml.is_element (js "artic") n' = Xml.is_element (js "artic") n.
Proof.
  destruct n as [name attrs kids|data]; [|intros H; now inversion H].
  rewrite update_unfold. cbv zeta.
  destruct (jsstring_eqb name (js "note")).
  - destruct (basic_attributes _ _ _); [|discriminate].
    destruct (new_articulations _ _); [|discriminate].
    destruct (custom_attributes _ _ _); [|discriminate].
    destruct (update_list _ _ _); [|discriminate].
    intros H. now inversion H.
  - destruct (update_list _ _ _); [|discriminate].
    intros H. now inversion H.
Qed.

Lemma update_list_notes entries strip kids :
  Forall (fun x =>
     forall strip n', Xml.well_formed x ->
       update valid_name entries strip x = Some n' ->
       Forall (updated_note valid_name entries)
              (Xml.elements (js "note") n')) kids ->
  all_well_formed kids ->
  forall kids',
    update_list (update valid_name entries strip) strip kids = Some kids' ->
    Forall (updated_note valid_name entries)
           (flat_map (Xml.elements (js "note")) kids')
    /\ (strip = true -> filter (Xml.is_element (js "artic")) kids' = []).
Proof.
  induction 1 as [|x r Hx _ IH]; intros W kids' U.
  - cbn in U. inversion U. split; [constructor | reflexivity].
  - cbn [all_well_formed] in W. destruct W as [Wx Wr].
    cbn [update_list] in U.
    destruct (strip && Xml.is_element (js "artic") x) eqn:A.
    + now apply IH.
    + destruct (update valid_name entries strip x) as [x'|] eqn:Ux;
        [|discriminate].
      destruct (update_list _ strip r) as [r'|] eqn:Ur; [|discriminate].
      inversion U. subst kids'. destruct (IH Wr r' eq_refl) as [I1 I2].
      split.
      * cbn [flat_map]. apply Forall_app. split; [|exact I1].
        now apply (Hx strip).
      * intros S. subst strip. cbn [filter].
        rewrite (update_keeps_the_name _ _ _ _ Ux).
        cbn [andb] in A. rewrite A. now apply I2.
Qed.

Lemma update_notes entries n :
  forall strip n',
    Xml.well_formed n ->
    update valid_name entries strip n = Some n' ->
    Forall (updated_note valid_name entries) (Xml.elements (js "note") n').
Proof.
  pattern n. apply Node_nested_ind; clear n;
    [intros name attrs kids IH | intros data]; intros strip n' W U.
  - apply (proj1 (well_formed_unfold _ _ _)) in W. destruct W as [Wa Wk].
    rewrite update_unfold in U. cbv zeta in U.
    destruct (jsstring_eqb name (js "note")) eqn:Nt.
    + destruct (basic_attributes valid_name entries attrs) as [a1|] eqn:B;
        [|discriminate].
      destruct (new_articulations valid_name entries) as [artics|] eqn:A;
        [|discriminate].
      destruct (custom_attributes valid_name entries a1) as [a3|] eqn:C;
        [|discriminate].
      destruct (update_list _ _ kids) as [kids'|] eqn:K; [|discriminate].
      inversion U. subst n'.
      rewrite orb_true_r in K.
      destruct (update_list_notes entries true kids IH Wk kids' K)
        as [I1 I2].
      destruct (new_articulations_artic entries artics A) as [F E].
      cbn [Xml.elements]. rewrite Nt. cbn [app]. constructor.
      * exists name, attrs, a1, a3, kids', artics. auto 10.
      * rewrite flat_map_app, E, app_nil_r. exact I1.
    + destruct (update_list _ _ kids) as [kids'|] eqn:K; [|discriminate].
      inversion U. subst n'. rewrite orb_false_r in K.
      destruct (update_list_notes entries strip kids IH Wk kids' K)
        as [I1 _].
      cbn [Xml.elements]. rewrite Nt. exact I1.
  - inversion U. constructor.
Qed.
End Agreement.

(** X21.  [generateUpdatedContent] treats every note alike: the body of its
    loop over the notes does not use the note's index, so each note is given
    every entry of the form.  In the document it returns, any two [note]
    elements have the same [artic] children (one for each [artic_] entry
    with a value, in the order of the form) and the same value, or none,
    for every attribute that an [attr_] entry names. *)
Theorem notes_are_updated_alike :
  forall valid_name document formData document' n1 n2,
    Xml.well_formed document ->
    generateUpdatedContent valid_name (js "mei") document formData
      = Some document' ->
    In n1 (Xml.elements (js "note") document') ->
    In n2 (Xml.elements (js "note") document') ->
    articulations n1 = articulations n2
    /\ new_articulations valid_name formData = Some (articulations n1)
    /\ forall key value,
         In (key, value) formData ->
         has_prefix (js "attr_") key = true ->
         Xml.getAttribute (remove_first (js "attr_") key) (attributes_of n1)
         = Xml.getAttribute (remove_first (js "attr_") key) (attributes_of n2).
Proof.
  intros valid_name document formData document' n1 n2 W G I1 I2.
  unfold generateUpdatedContent in G.
  replace (jsstring_eqb (js "mei") (js "mei")) with true in G by reflexivity.
  pose proof (update_notes valid_name formData document false document' W G)
    as F.
  rewrite Forall_forall in F.
  destruct (F n1 I1)
    as (nm1 & a0 & a1 & a3 & k1 & ar1 & E1 & N1 & B1 & C1 & A1 & K1).
  destruct (F n2 I2)
    as (nm2 & b0 & b1 & b3 & k2 & ar2 & E2 & N2 & B2 & C2 & A2 & K2).
  subst n1 n2. cbn [articulations attributes_of].
  destruct (new_articulations_artic valid_name formData ar1 A1) as [F1 _].
  destruct (new_articulations_artic valid_name formData ar2 A2) as [F2 _].
  rewrite !filter_app, K1, K2, F1, F2. cbn [app].
  assert (ar1 = ar2) by congruence. subst ar2.
  split; [reflexivity|]. split; [exact A1|].
  intros key value In' P.
  apply (custom_attributes_agree valid_name formData _ a1 b1 a3 b3 C1 C2).
  apply (basic_attributes_agree valid_name formData _ a0 b0 a1 b1 N1 N2 B1 B2).
  right. eauto.
Qed.

Lemma notes_are_updated_alike_witness :
  articulations Measure.first_note' = articulations Measure.second_note'
  /\ new_articulations Measure.any_name Measure.form
     = Some (articulations Measure.first_note')
  /\ forall key value,
       In (key, value) Measure.form ->
       has_prefix (js "attr_") key = true ->
       Xml.getAttribute (remove_first (js "attr_") key)
         (attributes_of Measure.first_note')
       = Xml.getAttribute (remove_first (js "attr_") key)
           (attributes_of Measure.second_note').
Proof.
  apply (notes_are_updated_alike Measure.any_name Measure.document
           Measure.form Measure.document').
  - cbn. repeat split; repeat constructor;
      cbn; intros H; repeat (destruct H as [H|H]; try discriminate H);
      exact H.
  - vm_compute. reflexivity.
  - vm_compute. left. reflexivity.
  - vm_compute. right. left. reflexivity.
Defined.

(** ** The download of a result *)


